(** * bookverse-web: the AppTrust PROD rollback utility

    A shallow embedding of [scripts/apptrust_rollback.py]: the semantic-version
    parser and comparator, the eligibility filter and ranking, the successor
    selection and the rollback orchestration, followed by the properties the
    specification states about them; then the rest of the script -- the
    client's base URL and the paths of its requests, [_env] and [main] -- and
    the entry point of its copy [.github/scripts/apptrust_rollback.py], whose
    other functions are the same, with properties read off the code.

    Modelling conventions.
    - A Python [str] is a [string]; a character is its code point, and the
      model covers the code points 0..255: a statement about every string is
      about every string over these.  The three places where Python
      consults the Unicode tables are written out on that range: the regular
      expression classes [\s] and [\d] exactly ([\d] is [[0-9]] there; above
      code point 255 it also matches the decimal digits of the other
      scripts, which the model does not reach); [str.isdigit] on the ASCII
      digits (it is only applied to prerelease identifiers, and those that
      [SemVer.parse] produces consist of [0-9A-Za-z-]; Python's also holds
      at the superscript digits U+00B2, U+00B3 and U+00B9, on which [int]
      raises, so the properties of the comparator on values that
      [SemVer.parse] did not produce are stated for identifiers without
      these three); [str.upper] on the ASCII letters (on the other code
      points Python's result keeps a non-ASCII character or grows, so it
      never equals one of the two release-status constants, which is all
      the program asks of it).
    - A Python [int] is unbounded: [N] where it cannot be negative, [Z]
      otherwise; the interpreter's limit on the number of digits [int]
      converts is not modelled.
    - A [dict] is a [gmap], a [set] a [gset], a [list] or [tuple] a [list].
    - [list.sort] is stable and only uses [<] on the keys; on keys that [<]
      orders as a strict weak order its result is the unique stable
      arrangement, which a stable insertion sort computes.
    - The remote registry is reached through three web calls; the program is
      embedded in a state-and-exception monad over the remote world, the
      trace of calls issued and the lines printed.
    - [str.strip] takes off the white space of [\s]; [urllib.parse.quote]
      is that of Python 3.7 and later (it leaves [~] alone), with the default
      [safe="/"], on the UTF-8 encoding of the string.
    - [main] starts from the command line as [argparse] read it and from the
      environment; the answers of [oidc_auth] and the registry a client
      reaches are parameters; time is not modelled. *)

From Stdlib Require Import ZArith NArith Ascii String List Lia Bool.
From Stdlib Require Import Sorting.Sorted.
From stdpp Require Import gmap strings list.

Open Scope string_scope.
Open Scope list_scope.

(** ** Characters and the classes of [SEMVER_RE] *)

Definition code (c : ascii) : N := N_of_ascii c.

Definition in_range (lo hi : N) (c : ascii) : bool :=
  (lo <=? code c)%N && (code c <=? hi)%N.

(** [\s]: the white space of [str] patterns below code point 256:
    TAB..CR, FS..US, SPACE, NEL and NBSP. *)
Definition is_space (c : ascii) : bool :=
  in_range 9 13 c || in_range 28 32 c || (code c =? 133)%N || (code c =? 160)%N.

(** [[0-9]], and [\d] below code point 256 (none of the further decimal
    digits that [\d] matches in a [str] pattern lies there). *)
Definition is_decimal (c : ascii) : bool := in_range 48 57 c.

(** [[1-9]]. *)
Definition is_nonzero_decimal (c : ascii) : bool := in_range 49 57 c.

(** [[a-zA-Z-]]. *)
Definition is_letter_or_hyphen (c : ascii) : bool :=
  in_range 97 122 c || in_range 65 90 c || (code c =? 45)%N.

(** [[0-9a-zA-Z-]]. *)
Definition is_ident_char (c : ascii) : bool :=
  is_decimal c || is_letter_or_hyphen c.

Definition is_dot (c : ascii) : bool := (code c =? 46)%N.

(** ** String primitives of Python used by the script *)

Fixpoint str_all (p : ascii → bool) (s : string) : bool :=
  match s with
  | EmptyString => true
  | String c r => p c && str_all p r
  end.

(** [s.isdigit()] on a string without the superscript digits U+00B2, U+00B3
    and U+00B9: non-empty and every character one of [0-9].  (At the three
    superscripts Python's [isdigit] holds as well, and [int] then raises; no
    identifier of a parsed version holds one.) *)
Definition isdigit (s : string) : bool :=
  match s with
  | EmptyString => false
  | _ => str_all is_decimal s
  end.

Definition digit_value (c : ascii) : N := (code c - 48)%N.

Fixpoint int_acc (acc : N) (s : string) : N :=
  match s with
  | EmptyString => acc
  | String c r => int_acc (10 * acc + digit_value c)%N r
  end.

(** [int(s)] on a string of decimal digits. *)
Definition int (s : string) : N := int_acc 0 s.

(** [s.split(sep)] for a one-character separator: never the empty list. *)
Fixpoint split (sep : ascii → bool) (s : string) : list string :=
  match s with
  | EmptyString => [EmptyString]
  | String c r =>
      if sep c then EmptyString :: split sep r
      else match split sep r with
           | h :: t => String c h :: t
           | [] => [String c EmptyString]
           end
  end.

Definition upper_char (c : ascii) : ascii :=
  if in_range 97 122 c then ascii_of_N (code c - 32) else c.

(** [s.upper()]. *)
Fixpoint upper (s : string) : string :=
  match s with
  | EmptyString => EmptyString
  | String c r => String (upper_char c) (upper r)
  end.

(** [a < b] on [str]: lexicographic on code points. *)
Definition str_lt (a b : string) : bool := String.ltb a b.

(** ** Matching [SEMVER_RE]

    The pattern is
    [^\s*v?(0|[1-9]\d* )\.(0|[1-9]\d* )\.(0|[1-9]\d* )(?:-(PRE))?(?:\+(BUILD))?\s*$]
    with [PRE = ID(\.ID)*], [ID = 0|[1-9]\d*|[a-zA-Z-][0-9a-zA-Z-]*] and
    [BUILD = [0-9a-zA-Z-]+(\.[0-9a-zA-Z-]+)*].  Every token is followed by a
    character outside its own class (or by the end), so back-tracking never
    finds a match that the longest token misses: the matcher below takes the
    longest run of the token's class and then checks the token's shape.
    [semver_re_sound] and [semver_re_complete] relate it to the pattern read
    as a decomposition of the subject. *)

Fixpoint span (p : ascii → bool) (s : string) : string * string :=
  match s with
  | EmptyString => (EmptyString, EmptyString)
  | String c r =>
      if p c then let '(a, b) := span p r in (String c a, b)
      else (EmptyString, s)
  end.

(** [0|[1-9]\d*] on a run of digits. *)
Definition numeric_shape (s : string) : bool :=
  match s with
  | EmptyString => false
  | String c EmptyString => is_decimal c
  | String c _ => is_nonzero_decimal c && str_all is_decimal s
  end.

(** [0|[1-9]\d*|[a-zA-Z-][0-9a-zA-Z-]*]. *)
Definition identifier_shape (s : string) : bool :=
  numeric_shape s ||
  match s with
  | EmptyString => false
  | String c r => is_letter_or_hyphen c && str_all is_ident_char r
  end.

(** [[0-9a-zA-Z-]+]. *)
Definition build_segment_shape (s : string) : bool :=
  match s with
  | EmptyString => false
  | _ => str_all is_ident_char s
  end.

Definition scan_numeric (s : string) : option (string * string) :=
  let '(ds, r) := span is_decimal s in
  if numeric_shape ds then Some (ds, r) else None.

Definition expect (p : ascii → bool) (s : string) : option string :=
  match s with
  | String c r => if p c then Some r else None
  | EmptyString => None
  end.

(** A dotted sequence after its introducing character: the longest run of
    identifier characters and dots, every piece of which has the shape. *)
Definition scan_dotted (shape : string → bool) (s : string)
  : option (string * string) :=
  let '(raw, r) := span (λ c, is_ident_char c || is_dot c) s in
  if forallb shape (split is_dot raw) then Some (raw, r) else None.

(** [(?:-(?P<prerelease>...))?] and [(?:\+(?P<build>...))?]: [None] in the
    result is the group that did not take part. *)
Definition scan_optional (intro : N) (shape : string → bool) (s : string)
  : option (option string * string) :=
  match s with
  | String c r =>
      if (code c =? intro)%N then
        match scan_dotted shape r with
        | Some (raw, r') => Some (Some raw, r')
        | None => None
        end
      else Some (None, s)
  | EmptyString => Some (None, s)
  end.

(** The groups of a match, as [m.groupdict()] has them. *)
Record groups := Groups {
  g_major : string;
  g_minor : string;
  g_patch : string;
  g_prerelease : option string;
  g_build : option string
}.

(** [SEMVER_RE.match(version)]. *)
Definition SEMVER_RE_match (version : string) : option groups :=
  let s := snd (span is_space version) in
  let s := match s with
           | String c r => if (code c =? 118)%N then r else s
           | EmptyString => s
           end in
  '(major, s) ← scan_numeric s;
  s ← expect is_dot s;
  '(minor, s) ← scan_numeric s;
  s ← expect is_dot s;
  '(patch, s) ← scan_numeric s;
  '(pre, s) ← scan_optional 45 identifier_shape s;
  '(build, s) ← scan_optional 43 build_segment_shape s;
  if str_all is_space s then Some (Groups major minor patch pre build) else None.

(** ** [SemVer] *)

Record SemVer := mkSemVer {
  major : N;
  minor : N;
  patch : N;
  prerelease : list string;
  original : string
}.

Definition SemVer_parse (version : string) : option SemVer :=
  match SEMVER_RE_match version with
  | None => None
  | Some g =>
      let prerelease_raw := default "" (g_prerelease g) in
      Some (mkSemVer (int (g_major g)) (int (g_minor g)) (int (g_patch g))
              (if (prerelease_raw =? "")%string then []
               else split is_dot prerelease_raw)
              version)
  end.

(** The [for at, bt in zip(a.prerelease, b.prerelease)] loop of
    [compare_semver]: [Some r] when an iteration returns [r], [None] when the
    loop runs to its end. *)
Fixpoint compare_prerelease (ap bp : list string) : option Z :=
  match ap, bp with
  | at_ :: ap', bt :: bp' =>
      if (at_ =? bt)%string then compare_prerelease ap' bp'
      else
        let a_num := isdigit at_ in
        let b_num := isdigit bt in
        if a_num && b_num then
          let ai := int at_ in
          let bi := int bt in
          if negb (ai =? bi)%N then Some (if (ai <? bi)%N then -1 else 1)%Z
          else compare_prerelease ap' bp'
        else if a_num && negb b_num then Some (-1)%Z
        else if negb a_num && b_num then Some 1%Z
        else if str_lt at_ bt then Some (-1)%Z
        else Some 1%Z
  | _, _ => None
  end.

Definition is_nil {A} (l : list A) : bool :=
  match l with [] => true | _ => false end.

Definition compare_semver (a b : SemVer) : Z :=
  if negb (major a =? major b)%N then
    (if (major a <? major b)%N then -1 else 1)%Z
  else if negb (minor a =? minor b)%N then
    (if (minor a <? minor b)%N then -1 else 1)%Z
  else if negb (patch a =? patch b)%N then
    (if (patch a <? patch b)%N then -1 else 1)%Z
  else if is_nil (prerelease a) && negb (is_nil (prerelease b)) then 1%Z
  else if negb (is_nil (prerelease a)) && is_nil (prerelease b) then (-1)%Z
  else
    match compare_prerelease (prerelease a) (prerelease b) with
    | Some r => r
    | None =>
        if negb (List.length (prerelease a) =? List.length (prerelease b))%nat
        then (if (List.length (prerelease a) <? List.length (prerelease b))%nat
              then -1 else 1)%Z
        else 0%Z
    end.

(** [SemVer.__lt__]. *)
Definition SemVer_lt (a b : SemVer) : bool := (compare_semver a b <? 0)%Z.

(** ** [list.sort] and dict comprehensions *)

Section Sorting.
Context {A : Type} (lt : A → A → bool).

(** Where [x], which stood before every element of the sorted [l], goes:
  after the elements strictly below it, before the first that is not. *)
Fixpoint insert_sorted (x : A) (l : list A) : list A :=
match l with
| [] => [x]
| y :: l' => if lt y x then y :: insert_sorted x l' else x :: l
end.

(** [l.sort()] with [lt] for [<]. *)
Definition sort (l : list A) : list A := foldr insert_sorted [] l.
End Sorting.

(** [l.sort(key=key)] for keys ordered by [lt]. *)
Definition sort_by_key {A K} (lt : K → K → bool) (key : A → K) : list A → list A :=
  sort (λ x y, lt (key x) (key y)).

(** [l.sort(key=key, reverse=True)]: descending, and still stable. *)
Definition sort_by_key_reverse {A K} (lt : K → K → bool) (key : A → K)
  : list A → list A :=
  sort (λ x y, lt (key y) (key x)).

Fixpoint enumerate_from {A} (i : Z) (l : list A) : list (Z * A) :=
  match l with
  | [] => []
  | x :: l' => (i, x) :: enumerate_from (i + 1) l'
  end.

(** [enumerate(l)]. *)
Definition enumerate {A} (l : list A) : list (Z * A) := enumerate_from 0 l.

(** [{k: v for (k, v) in kvs}]: a later pair overwrites an earlier one. *)
Definition dict_of {V} (kvs : list (string * V)) : gmap string V :=
  foldl (λ m kv, <[kv.1 := kv.2]> m) ∅ kvs.

Definition sort_versions_by_semver_desc (version_strings : list string)
  : list string :=
  let parsed :=
    foldl (λ parsed v,
             match SemVer_parse v with
             | Some sv => parsed ++ [(sv, v)]
             | None => parsed
             end) [] version_strings in
  let parsed := sort_by_key_reverse SemVer_lt fst parsed in
  map snd parsed.

(** ** Registry entries *)

Definition TRUSTED := "TRUSTED_RELEASE".
Definition RELEASED := "RELEASED".
Definition QUARANTINE_TAG := "quarantine".
Definition LATEST_TAG := "latest".
Definition BACKUP_BEFORE_LATEST := "original_tag_before_latest".
Definition BACKUP_BEFORE_QUARANTINE := "original_tag_before_quarantine".

(** A field of a JSON object of the response, as far as the script looks at
    it: the key is absent, the value is [null], or it is a value, given by
    what [str()] makes of it. *)
Inductive json_field :=
| Absent
| Null
| Value (str_of : string).

(** One element of ["versions"] in the response of the list call. *)
Record RawEntry := mkRaw {
  raw_version : json_field;
  raw_tag : json_field;
  raw_release_status : json_field
}.

(** The response of the list call: [None] when it has no ["versions"] key. *)
Record Response := mkResponse { resp_versions : option (list RawEntry) }.

(** The dictionaries [get_prod_versions] builds. *)
Record Entry := mkEntry {
  version : string;
  tag : string;
  release_status : string
}.

Global Instance json_field_eq_dec : EqDecision json_field.
Proof. solve_decision. Defined.
Global Instance RawEntry_eq_dec : EqDecision RawEntry.
Proof. solve_decision. Defined.
Global Instance Entry_eq_dec : EqDecision Entry.
Proof. solve_decision. Defined.

(** [str(v.get(key, ""))]. *)
Definition str_get (f : json_field) : string :=
  match f with
  | Absent => ""
  | Null => "None"
  | Value s => s
  end.

(** [tag = v.get("tag"); "" if tag is None else str(tag)]. *)
Definition tag_str_of (f : json_field) : string :=
  match f with
  | Absent | Null => ""
  | Value s => s
  end.

Definition is_eligible_status (rs : string) : bool :=
  (rs =? TRUSTED)%string || (rs =? RELEASED)%string.

(** The first loop of [get_prod_versions]. *)
Definition normalize (versions : list RawEntry) : list Entry :=
  foldl (λ norm v,
           let ver := str_get (raw_version v) in
           let tag_str := tag_str_of (raw_tag v) in
           let rs := upper (str_get (raw_release_status v)) in
           if is_eligible_status rs then norm ++ [mkEntry ver tag_str rs]
           else norm) [] versions.

Definition DEFAULT_KEY : Z := 10 ^ 9.

(** [get_prod_versions] from the response on. *)
Definition rank_prod_versions (resp : Response) : list Entry :=
  let versions := default [] (resp_versions resp) in
  let norm := normalize versions in
  let order := sort_versions_by_semver_desc (map version norm) in
  let idx := dict_of (map (λ '(i, ver), (ver, i)) (enumerate order)) in
  sort_by_key Z.ltb (λ x, default DEFAULT_KEY (idx !! version x)) norm.

(** The first loop of [pick_next_latest]: one step, and the loop. *)
Definition dup_step (exclude_version : string)
    (dup : gmap string (list Entry)) (v : Entry) : gmap string (list Entry) :=
  if (version v =? exclude_version)%string then dup
  else if (tag v =? QUARANTINE_TAG)%string then dup
  else <[version v := default [] (dup !! version v) ++ [v]]> dup.

Definition dup_loop (exclude_version : string) (l : list Entry)
  : gmap string (list Entry) :=
  foldl (dup_step exclude_version) ∅ l.

(** The second loop, on its two variables [seen] and [ordered]. *)
Definition ordered_step (exclude_version : string)
    (dup : gmap string (list Entry)) (st : gset string * list string)
    (v : Entry) : gset string * list string :=
  let '(seen, ordered) := st in
  let vv := version v in
  if (vv =? exclude_version)%string then (seen, ordered)
  else if bool_decide (vv ∈ dom dup) && bool_decide (vv ∉ seen)
       then (seen ∪ {[vv]}, ordered ++ [vv])
       else (seen, ordered).

Definition ordered_loop (exclude_version : string)
    (dup : gmap string (list Entry)) (l : list Entry)
  : gset string * list string :=
  foldl (ordered_step exclude_version dup) (∅, []) l.

Definition pick_next_latest (sorted_prod_versions : list Entry)
    (exclude_version : string) : option Entry :=
  let dup := dup_loop exclude_version sorted_prod_versions in
  if bool_decide (dup = ∅) then None
  else
    let '(seen, ordered) :=
      ordered_loop exclude_version dup sorted_prod_versions in
    (* for ver in ordered: the first iteration returns *)
    match ordered with
    | [] => None
    | ver :: _ =>
        let cands := default [] (dup !! ver) in
        let trusted := filter (λ c, release_status c = TRUSTED) cands in
        match trusted with
        | t :: _ => Some t
        | [] => head cands
        end
    end.

(** ** The remote registry and the effects of a run *)

(** The three calls of [AppTrustClient], with the arguments that reach the
    request: path parameters, query and body. *)
Inductive request :=
| ListVersions (app_key : string) (limit : Z)
| PatchVersion (app_key version : string) (tag : option string)
    (properties : option (gmap string (list string)))
    (delete_properties : option (list string))
| RollbackVersion (app_key version from_stage : string).

Global Instance request_eq_dec : EqDecision request.
Proof. solve_decision. Defined.

(** A call that changes the registry. *)
Definition is_mutating (r : request) : bool :=
  match r with
  | ListVersions _ _ => false
  | PatchVersion _ _ _ _ _ | RollbackVersion _ _ _ => true
  end.

Definition is_patch (r : request) : bool :=
  match r with
  | PatchVersion _ _ _ _ _ => true
  | _ => false
  end.

(** The lines the script prints, by their [print] statement and the values it
    formats into them. *)
Inductive message :=
| CallingRollback (app_key target_version from_stage : string)
| InvokedRollback (app_key target_version from_stage : string)
| DryRunRollback (app_key target_version from_stage : string)
| DryRunPatch (app_key version : string) (props : gmap string (list string))
    (new_tag : string)
| NoSuccessor
| ReassignedLatest (cand_ver : string)
| LatestUnchanged.

Inductive exn :=
| TransportError (r : request)
| TargetNotFound (target_version : string)
| RollbackCallFailed (cause : exn).

(** A version as the registry holds it: what the list call shows of it, and
    its properties. *)
Record Held := mkHeld {
  shown : RawEntry;
  props_of : gmap string (list string)
}.

(** Modelled from the spec: the registry behind the client, which is not part
    of the repository.  It holds the versions of the application the run
    addresses, in the order the list call returns them; a call either fails,
    changing nothing, or takes effect.  A tag-patch addresses a version by its
    version string, and the version held under that string takes the tag and
    the properties of the body.  Where several entries are held under one
    version string, neither the client nor the specification says which of
    them a patch changes; the model changes them all, and nothing is stated
    on the strength of that choice: what is stated of the registry after a
    run is about runs that patch nothing, about a registry of distinct
    version strings, or under the condition that the patched version strings
    are held once.  The stage rollback of a version changes its release
    status as the registry sees fit ([demote]) and nothing else. *)
Record Remote := mkRemote {
  held : list Held;
  fails : request → bool;
  demote : json_field → json_field
}.

Record State := mkState {
  remote : Remote;
  calls : list request;
  stdout : list message
}.

Definition addressed_by (ver : string) (h : Held) : bool :=
  (str_get (raw_version (shown h)) =? ver)%string.

Definition patch_held (ver : string) (tag : option string)
    (properties : option (gmap string (list string))) (h : Held) : Held :=
  if addressed_by ver h then
    mkHeld
      (mkRaw (raw_version (shown h))
             (match tag with Some t => Value t | None => raw_tag (shown h) end)
             (raw_release_status (shown h)))
      (match properties with Some p => p ∪ props_of h | None => props_of h end)
  else h.

Definition rollback_held (demote : json_field → json_field) (ver : string)
    (h : Held) : Held :=
  if addressed_by ver h then
    mkHeld
      (mkRaw (raw_version (shown h)) (raw_tag (shown h))
             (demote (raw_release_status (shown h))))
      (props_of h)
  else h.

Definition effect (r : request) (rm : Remote) : Remote :=
  match r with
  | ListVersions _ _ => rm
  | PatchVersion _ ver tag properties _ =>
      mkRemote (map (patch_held ver tag properties) (held rm))
               (fails rm) (demote rm)
  | RollbackVersion _ ver _ =>
      mkRemote (map (rollback_held (demote rm) ver) (held rm))
               (fails rm) (demote rm)
  end.

(** Computations of the script: they read and change the state and end in a
    value or in an exception. *)
Definition M (A : Type) : Type := State → (exn + A) * State.

Global Instance M_ret : MRet M := λ A a st, (inr a, st).
Global Instance M_bind : MBind M := λ A B k m st,
  match m st with
  | (inr a, st') => k a st'
  | (inl e, st') => (inl e, st')
  end.

Definition raise {A} (e : exn) : M A := λ st, (inl e, st).

(** [try: body except Exception as e: handler(e)]. *)
Definition try_except {A} (body : M A) (handler : exn → M A) : M A := λ st,
  match body st with
  | (inr a, st') => (inr a, st')
  | (inl e, st') => handler e st'
  end.

Definition print (m : message) : M unit := λ st,
  (inr (), mkState (remote st) (calls st) (stdout st ++ [m])).

(** The JSON body of the answer; the script reads it after the list call
    only. *)
Definition answer (r : request) (rm : Remote) : Response :=
  match r with
  | ListVersions _ _ => mkResponse (Some (map shown (held rm)))
  | _ => mkResponse None
  end.

(** [AppTrustClient._request]: the call is issued; it raises, or it takes
    effect and returns the body of the answer. *)
Definition _request (r : request) : M Response := λ st,
  let st' := mkState (remote st) (calls st ++ [r]) (stdout st) in
  if fails (remote st) r then (inl (TransportError r), st')
  else (inr (answer r (remote st)),
        mkState (effect r (remote st)) (calls st') (stdout st')).

Definition list_application_versions (app_key : string) : M Response :=
  _request (ListVersions app_key 1000).

Definition patch_application_version (app_key version : string)
    (tag : option string) (properties : option (gmap string (list string)))
  : M Response :=
  _request (PatchVersion app_key version tag properties None).

Definition rollback_application_version (app_key version from_stage : string)
  : M Response :=
  _request (RollbackVersion app_key version from_stage).

Definition get_prod_versions (app_key : string) : M (list Entry) :=
  resp ← list_application_versions app_key;
  mret (rank_prod_versions resp).

Definition backup_tag_then_patch (app_key version backup_prop_key new_tag
    current_tag : string) (dry_run : bool) : M unit :=
  let props : gmap string (list string) := {[ backup_prop_key := [current_tag] ]} in
  if dry_run then print (DryRunPatch app_key version props new_tag)
  else patch_application_version app_key version (Some new_tag) (Some props);;
       mret ().

Definition rollback_in_prod (app_key target_version : string) (dry_run : bool)
  : M unit :=
  prod_versions ← get_prod_versions app_key;
  let by_version := dict_of (map (λ v, (version v, v)) prod_versions) in
  match by_version !! target_version with
  | None => raise (TargetNotFound target_version)
  | Some target =>
      let from_stage := "PROD" in
      (if negb dry_run then
         print (CallingRollback app_key target_version from_stage);;
         try_except
           (rollback_application_version app_key target_version from_stage;;
            print (InvokedRollback app_key target_version from_stage))
           (λ e, raise (RollbackCallFailed e))
       else print (DryRunRollback app_key target_version from_stage));;
      let current_tag := tag target in
      let had_latest := (current_tag =? LATEST_TAG)%string in
      backup_tag_then_patch app_key target_version BACKUP_BEFORE_QUARANTINE
        QUARANTINE_TAG current_tag dry_run;;
      if had_latest then
        match pick_next_latest prod_versions target_version with
        | None => print NoSuccessor
        | Some next_candidate =>
            let cand_ver := version next_candidate in
            let cand_tag := tag next_candidate in
            backup_tag_then_patch app_key cand_ver BACKUP_BEFORE_LATEST
              LATEST_TAG cand_tag dry_run;;
            print (ReassignedLatest cand_ver)
        end
      else print LatestUnchanged
  end.

(** A run from a fresh process: nothing called, nothing printed. *)
Definition run (rm : Remote) (app_key target_version : string) (dry_run : bool)
  : (exn + unit) * State :=
  rollback_in_prod app_key target_version dry_run (mkState rm [] []).

Definition held_version (h : Held) : string := str_get (raw_version (shown h)).
Definition held_tag (h : Held) : string := tag_str_of (raw_tag (shown h)).
Definition held_eligible (h : Held) : bool :=
  is_eligible_status (upper (str_get (raw_release_status (shown h)))).

Definition scenario : list Held :=
  [ mkHeld (mkRaw (Value "2.0.0") (Value "latest") (Value "RELEASED")) ∅;
    mkHeld (mkRaw (Value "1.5.0") (Value "") (Value "TRUSTED_RELEASE")) ∅;
    mkHeld (mkRaw (Value "1.0.0") (Value "quarantine") (Value "RELEASED")) ∅ ].

Definition never_fails : request → bool := λ _, false.

(** ** More of Python's strings *)

(** [s.rstrip(chars)], for the characters of the class [p]. *)
Fixpoint rstrip (p : ascii → bool) (s : string) : string :=
  match s with
  | EmptyString => EmptyString
  | String c r =>
      match rstrip p r with
      | EmptyString => if p c then EmptyString else String c EmptyString
      | r' => String c r'
      end
  end.

(** [s.lstrip(chars)]. *)
Definition lstrip (p : ascii → bool) (s : string) : string := snd (span p s).

(** [s.strip()]: white space off both ends. *)
Definition strip (s : string) : string := rstrip is_space (lstrip is_space s).

(** ** [urllib.parse.quote] *)

Definition is_slash (c : ascii) : bool := (code c =? 47)%N.

Definition is_letter (c : ascii) : bool :=
  in_range 65 90 c || in_range 97 122 c.

(** The characters [quote] never escapes: letters, digits and [_.-~]. *)
Definition is_unreserved (c : ascii) : bool :=
  is_letter c || is_decimal c
  || (code c =? 95)%N || (code c =? 46)%N || (code c =? 45)%N
  || (code c =? 126)%N.

(** With the default [safe="/"]. *)
Definition is_safe (c : ascii) : bool := is_unreserved c || is_slash c.

(** One digit of [%02X]. *)
Definition hex_digit (n : N) : ascii :=
  if (n <? 10)%N then ascii_of_N (48 + n) else ascii_of_N (55 + n).

(** ['%{:02X}'.format(b)]. *)
Definition percent (b : N) : string :=
  String "%" (String (hex_digit (b / 16)) (String (hex_digit (b mod 16)) "")).

(** The UTF-8 encoding of a code point below 256. *)
Definition utf8 (c : ascii) : list N :=
  if (code c <? 128)%N then [code c]
  else [192 + code c / 64; 128 + code c mod 64]%N.

Fixpoint concat_strings (l : list string) : string :=
  match l with
  | [] => ""
  | s :: l' => s +:+ concat_strings l'
  end.

Definition quote_char (c : ascii) : string :=
  if is_safe c then String c "" else concat_strings (map percent (utf8 c)).

(** [urllib.parse.quote(s)]. *)
Fixpoint quote (s : string) : string :=
  match s with
  | EmptyString => EmptyString
  | String c r => quote_char c +:+ quote r
  end.

(** ** The requests of [AppTrustClient] *)

(** [AppTrustClient]: what [__init__] keeps. *)
Record AppTrustClient := mkClient {
  base_url : string;
  token : string;
  timeout_seconds : Z
}.

(** [AppTrustClient(base_url, token)]. *)
Definition AppTrustClient_init (base_url token : string) : AppTrustClient :=
  mkClient (rstrip is_slash base_url) token 30.

(** The HTTP method and the path of the three calls. *)
Definition method_of (r : request) : string :=
  match r with
  | ListVersions _ _ => "GET"
  | PatchVersion _ _ _ _ _ => "PATCH"
  | RollbackVersion _ _ _ => "POST"
  end.

Definition path_of (r : request) : string :=
  match r with
  | ListVersions app_key _ =>
      "/applications/" +:+ quote app_key +:+ "/versions"
  | PatchVersion app_key version _ _ _ =>
      "/applications/" +:+ quote app_key +:+ "/versions/" +:+ quote version
  | RollbackVersion app_key version _ =>
      "/applications/" +:+ quote app_key +:+ "/versions/" +:+ quote version
      +:+ "/rollback"
  end.

(** ** The environment and the entry points *)

(** [_env(name, default)] over the environment [env]. *)
Definition _env (env : gmap string string) (name : string)
    (default : option string) : option string :=
  match env !! name with
  | None => default
  | Some v => if (strip v =? "")%string then default else Some (strip v)
  end.

(** The command line as [argparse] read it: the two required options, the
    two optional ones ([None] where the option was not given) and the
    flag. *)
Record Args := mkArgs {
  args_app : string;
  args_version : string;
  args_base_url : option string;
  args_token : option string;
  args_dry_run : bool
}.

(** What [oidc_auth] answers, a module that is not part of the repository:
    the results of its two functions. *)
Record Oidc := mkOidc {
  get_jfrog_token : option string;
  get_apptrust_base_url : option string
}.

(** [if x:] on an optional string. *)
Definition truthy (x : option string) : bool :=
  match x with
  | Some s => negb (s =? "")%string
  | None => false
  end.

(** [x or y]. *)
Definition or_ (x y : option string) : option string :=
  if truthy x then x else y.

(** An option of [argparse] with a default. *)
Definition with_default (given default : option string) : option string :=
  match given with
  | Some v => Some v
  | None => default
  end.

(** A line on the standard error: one of the fixed texts, or [ERROR:] and
    the exception. *)
Inductive diagnostic :=
| Line (text : string)
| ErrorLine (e : exn).

(** What a run of [main] leaves: the exit code, the state the rollback
    ended in ([None] when no client was made), the lines on the standard
    error and whether [Done in ...] was printed after the lines of the
    rollback. *)
Record Outcome := mkOutcome {
  exit_code : Z;
  final : option State;
  stderr : list diagnostic;
  printed_done : bool
}.

(** From the client on: the end of both [main]s.  [reach] is the registry a
    client reaches. *)
Definition run_client (reach : AppTrustClient → Remote)
    (client : AppTrustClient) (args : Args) : Outcome :=
  match rollback_in_prod (args_app args) (args_version args)
          (args_dry_run args) (mkState (reach client) [] []) with
  | (inr _, st) => mkOutcome 0 (Some st) [] true
  | (inl e, st) => mkOutcome 1 (Some st) [ErrorLine e] false
  end.

(** [main] of [scripts/apptrust_rollback.py]. *)
Definition main (env : gmap string string) (reach : AppTrustClient → Remote)
    (args : Args) : Outcome :=
  let base_url :=
    with_default (args_base_url args) (_env env "APPTRUST_BASE_URL" None) in
  let token :=
    with_default (args_token args) (_env env "APPTRUST_ACCESS_TOKEN" None) in
  if negb (truthy base_url) then
    mkOutcome 2 None [Line "Missing --base-url or APPTRUST_BASE_URL"] false
  else if negb (truthy token) then
    mkOutcome 2 None [Line "Missing --token or APPTRUST_ACCESS_TOKEN"] false
  else
    run_client reach
      (AppTrustClient_init (default "" base_url) (default "" token)) args.

(** [get_auth_token] and [get_base_url] of
    [.github/scripts/apptrust_rollback.py]; [oidc] is [None] when the import
    of [oidc_auth] failed. *)
Definition get_auth_token (env : gmap string string) (oidc : option Oidc)
  : option string :=
  let from_env :=
    let token := _env env "JF_OIDC_TOKEN" None in
    if truthy token then token else None in
  match oidc with
  | Some o =>
      let token := get_jfrog_token o in
      if truthy token then token else from_env
  | None => from_env
  end.

Definition get_base_url (env : gmap string string) (oidc : option Oidc)
  : option string :=
  match oidc with
  | Some o =>
      let url := get_apptrust_base_url o in
      if truthy url then url else _env env "APPTRUST_BASE_URL" None
  | None => _env env "APPTRUST_BASE_URL" None
  end.

(** [main] of [.github/scripts/apptrust_rollback.py]. *)
Definition main_ci (env : gmap string string) (oidc : option Oidc)
    (reach : AppTrustClient → Remote) (args : Args) : Outcome :=
  let base_url := or_ (args_base_url args) (get_base_url env oidc) in
  if negb (truthy base_url) then
    mkOutcome 2 None
      [ Line "Missing --base-url or APPTRUST_BASE_URL environment variable";
        Line "For OIDC authentication, ensure JFROG_URL is set" ] false
  else
    let token := or_ (args_token args) (get_auth_token env oidc) in
    if negb (truthy token) then
      mkOutcome 2 None
        ([ Line "Missing authentication token";
           Line "Tried: JF_OIDC_TOKEN, OIDC auto-detection" ]
         ++ match oidc with
            | None => [Line "Note: OIDC authentication library not available"]
            | Some _ => []
            end) false
    else
      run_client reach
        (AppTrustClient_init (default "" base_url) (default "" token)) args.

(** ** Semantic-version precedence, as the specification words it

    Rules 1 to 5 of the comparator: major, minor and patch numerically, the
    first difference deciding; a version without prerelease above one with;
    prerelease identifiers one by one, numeric ones by value, a numeric one
    below an alphanumeric one, alphanumeric ones in ASCII order; a strict
    prefix below the longer sequence; build metadata and the original string
    take no part. *)
Module Precedence.

(** The first difference decides. *)
Definition or_else (c k : comparison) : comparison :=
match c with
| Eq => k
| _ => c
end.

Definition identifiers (x y : string) : comparison :=
match isdigit x, isdigit y with
| true, true => (int x ?= int y)%N
| true, false => Lt
| false, true => Gt
| false, false => String.compare x y
end.

Fixpoint sequences (xs ys : list string) : comparison :=
match xs, ys with
| [], [] => Eq
| [], _ :: _ => Lt
| _ :: _, [] => Gt
| x :: xs', y :: ys' => or_else (identifiers x y) (sequences xs' ys')
end.

Definition prereleases (xs ys : list string) : comparison :=
match xs, ys with
| [], [] => Eq
| [], _ :: _ => Gt
| _ :: _, [] => Lt
| _, _ => sequences xs ys
end.

Definition precedence (a b : SemVer) : comparison :=
or_else (major a ?= major b)%N
  (or_else (minor a ?= minor b)%N
     (or_else (patch a ?= patch b)%N
        (prereleases (prerelease a) (prerelease b)))).

(** The integer a three-way comparison function returns. *)
Definition sign (c : comparison) : Z :=
match c with
| Lt => -1
| Eq => 0
| Gt => 1
end.

End Precedence.

(** [compare_semver] on two version strings that parse. *)
Definition compare_versions (s1 s2 : string) : option Z :=
  a ← SemVer_parse s1; b ← SemVer_parse s2; Some (compare_semver a b).

(** ** Definitions the statements and proofs use *)

Class CmpOrder {A} (cmp : A → A → comparison) := {
  cmp_refl x : cmp x x = Eq;
  cmp_antisym x y : cmp y x = CompOpp (cmp x y);
  cmp_eq_cong x y z : cmp x y = Eq → cmp x z = cmp y z;
  cmp_lt_trans x y z : cmp x y = Lt → cmp y z = Lt → cmp x z = Lt
}.

(** The index dictionary of [get_prod_versions]. *)
Definition index_of (order : list string) : gmap string Z :=
  dict_of (map (λ '(i, ver), (ver, i)) (enumerate order)).

(** What the first loop of [get_prod_versions] makes of one element. *)
Definition normalize_entry (v : RawEntry) : Entry :=
  mkEntry (str_get (raw_version v)) (tag_str_of (raw_tag v))
          (upper (str_get (raw_release_status v))).

(** The release status, compared case-insensitively, is one of the two. *)
Definition raw_eligible (v : RawEntry) : bool :=
  is_eligible_status (upper (str_get (raw_release_status v))).

(** [SemVer.parse] accepts the version string of the entry. *)
Definition parsable (e : Entry) : bool :=
  match SemVer_parse (version e) with Some _ => true | None => false end.

Definition has_version (ver : string) (e : Entry) : bool :=
  (version e =? ver)%string.

(** The pairs [sort_versions_by_semver_desc] collects before it sorts. *)
Fixpoint parsed_pairs (vs : list string) : list (SemVer * string) :=
  match vs with
  | [] => []
  | v :: vs' =>
      match SemVer_parse v with
      | Some sv => (sv, v) :: parsed_pairs vs'
      | None => parsed_pairs vs'
      end
  end.

(** [rankEligible] as the specification words it: drop the entries whose
    status is not eligible and those whose version string does not parse, and
    sort the rest by the comparator, descending and stably. *)
Definition rankEligible (resp : Response) : list Entry :=
  let eligible :=
    map normalize_entry
      (List.filter raw_eligible (default [] (resp_versions resp))) in
  let parsed :=
    flat_map (λ e, match SemVer_parse (version e) with
                   | Some sv => [(sv, e)]
                   | None => []
                   end) eligible in
  map snd
    (sort (λ x y, match Precedence.precedence (fst y) (fst x) with
                  | Lt => true
                  | _ => false
                  end) parsed).

Definition raw (ver tag_ status : string) : RawEntry :=
  mkRaw (Value ver) (Value tag_) (Value status).

(** An entry that is neither of the excluded version nor quarantined. *)
Definition survives (exclude_version : string) (e : Entry) : bool :=
  negb (version e =? exclude_version)%string
  && negb (tag e =? QUARANTINE_TAG)%string.

Definition survivors (l : list Entry) (exclude_version : string) : list Entry :=
  List.filter (survives exclude_version) l.

(** A version string that is not the excluded one and that some surviving
    entry carries. *)
Definition surviving_version (l : list Entry) (exclude_version ver : string)
  : bool :=
  negb (ver =? exclude_version)%string
  && existsb (has_version ver) (survivors l exclude_version).

(** The version string [pick_next_latest] settles on: that of the first
    entry of the list whose version string is not the excluded one and is
    carried by some surviving entry.  The entry that brings the version
    string to the front need not survive itself: the second loop of
    [pick_next_latest] passes over the entries of the excluded version only,
    and asks of the others whether [dup] has their version string. *)
Definition leading_version (l : list Entry) (exclude_version : string)
  : option string :=
  version <$> List.find (λ e, surviving_version l exclude_version (version e)) l.

Definition is_trusted (e : Entry) : bool := (release_status e =? TRUSTED)%string.

(** What [pick_next_latest] returns, without its dictionaries: of the
    surviving entries of [leading_version], a TRUSTED_RELEASE one if there is
    one, else the first. *)
Definition pick_of_leading_version (l : list Entry) (exclude_version : string)
  : option Entry :=
  match leading_version l exclude_version with
  | None => None
  | Some ver =>
      let cands := List.filter (has_version ver) (survivors l exclude_version) in
      match List.find is_trusted cands with
      | Some t => Some t
      | None => head cands
      end
  end.

(** [pickSuccessor] as the specification words it: scanning in ranked order,
    skip the entries of the excluded version and those tagged "quarantine";
    no successor if nothing remains; else take the first version string among
    the remaining entries and, of the remaining entries that share it, one
    with status TRUSTED_RELEASE if there is one, else the first. *)
Definition pickSuccessor (rankedEntries : list Entry) (excludeVersion : string)
  : option Entry :=
  let remaining := survivors rankedEntries excludeVersion in
  match remaining with
  | [] => None
  | first :: _ =>
      let cands := List.filter (has_version (version first)) remaining in
      match List.find is_trusted cands with
      | Some t => Some t
      | None => head cands
      end
  end.

(** A response in which the version string "nightly" comes first with a
    quarantined entry and again, behind "edge", with one that is not. *)
Definition nightly_twice : Response :=
  mkResponse (Some [ raw "2.0.0" "latest" "RELEASED";
                     raw "nightly" "quarantine" "RELEASED";
                     raw "edge" "" "RELEASED";
                     raw "nightly" "" "RELEASED" ]).

(** What the list call answers, what [get_prod_versions] makes of it, and the
    entry [by_version] has for the target. *)
Definition listing (rm : Remote) : Response :=
  mkResponse (Some (map shown (held rm))).

Definition ranked (rm : Remote) : list Entry := rank_prod_versions (listing rm).

Definition resolve (rm : Remote) (target_version : string) : option Entry :=
  dict_of (map (λ v, (version v, v)) (ranked rm)) !! target_version.

(** The two tag-patches as [backup_tag_then_patch] sends them. *)
Definition quarantine_patch (app_key target_version : string) (target : Entry)
  : request :=
  PatchVersion app_key target_version (Some QUARANTINE_TAG)
    (Some {[ BACKUP_BEFORE_QUARANTINE := [tag target] ]}) None.

Definition latest_patch (app_key : string) (cand : Entry) : request :=
  PatchVersion app_key (version cand) (Some LATEST_TAG)
    (Some {[ BACKUP_BEFORE_LATEST := [tag cand] ]}) None.

(** The run that mutates, unfolded along its branches. *)
Definition real_run (rm : Remote) (app_key target_version : string)
  : (exn + unit) * State :=
  let L := ListVersions app_key 1000 in
  let R := RollbackVersion app_key target_version "PROD" in
  let calling := CallingRollback app_key target_version "PROD" in
  let invoked := InvokedRollback app_key target_version "PROD" in
  if fails rm L then (inl (TransportError L), mkState rm [L] [])
  else
    match resolve rm target_version with
    | None => (inl (TargetNotFound target_version), mkState rm [L] [])
    | Some target =>
        if fails rm R then
          (inl (RollbackCallFailed (TransportError R)),
           mkState rm [L; R] [calling])
        else
          let rm1 := effect R rm in
          let P1 := quarantine_patch app_key target_version target in
          if fails rm P1 then
            (inl (TransportError P1), mkState rm1 [L; R; P1] [calling; invoked])
          else
            let rm2 := effect P1 rm1 in
            if (tag target =? LATEST_TAG)%string then
              match pick_next_latest (ranked rm) target_version with
              | None =>
                  (inr (), mkState rm2 [L; R; P1] [calling; invoked; NoSuccessor])
              | Some cand =>
                  let P2 := latest_patch app_key cand in
                  if fails rm P2 then
                    (inl (TransportError P2),
                     mkState rm2 [L; R; P1; P2] [calling; invoked])
                  else
                    (inr (),
                     mkState (effect P2 rm2) [L; R; P1; P2]
                       [calling; invoked; ReassignedLatest (version cand)])
              end
            else
              (inr (), mkState rm2 [L; R; P1] [calling; invoked; LatestUnchanged])
    end.

(** The dry run, unfolded along its branches. *)
Definition dry_run (rm : Remote) (app_key target_version : string)
  : (exn + unit) * State :=
  let L := ListVersions app_key 1000 in
  if fails rm L then (inl (TransportError L), mkState rm [L] [])
  else
    match resolve rm target_version with
    | None => (inl (TargetNotFound target_version), mkState rm [L] [])
    | Some target =>
        let said :=
          [ DryRunRollback app_key target_version "PROD";
            DryRunPatch app_key target_version
              {[ BACKUP_BEFORE_QUARANTINE := [tag target] ]} QUARANTINE_TAG ] in
        if (tag target =? LATEST_TAG)%string then
          match pick_next_latest (ranked rm) target_version with
          | None => (inr (), mkState rm [L] (said ++ [NoSuccessor]))
          | Some cand =>
              (inr (),
               mkState rm [L]
                 (said ++ [ DryRunPatch app_key (version cand)
                              {[ BACKUP_BEFORE_LATEST := [tag cand] ]} LATEST_TAG;
                            ReassignedLatest (version cand) ]))
          end
        else (inr (), mkState rm [L] (said ++ [LatestUnchanged]))
    end.

(** The call a line of the dry run describes. *)
Definition described (m : message) : option request :=
  match m with
  | DryRunRollback app_key target_version from_stage =>
      Some (RollbackVersion app_key target_version from_stage)
  | DryRunPatch app_key ver props new_tag =>
      Some (PatchVersion app_key ver (Some new_tag) (Some props) None)
  | _ => None
  end.

(** A registry on which the stage rollback fails and every other call
    succeeds. *)
Definition fails_rollback (r : request) : bool :=
  match r with
  | RollbackVersion _ _ _ => true
  | _ => false
  end.

(** A registry that holds the target 2.0.0 twice, under different tags. *)
Definition duplicated : list Held :=
  [ mkHeld (mkRaw (Value "2.0.0") (Value "latest") (Value "RELEASED")) ∅;
    mkHeld (mkRaw (Value "2.0.0") (Value "stable") (Value "RELEASED")) ∅;
    mkHeld (mkRaw (Value "1.5.0") (Value "") (Value "RELEASED")) ∅ ].

(** A registry with two eligible entries whose version strings do not
    parse. *)
Definition with_nightly : list Held :=
  [ mkHeld (mkRaw (Value "nightly") (Value "latest") (Value "released")) ∅;
    mkHeld (mkRaw (Value "1.0.0") (Value "") (Value "RELEASED")) ∅;
    mkHeld (mkRaw (Value "edge") Null (Value "TRUSTED_RELEASE")) ∅;
    mkHeld (mkRaw (Value "1.1.0") (Value "") (Value "RELEASED")) ∅ ].





(** ** Regular expressions, as far as [SEMVER_RE] uses them *)

Inductive regex :=
| Eps
| Chr (p : ascii → bool)
| Seq (r1 r2 : regex)
| Alt (r1 r2 : regex)
| Star (r : regex)
| Grp (name : string) (r : regex).

(** [matches r s caps]: the whole of [s] matches [r], the named groups that
    took part capturing [caps]. *)
Inductive matches : regex → string → list (string * string) → Prop :=
| m_eps : matches Eps "" []
| m_chr p c : p c = true → matches (Chr p) (String c "") []
| m_seq r1 r2 s1 s2 c1 c2 :
    matches r1 s1 c1 → matches r2 s2 c2 →
    matches (Seq r1 r2) (s1 +:+ s2) (c1 ++ c2)
| m_alt_l r1 r2 s c : matches r1 s c → matches (Alt r1 r2) s c
| m_alt_r r1 r2 s c : matches r2 s c → matches (Alt r1 r2) s c
| m_star_nil r : matches (Star r) "" []
| m_star_cons r s1 s2 c1 c2 :
    matches r s1 c1 → matches (Star r) s2 c2 →
    matches (Star r) (s1 +:+ s2) (c1 ++ c2)
| m_grp name r s c : matches r s c → matches (Grp name r) s ((name, s) :: c).

Definition lit (n : N) : regex := Chr (λ c, (code c =? n)%N).
Definition opt (r : regex) : regex := Alt r Eps.

(** [0|[1-9]\d*] *)
Definition NUMERIC : regex :=
  Alt (lit 48) (Seq (Chr is_nonzero_decimal) (Star (Chr is_decimal))).

(** [0|[1-9]\d*|[a-zA-Z-][0-9a-zA-Z-]*] *)
Definition IDENTIFIER : regex :=
  Alt (lit 48)
    (Alt (Seq (Chr is_nonzero_decimal) (Star (Chr is_decimal)))
         (Seq (Chr is_letter_or_hyphen) (Star (Chr is_ident_char)))).

(** [[0-9a-zA-Z-]+] *)
Definition SEGMENT : regex := Seq (Chr is_ident_char) (Star (Chr is_ident_char)).

(** [ITEM(?:\.ITEM)*] *)
Definition dotted (item : regex) : regex :=
  Seq item (Star (Seq (Chr is_dot) item)).

Definition SEMVER_RE : regex :=
  Seq (Star (Chr is_space))
 (Seq (opt (lit 118))
 (Seq (Grp "major" NUMERIC)
 (Seq (Chr is_dot)
 (Seq (Grp "minor" NUMERIC)
 (Seq (Chr is_dot)
 (Seq (Grp "patch" NUMERIC)
 (Seq (opt (Seq (lit 45) (Grp "prerelease" (dotted IDENTIFIER))))
 (Seq (opt (Seq (lit 43) (Grp "build" (dotted SEGMENT))))
      (Star (Chr is_space)))))))))).

Definition capture (name : string) (o : option string)
  : list (string * string) :=
  match o with
  | Some s => [(name, s)]
  | None => []
  end.

(** The captures that make up a [groups]. *)
Definition captures (g : groups) : list (string * string) :=
  [("major", g_major g); ("minor", g_minor g); ("patch", g_patch g)]
  ++ capture "prerelease" (g_prerelease g) ++ capture "build" (g_build g).

(** [s] is empty or starts outside the class [p]. *)
Definition starts_outside (p : ascii → bool) (s : string) : bool :=
  match s with
  | EmptyString => true
  | String c _ => negb (p c)
  end.

Definition class_or_dot (c : ascii) : bool := is_ident_char c || is_dot c.

(** The pieces after the first of a dotted sequence, each behind its dot. *)
Fixpoint tail_dots (t : list string) : string :=
  match t with
  | [] => ""
  | x :: t' => String "." (x +:+ tail_dots t')
  end.

(** ** Definitions the statements about the rest of the script use *)

(** [SEMVER_RE.match] behind the leading white space and the optional [v]. *)
Definition scan_core (s : string) : option groups :=
  '(major, s) ← scan_numeric s;
  s ← expect is_dot s;
  '(minor, s) ← scan_numeric s;
  s ← expect is_dot s;
  '(patch, s) ← scan_numeric s;
  '(pre, s) ← scan_optional 45 identifier_shape s;
  '(build, s) ← scan_optional 43 build_segment_shape s;
  if str_all is_space s then Some (Groups major minor patch pre build) else None.

Definition strip_v (s : string) : string :=
  match s with
  | String c r => if (code c =? 118)%N then r else s
  | EmptyString => s
  end.

(** A parsed version under another original string. *)
Definition with_original (s : string) (v : SemVer) : SemVer :=
  mkSemVer (major v) (minor v) (patch v) (prerelease v) s.

(** The pieces of a dotted sequence, joined by dots. *)
Definition dotted_join (l : list string) : string :=
  match l with
  | [] => ""
  | x :: t => x +:+ tail_dots t
  end.

(** The optional part of a version string that [intro] introduces: absent
    for no pieces. *)
Definition optional_part (intro : string) (l : list string) : string :=
  match l with
  | [] => ""
  | _ => intro +:+ dotted_join l
  end.

Definition optional_group (l : list string) : option string :=
  match l with
  | [] => None
  | _ => Some (dotted_join l)
  end.

(** [MAJOR.MINOR.PATCH[-PRERELEASE][+BUILD]] from its pieces. *)
Definition version_core (ma mi pa : string) (pre build : list string) : string :=
  ma +:+ "." +:+ mi +:+ "." +:+ pa
  +:+ optional_part "-" pre +:+ optional_part "+" build.





(** The version strings that parse, in their order. *)
Definition parsable_version (v : string) : bool :=
  match SemVer_parse v with Some _ => true | None => false end.

(** The version strings of the precedence of [sv]. *)
Definition ties_with (sv : SemVer) (v : string) : bool :=
  match SemVer_parse v with
  | Some a => (compare_semver a sv =? 0)%Z
  | None => false
  end.

(** Pairs of a parsed version and the string it was parsed from. *)
Definition consistent (ps : list (SemVer * string)) : Prop :=
  ∀ sv v, In (sv, v) ps → SemVer_parse v = Some sv.

(** An entry with the version it parses to; a version of no account where
    it does not parse. *)
Definition with_parsed (e : Entry) : SemVer * Entry :=
  (default (mkSemVer 0 0 0 [] "") (SemVer_parse (version e)), e).

(** The application a call addresses, and the version a mutating call
    addresses. *)
Definition request_app_key (r : request) : string :=
  match r with
  | ListVersions a _ | PatchVersion a _ _ _ _ | RollbackVersion a _ _ => a
  end.

Definition request_version (r : request) : option string :=
  match r with
  | ListVersions _ _ => None
  | PatchVersion _ v _ _ _ | RollbackVersion _ v _ => Some v
  end.

(** The exception a run ends in when the call [r] fails: only the failure of
    the stage rollback is wrapped. *)
Definition raised_for (r : request) : exn :=
  match r with
  | RollbackVersion _ _ _ => RollbackCallFailed (TransportError r)
  | _ => TransportError r
  end.

(** The calls a run that is not dry is out to issue, in their order. *)
Definition intended (rm : Remote) (app_key target_version : string)
  : list request :=
  ListVersions app_key 1000
  :: match resolve rm target_version with
     | None => []
     | Some target =>
         RollbackVersion app_key target_version "PROD"
         :: quarantine_patch app_key target_version target
         :: (if (tag target =? LATEST_TAG)%string then
               match pick_next_latest (ranked rm) target_version with
               | Some cand => [latest_patch app_key cand]
               | None => []
               end
             else [])
     end.

(** A list of calls up to the first that fails, that one included. *)
Fixpoint until_failure (fails : request → bool) (l : list request)
  : list request :=
  match l with
  | [] => []
  | r :: l' => r :: (if fails r then [] else until_failure fails l')
  end.

Fixpoint last_char (s : string) : option ascii :=
  match s with
  | EmptyString => None
  | String c EmptyString => Some c
  | String _ r => last_char r
  end.

(** [s] is empty or ends outside the class [p]. *)
Definition ends_outside (p : ascii → bool) (s : string) : bool :=
  match last_char s with
  | None => true
  | Some c => negb (p c)
  end.

(** What [quote] undoes: the first character of the quoted string back, and
    the rest. *)
Definition hex_value (c : ascii) : option N :=
  if is_decimal c then Some (code c - 48)%N
  else if in_range 65 70 c then Some (code c - 55)%N
  else None.

Definition unquote_byte (s : string) : option (N * string) :=
  match s with
  | String p (String h (String l r)) =>
      if (code p =? 37)%N then
        hi ← hex_value h; lo ← hex_value l; Some (16 * hi + lo, r)%N
      else None
  | _ => None
  end.

Definition unquote_char (s : string) : option (ascii * string) :=
  match s with
  | EmptyString => None
  | String c r =>
      if is_safe c then Some (c, r)
      else
        '(b, r1) ← unquote_byte s;
        if (b <? 128)%N then Some (ascii_of_N b, r1)
        else
          '(b2, r2) ← unquote_byte r1;
          Some (ascii_of_N (64 * (b - 192) + (b2 - 128)), r2)
  end.

(** The characters a quoted string is made of. *)
Definition is_quoted_char (c : ascii) : bool :=
  is_safe c || (code c =? 37)%N.

Definition slash_free (s : string) : bool := str_all (λ c, negb (is_slash c)) s.

(** An option given empty, taken for an option not given. *)
Definition given (x : option string) : option string :=
  if truthy x then x else None.

(** * Properties *)

(** ** The embedding at work *)

Example parse_plain :
  SemVer_parse "1.2.3" = Some (mkSemVer 1 2 3 [] "1.2.3").
Proof. reflexivity. Qed.

Example parse_full :
  SemVer_parse " v10.0.7-alpha.1.x-y+b.7 "
  = Some (mkSemVer 10 0 7 ["alpha"; "1"; "x-y"] " v10.0.7-alpha.1.x-y+b.7 ").
Proof. reflexivity. Qed.

Example parse_rejects :
  map SemVer_parse ["01.0.0"; "1.0"; "1.0.0-"; "1.0.0-01"; "1.0.0-1a";
                    "1.0.0-a..b"; "1.0.0+"; "1.0.0 x"; "latest"; ""]
  = [None; None; None; None; None; None; None; None; None; None].
Proof. reflexivity. Qed.

Example scenario_calls :
  calls (snd (run (mkRemote scenario never_fails id) "app" "2.0.0" false))
  = [ ListVersions "app" 1000;
      RollbackVersion "app" "2.0.0" "PROD";
      PatchVersion "app" "2.0.0" (Some "quarantine")
        (Some {[ "original_tag_before_quarantine" := ["latest"] ]}) None;
      PatchVersion "app" "1.5.0" (Some "latest")
        (Some {[ "original_tag_before_latest" := [""] ]}) None ].
Proof. vm_compute. reflexivity. Qed.

(** ** Three-way comparisons that order their carrier *)

Section CmpOrderFacts.
Context {A} (cmp : A → A → comparison) `{!CmpOrder cmp}.

Lemma cmp_eq_sym x y : cmp x y = Eq → cmp y x = Eq.
Proof. intros H. rewrite cmp_antisym, H. reflexivity. Qed.

Lemma cmp_eq_cong_r x y z : cmp y z = Eq → cmp x y = cmp x z.
Proof.
intros H. rewrite (cmp_antisym y x), (cmp_antisym z x).
f_equal. apply cmp_eq_cong. exact H.
Qed.

Lemma cmp_gt_trans x y z : cmp x y = Gt → cmp y z = Gt → cmp x z = Gt.
Proof.
intros H1 H2.
assert (cmp z x = Lt) as H.
{ apply cmp_lt_trans with y.
  - rewrite cmp_antisym, H2. reflexivity.
  - rewrite cmp_antisym, H1. reflexivity. }
rewrite cmp_antisym, H. reflexivity.
Qed.

(** What is not below [y] is not below anything [y] is not below. *)
Lemma cmp_ge_trans x y z : cmp x y ≠ Lt → cmp y z ≠ Lt → cmp x z ≠ Lt.
Proof.
intros H1 H2 H3.
destruct (cmp x y) eqn:Hxy; [| congruence |].
- rewrite (cmp_eq_cong _ _ _ Hxy) in H3. congruence.
- destruct (cmp y z) eqn:Hyz; [| congruence |].
  + rewrite <- (cmp_eq_cong_r x _ _ Hyz) in H3. congruence.
  + rewrite (cmp_gt_trans _ _ _ Hxy Hyz) in H3. discriminate.
Qed.
End CmpOrderFacts.

Global Instance N_compare_order : CmpOrder N.compare.
Proof.
  split.
  - apply N.compare_refl.
  - intros x y. apply N.compare_antisym.
  - intros x y z H. apply N.compare_eq in H. subst. reflexivity.
  - intros x y z. rewrite !N.compare_lt_iff. lia.
Qed.

(** The pull-back of an order along a projection. *)
Lemma cmp_on_order {A B} (f : A → B) (cmp : B → B → comparison) :
  CmpOrder cmp → CmpOrder (λ x y, cmp (f x) (f y)).
Proof.
  intros H. split; intros.
  - apply cmp_refl.
  - apply cmp_antisym.
  - apply (cmp_eq_cong (cmp:=cmp)). assumption.
  - eapply (cmp_lt_trans (cmp:=cmp)); eassumption.
Qed.

(** One order, and where it ties another. *)
Lemma or_else_order {A} (c1 c2 : A → A → comparison) :
  CmpOrder c1 → CmpOrder c2 →
  CmpOrder (λ x y, Precedence.or_else (c1 x y) (c2 x y)).
Proof.
  intros H1 H2. split.
  - intros x. rewrite (cmp_refl (cmp:=c1)). simpl. apply cmp_refl.
  - intros x y. rewrite (cmp_antisym (cmp:=c1) x y).
    destruct (c1 x y); simpl; try reflexivity. apply cmp_antisym.
  - intros x y z H.
    destruct (c1 x y) eqn:E1; simpl in H; try discriminate.
    rewrite (cmp_eq_cong (cmp:=c1) _ _ z E1).
    destruct (c1 y z); simpl; try reflexivity.
    apply (cmp_eq_cong (cmp:=c2)). exact H.
  - intros x y z Hxy Hyz.
    destruct (c1 x y) eqn:E1; simpl in Hxy; try discriminate.
    + rewrite (cmp_eq_cong (cmp:=c1) _ _ z E1).
      destruct (c1 y z) eqn:E2; simpl in *; try discriminate; try reflexivity.
      eapply (cmp_lt_trans (cmp:=c2)); eassumption.
    + destruct (c1 y z) eqn:E2; simpl in Hyz; try discriminate.
      * rewrite <- (cmp_eq_cong_r c1 x _ _ E2), E1. reflexivity.
      * rewrite (cmp_lt_trans (cmp:=c1) _ _ _ E1 E2). reflexivity.
Qed.

Global Instance ascii_compare_order : CmpOrder Ascii.compare.
Proof. unfold Ascii.compare. apply (cmp_on_order N_of_ascii N.compare). apply _. Qed.

Global Instance string_compare_order : CmpOrder String.compare.
Proof.
  split.
  - induction x as [|c x IH]; simpl; [reflexivity|].
    rewrite (cmp_refl (cmp:=Ascii.compare)). exact IH.
  - intros x y. apply String.compare_antisym.
  - intros x y z H. apply String.compare_eq_iff in H. subst. reflexivity.
  - induction x as [|a x IH]; intros [|b y] [|c z]; simpl;
      try discriminate; try reflexivity.
    destruct (Ascii.compare a b) eqn:Eab; try discriminate.
    + apply Ascii.compare_eq_iff in Eab. subst b.
      destruct (Ascii.compare a c); try discriminate; try reflexivity.
      apply IH.
    + intros _.
      destruct (Ascii.compare b c) eqn:Ebc; try discriminate.
      * apply Ascii.compare_eq_iff in Ebc. subst c. rewrite Eab. reflexivity.
      * intros _. rewrite (cmp_lt_trans (cmp:=Ascii.compare) _ _ _ Eab Ebc).
        reflexivity.
Qed.

Global Instance identifiers_order : CmpOrder Precedence.identifiers.
Proof.
  unfold Precedence.identifiers. split.
  - intros x. destruct (isdigit x); apply cmp_refl.
  - intros x y. destruct (isdigit x), (isdigit y); try reflexivity;
      apply cmp_antisym.
  - intros x y z. destruct (isdigit x), (isdigit y), (isdigit z);
      try discriminate; try reflexivity;
      apply (cmp_eq_cong (cmp:=N.compare) (int x) (int y) (int z)) ||
      apply (cmp_eq_cong (cmp:=String.compare)).
  - intros x y z. destruct (isdigit x), (isdigit y), (isdigit z);
      try discriminate; try reflexivity;
      apply (cmp_lt_trans (cmp:=N.compare) (int x) (int y) (int z)) ||
      apply (cmp_lt_trans (cmp:=String.compare)).
Qed.

Global Instance sequences_order : CmpOrder Precedence.sequences.
Proof.
  split.
  - induction x as [|a x IH]; simpl; [reflexivity|].
    rewrite (cmp_refl (cmp:=Precedence.identifiers)). exact IH.
  - induction x as [|a x IH]; intros [|b y]; simpl; try reflexivity.
    rewrite (cmp_antisym (cmp:=Precedence.identifiers) a b).
    destruct (Precedence.identifiers a b); simpl; try reflexivity. apply IH.
  - induction x as [|a x IH]; intros [|b y] [|c z]; simpl;
      try discriminate; try reflexivity.
    destruct (Precedence.identifiers a b) eqn:Eab; simpl; try discriminate.
    intros H. rewrite (cmp_eq_cong (cmp:=Precedence.identifiers) _ _ c Eab).
    destruct (Precedence.identifiers b c); simpl; try reflexivity.
    apply IH. exact H.
  - induction x as [|a x IH]; intros [|b y] [|c z]; simpl;
      try discriminate; try reflexivity.
    destruct (Precedence.identifiers a b) eqn:Eab; simpl; try discriminate.
    + rewrite (cmp_eq_cong (cmp:=Precedence.identifiers) _ _ c Eab).
      destruct (Precedence.identifiers b c); simpl;
        try discriminate; try reflexivity.
      apply IH.
    + intros _.
      destruct (Precedence.identifiers b c) eqn:Ebc; simpl; try discriminate.
      * rewrite <- (cmp_eq_cong_r Precedence.identifiers a _ _ Ebc), Eab.
        reflexivity.
      * intros _.
        rewrite (cmp_lt_trans (cmp:=Precedence.identifiers) _ _ _ Eab Ebc).
        reflexivity.
Qed.

Global Instance prereleases_order : CmpOrder Precedence.prereleases.
Proof.
  split.
  - intros [|a x]; [reflexivity|]. apply (cmp_refl (cmp:=Precedence.sequences)).
  - intros [|a x] [|b y]; try reflexivity.
    apply (cmp_antisym (cmp:=Precedence.sequences)).
  - intros [|a x] [|b y] [|c z]; try discriminate; try reflexivity.
    apply (cmp_eq_cong (cmp:=Precedence.sequences)).
  - intros [|a x] [|b y] [|c z]; try discriminate; try reflexivity.
    apply (cmp_lt_trans (cmp:=Precedence.sequences)).
Qed.

Global Instance precedence_order : CmpOrder Precedence.precedence.
Proof.
  unfold Precedence.precedence.
  apply (or_else_order (λ a b, (major a ?= major b)%N)
           (λ a b, Precedence.or_else (minor a ?= minor b)%N
                     (Precedence.or_else (patch a ?= patch b)%N
                        (Precedence.prereleases (prerelease a) (prerelease b)))));
    [apply (cmp_on_order major N.compare), _ |].
  apply (or_else_order (λ a b, (minor a ?= minor b)%N)
           (λ a b, Precedence.or_else (patch a ?= patch b)%N
                     (Precedence.prereleases (prerelease a) (prerelease b))));
    [apply (cmp_on_order minor N.compare), _ |].
  apply (or_else_order (λ a b, (patch a ?= patch b)%N)
           (λ a b, Precedence.prereleases (prerelease a) (prerelease b)));
    [apply (cmp_on_order patch N.compare), _ |].
  apply (cmp_on_order prerelease Precedence.prereleases), _.
Qed.

(** The loop and the length test after it, against rules 3 and 4. *)
Lemma compare_prerelease_sequences ap bp :
  match compare_prerelease ap bp with
  | Some r => r
  | None =>
      if negb (List.length ap =? List.length bp)%nat
      then (if (List.length ap <? List.length bp)%nat then -1 else 1)%Z
      else 0%Z
  end = Precedence.sign (Precedence.sequences ap bp).
Proof.
  revert bp. induction ap as [|x ap IH]; intros [|y bp]; try reflexivity.
  cbn [compare_prerelease Precedence.sequences].
  destruct (String.eqb_spec x y) as [->|Hne].
  { rewrite (cmp_refl (cmp:=Precedence.identifiers)). simpl. apply IH. }
  unfold Precedence.identifiers.
  destruct (isdigit x), (isdigit y); simpl.
  - destruct (N.eqb_spec (int x) (int y)) as [E|E]; simpl.
    + rewrite E, N.compare_refl. simpl. apply IH.
    + destruct (N.ltb_spec (int x) (int y)) as [L|L].
      * apply N.compare_lt_iff in L. rewrite L. reflexivity.
      * assert ((int x ?= int y)%N = Gt) as G by (apply N.compare_gt_iff; lia).
        rewrite G. reflexivity.
  - reflexivity.
  - reflexivity.
  - unfold str_lt, String.ltb.
    destruct (String.compare x y) eqn:E; try reflexivity.
    apply String.compare_eq_iff in E. contradiction.
Qed.

Lemma compare_semver_precedence a b :
  compare_semver a b = Precedence.sign (Precedence.precedence a b).
Proof.
  unfold compare_semver, Precedence.precedence.
  destruct (N.eqb_spec (major a) (major b)) as [E1|E1]; simpl.
  2:{ destruct (N.ltb_spec (major a) (major b)) as [L|L].
      - apply N.compare_lt_iff in L. rewrite L. reflexivity.
      - assert ((major a ?= major b)%N = Gt) as G by (apply N.compare_gt_iff; lia).
        rewrite G. reflexivity. }
  rewrite E1, N.compare_refl. simpl.
  destruct (N.eqb_spec (minor a) (minor b)) as [E2|E2]; simpl.
  2:{ destruct (N.ltb_spec (minor a) (minor b)) as [L|L].
      - apply N.compare_lt_iff in L. rewrite L. reflexivity.
      - assert ((minor a ?= minor b)%N = Gt) as G by (apply N.compare_gt_iff; lia).
        rewrite G. reflexivity. }
  rewrite E2, N.compare_refl. simpl.
  destruct (N.eqb_spec (patch a) (patch b)) as [E3|E3]; simpl.
  2:{ destruct (N.ltb_spec (patch a) (patch b)) as [L|L].
      - apply N.compare_lt_iff in L. rewrite L. reflexivity.
      - assert ((patch a ?= patch b)%N = Gt) as G by (apply N.compare_gt_iff; lia).
        rewrite G. reflexivity. }
  rewrite E3, N.compare_refl. simpl.
  destruct (prerelease a) as [|x ap], (prerelease b) as [|y bp];
    try reflexivity.
  cbn [is_nil negb andb Precedence.prereleases].
  apply compare_prerelease_sequences.
Qed.

(** ** Decimal numerals *)

Lemma in_range_spec lo hi c :
  in_range lo hi c = true ↔ (lo ≤ code c ∧ code c ≤ hi)%N.
Proof.
  unfold in_range. rewrite andb_true_iff, !N.leb_le. reflexivity.
Qed.

Lemma code_inj c d : code c = code d → c = d.
Proof.
  unfold code. intros H.
  rewrite <- (ascii_N_embedding c), <- (ascii_N_embedding d), H. reflexivity.
Qed.

Lemma digit_value_bound c : is_decimal c = true → (digit_value c ≤ 9)%N.
Proof.
  unfold is_decimal, digit_value. rewrite in_range_spec. lia.
Qed.

Lemma digit_value_inj c d :
  is_decimal c = true → is_decimal d = true →
  digit_value c = digit_value d → c = d.
Proof.
  unfold is_decimal, digit_value. rewrite !in_range_spec.
  intros Hc Hd H. apply code_inj. lia.
Qed.

Lemma int_acc_bounds s :
  str_all is_decimal s = true →
  ∀ a, (a * 10 ^ N.of_nat (String.length s) ≤ int_acc a s
        ∧ int_acc a s < (a + 1) * 10 ^ N.of_nat (String.length s))%N.
Proof.
  induction s as [|c s IH]; simpl str_all; simpl int_acc.
  - intros _ a. simpl. lia.
  - rewrite andb_true_iff. intros [Hc Hs] a.
    specialize (IH Hs (10 * a + digit_value c)%N).
    apply digit_value_bound in Hc.
    replace (N.of_nat (String.length (String c s)))
      with (N.succ (N.of_nat (String.length s))) by (simpl; lia).
    rewrite N.pow_succ_r'.
    set (P := (10 ^ N.of_nat (String.length s))%N) in *.
    nia.
Qed.

Lemma int_acc_inj x :
  ∀ y a b,
    str_all is_decimal x = true → str_all is_decimal y = true →
    String.length x = String.length y →
    int_acc a x = int_acc b y → a = b ∧ x = y.
Proof.
  induction x as [|c x IH]; intros [|d y] a b; simpl; try discriminate.
  - intros _ _ _ H. split; [exact H | reflexivity].
  - rewrite !andb_true_iff. intros [Hc Hx] [Hd Hy] Hlen H.
    destruct (IH y _ _ Hx Hy ltac:(lia) H) as [Hab ->].
    pose proof (digit_value_bound _ Hc). pose proof (digit_value_bound _ Hd).
    assert (digit_value c = digit_value d) by lia.
    assert (c = d) by (apply digit_value_inj; assumption).
    split; [lia | congruence].
Qed.

Lemma numeric_shape_decimal s :
  numeric_shape s = true → str_all is_decimal s = true ∧ s ≠ "".
Proof.
  destruct s as [|c [|d s]]; cbn [numeric_shape]; try discriminate.
  - intros H. simpl. rewrite H. split; [reflexivity | discriminate].
  - rewrite andb_true_iff. intros [_ H]. split; [exact H | discriminate].
Qed.

(** A numeral of more than one digit starts with a digit other than 0. *)
Lemma numeric_shape_lower s :
  numeric_shape s = true →
  String.length s = 1%nat
  ∨ (10 ^ N.of_nat (String.length s - 1) ≤ int s)%N.
Proof.
  destruct s as [|c [|d s]]; cbn [numeric_shape]; try discriminate.
  - intros _. left. reflexivity.
  - rewrite andb_true_iff. intros [Hc Hs]. right.
    change (str_all is_decimal (String c (String d s)))
      with (is_decimal c && str_all is_decimal (String d s)) in Hs.
    rewrite andb_true_iff in Hs. destruct Hs as [_ Hs].
    destruct (int_acc_bounds _ Hs (10 * 0 + digit_value c)%N) as [Hlo _].
    replace (String.length (String c (String d s)) - 1)%nat
      with (String.length (String d s)) by (simpl; lia).
    unfold is_nonzero_decimal in Hc. rewrite in_range_spec in Hc.
    unfold digit_value in *.
    change (int (String c (String d s)))
      with (int_acc (10 * 0 + (code c - 48)) (String d s))%N.
    set (P := (10 ^ N.of_nat (String.length (String d s)))%N) in *.
    nia.
Qed.

Lemma numeric_shape_int_inj x y :
  numeric_shape x = true → numeric_shape y = true → int x = int y → x = y.
Proof.
  intros Hx Hy H.
  destruct (numeric_shape_decimal _ Hx) as [Dx Nx].
  destruct (numeric_shape_decimal _ Hy) as [Dy Ny].
  assert (String.length x = String.length y) as Hlen.
  { destruct (int_acc_bounds _ Dx 0%N) as [_ Ux].
    destruct (int_acc_bounds _ Dy 0%N) as [_ Uy].
    fold (int x) in Ux. fold (int y) in Uy.
    assert (∀ s t, numeric_shape s = true → numeric_shape t = true →
                   (int s < 1 * 10 ^ N.of_nat (String.length s))%N →
                   int s = int t →
                   ¬ (String.length s < String.length t)%nat) as Hno.
    { intros s t Hs Ht Us E L.
      destruct (numeric_shape_lower _ Ht) as [L1|Lo].
      - destruct s; [discriminate Hs | simpl in L; lia].
      - assert (10 ^ N.of_nat (String.length s)
                ≤ 10 ^ N.of_nat (String.length t - 1))%N
          by (apply N.pow_le_mono_r; lia).
        lia. }
    pose proof (Hno x y Hx Hy Ux H). pose proof (Hno y x Hy Hx Uy (eq_sym H)).
    lia. }
  apply (int_acc_inj x y 0%N 0%N Dx Dy Hlen H).
Qed.

Lemma identifier_shape_isdigit s :
  identifier_shape s = true → isdigit s = true → numeric_shape s = true.
Proof.
  unfold identifier_shape. rewrite orb_true_iff. intros [H|H]; [auto|].
  destruct s as [|c s]; [discriminate|].
  rewrite andb_true_iff in H. destruct H as [Hc _].
  simpl. rewrite andb_true_iff. intros [Hd _]. exfalso.
  unfold is_letter_or_hyphen, is_decimal in *.
  rewrite !orb_true_iff, !in_range_spec, N.eqb_eq in Hc.
  rewrite in_range_spec in Hd. lia.
Qed.

(** On identifiers of the grammar only equal ones tie. *)
Lemma identifiers_eq x y :
  identifier_shape x = true → identifier_shape y = true →
  Precedence.identifiers x y = Eq → x = y.
Proof.
  intros Hx Hy. unfold Precedence.identifiers.
  destruct (isdigit x) eqn:Dx, (isdigit y) eqn:Dy; try discriminate.
  - intros H. apply N.compare_eq in H.
    apply numeric_shape_int_inj; auto using identifier_shape_isdigit.
  - apply String.compare_eq_iff.
Qed.

Lemma sequences_eq xs :
  ∀ ys,
    Forall (λ x, identifier_shape x = true) xs →
    Forall (λ y, identifier_shape y = true) ys →
    Precedence.sequences xs ys = Eq → xs = ys.
Proof.
  induction xs as [|x xs IH]; intros [|y ys] Hx Hy; simpl;
    try discriminate; try reflexivity.
  inversion Hx; inversion Hy; subst.
  destruct (Precedence.identifiers x y) eqn:E; simpl; try discriminate.
  intros H. f_equal; [apply identifiers_eq; assumption | apply IH; assumption].
Qed.

Lemma prereleases_eq xs ys :
  Forall (λ x, identifier_shape x = true) xs →
  Forall (λ y, identifier_shape y = true) ys →
  Precedence.prereleases xs ys = Eq → xs = ys.
Proof.
  destruct xs, ys; simpl; try discriminate; try reflexivity.
  apply sequences_eq.
Qed.

(** ** What [SemVer.parse] returns *)

Lemma scan_optional_shape intro shape s raw r :
  scan_optional intro shape s = Some (Some raw, r) →
  forallb shape (split is_dot raw) = true.
Proof.
  unfold scan_optional, scan_dotted.
  destruct s as [|c s]; [discriminate|].
  destruct (code c =? intro)%N; [|discriminate].
  destruct (span _ s) as [raw' r'].
  destruct (forallb shape (split is_dot raw')) eqn:E; [|discriminate].
  intros [= <- <-]. exact E.
Qed.

Lemma SemVer_parse_prerelease s v :
  SemVer_parse s = Some v →
  Forall (λ x, identifier_shape x = true) (prerelease v).
Proof.
  unfold SemVer_parse, SEMVER_RE_match.
  set (s0 := match snd (span is_space s) with
             | String c r => if (code c =? 118)%N then r else snd (span is_space s)
             | EmptyString => snd (span is_space s)
             end).
  clearbody s0.
  destruct (scan_numeric s0) as [[ma s1]|]; simpl; [|discriminate].
  destruct (expect is_dot s1) as [s2|]; simpl; [|discriminate].
  destruct (scan_numeric s2) as [[mi s3]|]; simpl; [|discriminate].
  destruct (expect is_dot s3) as [s4|]; simpl; [|discriminate].
  destruct (scan_numeric s4) as [[pa s5]|]; simpl; [|discriminate].
  destruct (scan_optional 45 identifier_shape s5) as [[pre s6]|] eqn:Epre;
    simpl; [|discriminate].
  destruct (scan_optional 43 build_segment_shape s6) as [[build s7]|];
    simpl; [|discriminate].
  destruct (str_all is_space s7); [|discriminate].
  intros [= <-]. simpl.
  destruct pre as [raw|]; simpl; [|constructor].
  destruct (raw =? "")%string; [constructor|].
  apply scan_optional_shape in Epre.
  apply List.Forall_forall. intros x Hx.
  rewrite forallb_forall in Epre. apply Epre. exact Hx.
Qed.

Lemma SemVer_parse_original s v : SemVer_parse s = Some v → original v = s.
Proof.
  unfold SemVer_parse. destruct (SEMVER_RE_match s); [|discriminate].
  intros [= <-]. reflexivity.
Qed.

(** ** The comparator *)

Lemma sign_opp c : Precedence.sign (CompOpp c) = (- Precedence.sign c)%Z.
Proof. destruct c; reflexivity. Qed.

Lemma sign_lt c : (Precedence.sign c < 0)%Z ↔ c = Lt.
Proof. destruct c; simpl; split; intros; try lia; congruence. Qed.

Lemma sign_eq c : Precedence.sign c = 0%Z ↔ c = Eq.
Proof. destruct c; simpl; split; intros; try lia; congruence. Qed.

Lemma precedence_eq_fields a b :
  Forall (λ x, identifier_shape x = true) (prerelease a) →
  Forall (λ x, identifier_shape x = true) (prerelease b) →
  Precedence.precedence a b = Eq
  ↔ major a = major b ∧ minor a = minor b ∧ patch a = patch b
    ∧ prerelease a = prerelease b.
Proof.
  intros Ha Hb. unfold Precedence.precedence. split.
  - destruct (major a ?= major b)%N eqn:E1; simpl; try discriminate.
    destruct (minor a ?= minor b)%N eqn:E2; simpl; try discriminate.
    destruct (patch a ?= patch b)%N eqn:E3; simpl; try discriminate.
    intros H. apply N.compare_eq in E1, E2, E3.
    auto using prereleases_eq.
  - intros (-> & -> & -> & ->). rewrite !N.compare_refl. simpl.
    apply (cmp_refl (cmp:=Precedence.prereleases)).
Qed.

(** C4: on every pair of version strings that [SemVer.parse] accepts,
    [compare_semver] returns the sign of semantic-version precedence (rules 1
    to 5 of the comparator); and it puts 1.0.0 below 2.0.0, 1.0.0-alpha below
    1.0.0, 1.0.0-alpha below 1.0.0-alpha.1, 1.0.0-alpha.beta below 1.0.0-beta,
    and makes 1.0.0+a and 1.0.0+b equal. *)
Theorem compare_semver_agrees_with_precedence :
  (∀ s1 s2 a b,
      SemVer_parse s1 = Some a → SemVer_parse s2 = Some b →
      compare_versions s1 s2
      = Some (Precedence.sign (Precedence.precedence a b)))
  ∧ compare_versions "1.0.0" "2.0.0" = Some (-1)%Z
  ∧ compare_versions "1.0.0-alpha" "1.0.0" = Some (-1)%Z
  ∧ compare_versions "1.0.0-alpha" "1.0.0-alpha.1" = Some (-1)%Z
  ∧ compare_versions "1.0.0-alpha.beta" "1.0.0-beta" = Some (-1)%Z
  ∧ compare_versions "1.0.0+a" "1.0.0+b" = Some 0%Z.
Proof.
  split; [|repeat split; reflexivity].
  intros s1 s2 a b H1 H2. unfold compare_versions.
  rewrite H1, H2. simpl. f_equal. apply compare_semver_precedence.
Qed.

Lemma compare_semver_agrees_with_precedence_witness :
  compare_versions "v1.2.3-rc.1" "1.2.3-rc.10+build.5"
  = Some (Precedence.sign
            (Precedence.precedence
               (mkSemVer 1 2 3 ["rc"; "1"] "v1.2.3-rc.1")
               (mkSemVer 1 2 3 ["rc"; "10"] "1.2.3-rc.10+build.5"))).
Proof.
  apply (proj1 compare_semver_agrees_with_precedence); reflexivity.
Defined.

(** What C5 states, on the version strings over the code points below 256,
    where [\d] is [[0-9]]: on parsed versions [compare_semver] is a strict
    total order of the precedence classes -- a version ties itself, swapping
    the arguments flips the sign, "below" is transitive -- and two versions
    tie exactly when their major, minor, patch and prerelease sequences are
    equal (the original string, and with it the build metadata, takes no
    part).  The last part does not extend to all of [str]: above code point
    255 [\d] matches the decimal digits of every script, so [SemVer.parse]
    accepts 1.0.0-1Z with U+0660 ARABIC-INDIC DIGIT ZERO for Z, whose
    identifier [int] reads as 10; it ties with 1.0.0-10 under another
    prerelease sequence. *)
Theorem compare_semver_orders_parsed_versions sa sb sc a b c :
  SemVer_parse sa = Some a → SemVer_parse sb = Some b →
  SemVer_parse sc = Some c →
  compare_semver a a = 0%Z
  ∧ compare_semver a b = (- compare_semver b a)%Z
  ∧ ((compare_semver a b < 0)%Z → (compare_semver b c < 0)%Z →
     (compare_semver a c < 0)%Z)
  ∧ (compare_semver a b = 0%Z
     ↔ major a = major b ∧ minor a = minor b ∧ patch a = patch b
       ∧ prerelease a = prerelease b).
Proof.
  intros Ha Hb Hc. rewrite !compare_semver_precedence.
  split; [|split; [|split]].
  - rewrite (cmp_refl (cmp:=Precedence.precedence)). reflexivity.
  - rewrite (cmp_antisym (cmp:=Precedence.precedence) b a). apply sign_opp.
  - rewrite !sign_lt. apply (cmp_lt_trans (cmp:=Precedence.precedence)).
  - rewrite sign_eq.
    apply precedence_eq_fields; eauto using SemVer_parse_prerelease.
Qed.

Lemma compare_semver_orders_parsed_versions_witness :
  let a := mkSemVer 1 0 0 ["alpha"] "1.0.0-alpha+x" in
  let b := mkSemVer 1 0 0 ["alpha"; "1"] " v1.0.0-alpha.1" in
  let c := mkSemVer 1 0 0 [] "1.0.0" in
  compare_semver a a = 0%Z
  ∧ compare_semver a b = (- compare_semver b a)%Z
  ∧ ((compare_semver a b < 0)%Z → (compare_semver b c < 0)%Z →
     (compare_semver a c < 0)%Z)
  ∧ (compare_semver a b = 0%Z
     ↔ major a = major b ∧ minor a = minor b ∧ patch a = patch b
       ∧ prerelease a = prerelease b).
Proof.
  apply (compare_semver_orders_parsed_versions
           "1.0.0-alpha+x" " v1.0.0-alpha.1" "1.0.0"); reflexivity.
Defined.

(** ** The stable sort *)

Section SortFacts.
Context {A : Type} (lt : A → A → bool).

Lemma insert_sorted_perm x l : insert_sorted lt x l ≡ₚ x :: l.
Proof.
induction l as [|y l IH]; simpl; [reflexivity|].
destruct (lt y x); [|reflexivity].
rewrite IH. apply Permutation_swap.
Qed.

Lemma sort_perm l : sort lt l ≡ₚ l.
Proof.
induction l as [|x l IH]; simpl; [reflexivity|].
rewrite insert_sorted_perm, IH. reflexivity.
Qed.

(** A class of elements none of which is below another keeps its order. *)
Lemma insert_sorted_stable (p : A → bool) x l :
(∀ a b, p a = true → p b = true → lt a b = false) →
List.filter p (insert_sorted lt x l) = List.filter p (x :: l).
Proof.
intros Hp. induction l as [|y l IH]; [reflexivity|].
cbn [insert_sorted]. destruct (lt y x) eqn:E; [|reflexivity].
cbn [List.filter] in *. rewrite IH.
destruct (p y) eqn:Py, (p x) eqn:Px; try reflexivity.
rewrite (Hp y x Py Px) in E. discriminate.
Qed.

Lemma sort_stable (p : A → bool) l :
(∀ a b, p a = true → p b = true → lt a b = false) →
List.filter p (sort lt l) = List.filter p l.
Proof.
intros Hp. induction l as [|x l IH]; [reflexivity|].
cbn [sort foldr]. fold (sort lt l).
rewrite insert_sorted_stable by exact Hp.
cbn [List.filter]. rewrite IH. reflexivity.
Qed.

Section Ordered.
Hypothesis lt_asym : ∀ x y, lt x y = true → lt y x = false.
Hypothesis ge_trans :
  ∀ x y z, lt y x = false → lt z y = false → lt z x = false.

Lemma insert_sorted_sorted x l :
  StronglySorted (λ a b, lt b a = false) l →
  StronglySorted (λ a b, lt b a = false) (insert_sorted lt x l).
Proof.
  induction 1 as [|y l Hl IH Hy]; cbn [insert_sorted].
  - repeat constructor.
  - destruct (lt y x) eqn:E.
+ constructor; [exact IH|].
  rewrite insert_sorted_perm. constructor; [auto | exact Hy].
+ constructor; [constructor; assumption|].
  constructor; [exact E|].
  eapply Forall_impl; [exact Hy|].
  intros z Hz. cbv beta in Hz. eauto.
Qed.

Lemma sort_sorted l : StronglySorted (λ a b, lt b a = false) (sort lt l).
Proof.
  induction l as [|x l IH]; cbn [sort foldr]; [constructor|].
  apply insert_sorted_sorted. exact IH.
Qed.
End Ordered.

(** In a sorted list a class that lies below its complement comes first. *)
Lemma sorted_partition (p : A → bool) l :
(∀ a b, In a l → In b l → p a = true → p b = false → lt a b = true) →
StronglySorted (λ a b, lt b a = false) l →
l = List.filter p l ++ List.filter (λ a, negb (p a)) l.
Proof.
intros Hp Hs. induction Hs as [|x l Hl IH Hx]; [reflexivity|].
assert (l = List.filter p l ++ List.filter (λ a, negb (p a)) l) as IH'.
{ apply IH. intros a b Ha Hb. apply Hp; right; assumption. }
cbn [List.filter]. destruct (p x) eqn:Px; cbn [negb].
- simpl. f_equal. exact IH'.
- assert (List.filter p l = []) as Hnil.
  { rewrite List.Forall_forall in Hx.
    assert (∀ y, In y l → p y = false) as Hall.
    { intros y Hy. destruct (p y) eqn:Py; [|reflexivity].
      pose proof (Hx y Hy) as Hxy. cbv beta in Hxy.
      rewrite (Hp y x (or_intror Hy) (or_introl eq_refl) Py Px) in Hxy.
      discriminate. }
    clear -Hall. induction l as [|y l IHl]; [reflexivity|].
    cbn [List.filter]. rewrite (Hall y (or_introl eq_refl)).
    apply IHl. intros z Hz. apply Hall. right. exact Hz. }
  rewrite Hnil in *. simpl in *. f_equal. exact IH'.
Qed.
End SortFacts.

(** Sortedness read by positions. *)
Lemma StronglySorted_lookup {A} (R : A → A → Prop) l i j x y :
  StronglySorted R l → (i < j)%nat →
  l !! i = Some x → l !! j = Some y → R x y.
Proof.
  intros Hs. revert i j. induction Hs as [|a l Hl IH Ha]; intros i j Hij Hi Hj.
  - discriminate.
  - destruct j as [|j]; [lia|]. simpl in Hj.
    destruct i as [|i].
    + simpl in Hi. injection Hi as ->.
      rewrite List.Forall_forall in Ha. apply Ha.
      apply list_elem_of_In. eapply list_elem_of_lookup_2. exact Hj.
    + simpl in Hi. apply (IH i j); [lia | assumption | assumption].
Qed.

(** ** Dict comprehensions and [enumerate] *)

Lemma dict_of_snoc {V} (kvs : list (string * V)) k v :
  dict_of (kvs ++ [(k, v)]) = <[k := v]> (dict_of kvs).
Proof. unfold dict_of. rewrite foldl_app. reflexivity. Qed.

Lemma dict_of_lookup_Some {V} (kvs : list (string * V)) k v :
  dict_of kvs !! k = Some v → (k, v) ∈ kvs.
Proof.
  induction kvs as [|[k' v'] kvs IH] using rev_ind.
  - unfold dict_of. simpl. rewrite lookup_empty. discriminate.
  - rewrite dict_of_snoc. rewrite lookup_insert.
    destruct (decide (k' = k)) as [->|Hne].
    + intros [= ->]. apply elem_of_app. right. constructor.
    + intros H. apply elem_of_app. left. auto.
Qed.

Lemma dict_of_lookup_None {V} (kvs : list (string * V)) k :
  dict_of kvs !! k = None ↔ k ∉ map fst kvs.
Proof.
  induction kvs as [|[k' v'] kvs IH] using rev_ind.
  - unfold dict_of. simpl. rewrite lookup_empty. split; [|reflexivity].
    intros _ H. inversion H.
  - rewrite dict_of_snoc, lookup_insert, map_app. simpl.
    rewrite elem_of_app, list_elem_of_singleton.
    destruct (decide (k' = k)) as [->|Hne].
    + split; [discriminate | intros H; exfalso; apply H; right; reflexivity].
    + rewrite IH. split; [intros H [?|?]; [auto | congruence] | tauto].
Qed.

Lemma enumerate_from_lookup {A} (l : list A) i k x :
  (k, x) ∈ enumerate_from i l →
  (i ≤ k)%Z ∧ l !! Z.to_nat (k - i) = Some x.
Proof.
  revert i. induction l as [|a l IH]; intros i; simpl.
  - intros H. inversion H.
  - rewrite elem_of_cons. intros [[= -> ->]|H].
    + split; [lia|]. replace (i - i)%Z with 0%Z by lia. reflexivity.
    + apply IH in H as [Hle Hl]. split; [lia|].
      replace (Z.to_nat (k - i)) with (S (Z.to_nat (k - (i + 1)))) by lia.
      exact Hl.
Qed.

Lemma enumerate_from_snd {A} (l : list A) i :
  map snd (enumerate_from i l) = l.
Proof.
  revert i. induction l as [|a l IH]; intros i; simpl; [reflexivity|].
  rewrite IH. reflexivity.
Qed.

Lemma index_of_Some order ver i :
  index_of order !! ver = Some i →
  (0 ≤ i)%Z ∧ order !! Z.to_nat i = Some ver.
Proof.
  unfold index_of. intros H. apply dict_of_lookup_Some in H.
  apply list_elem_of_fmap in H as [[k x] [[= -> ->] H]].
  apply enumerate_from_lookup in H as [Hle Hl].
  rewrite Z.sub_0_r in Hl. auto.
Qed.

Lemma enumerate_from_keys {A} (l : list A) i :
  map fst (map (λ '(i, x), (x, i)) (enumerate_from i l)) = l.
Proof.
  revert i. induction l as [|a l IH]; intros i; simpl; [reflexivity|].
  rewrite IH. reflexivity.
Qed.

Lemma index_of_None order ver :
  index_of order !! ver = None ↔ ver ∉ order.
Proof.
  unfold index_of, enumerate.
  rewrite dict_of_lookup_None, enumerate_from_keys. reflexivity.
Qed.

(** ** Eligibility and ranking *)

Lemma normalize_eq versions :
  normalize versions = map normalize_entry (List.filter raw_eligible versions).
Proof.
  unfold normalize.
  enough (∀ acc,
    foldl (λ norm v,
             let ver := str_get (raw_version v) in
             let tag_str := tag_str_of (raw_tag v) in
             let rs := upper (str_get (raw_release_status v)) in
             if is_eligible_status rs then norm ++ [mkEntry ver tag_str rs]
             else norm) acc versions
    = acc ++ map normalize_entry (List.filter raw_eligible versions)) as H
    by apply (H []).
  induction versions as [|v vs IH]; intros acc; simpl.
  - rewrite app_nil_r. reflexivity.
  - rewrite IH. unfold raw_eligible at 2.
    destruct (is_eligible_status _); [|reflexivity].
    rewrite <- app_assoc. reflexivity.
Qed.

Lemma sort_versions_by_semver_desc_eq vs :
  sort_versions_by_semver_desc vs
  = map snd (sort_by_key_reverse SemVer_lt fst (parsed_pairs vs)).
Proof.
  unfold sort_versions_by_semver_desc. do 2 f_equal.
  enough (∀ acc,
    foldl (λ parsed v,
             match SemVer_parse v with
             | Some sv => parsed ++ [(sv, v)]
             | None => parsed
             end) acc vs = acc ++ parsed_pairs vs) as H by apply (H []).
  induction vs as [|v vs IH]; intros acc; simpl.
  - rewrite app_nil_r. reflexivity.
  - rewrite IH. destruct (SemVer_parse v); [|reflexivity].
    rewrite <- app_assoc. reflexivity.
Qed.

Lemma parsed_pairs_parse vs sv v :
  In (sv, v) (parsed_pairs vs) → SemVer_parse v = Some sv ∧ In v vs.
Proof.
  induction vs as [|w vs IH]; simpl; [tauto|].
  destruct (SemVer_parse w) eqn:E.
  - intros [[= <- <-]|H]; [auto | split; [|right]; apply IH; exact H].
  - intros H. split; [|right]; apply IH; exact H.
Qed.

Lemma parsed_pairs_complete vs sv v :
  In v vs → SemVer_parse v = Some sv → In (sv, v) (parsed_pairs vs).
Proof.
  induction vs as [|w vs IH]; simpl; [tauto|].
  intros [->|H] Hp.
  - rewrite Hp. left. reflexivity.
  - destruct (SemVer_parse w); [right|]; auto.
Qed.

Lemma parsed_pairs_length vs :
  (List.length (parsed_pairs vs) ≤ List.length vs)%nat.
Proof.
  induction vs as [|w vs IH]; simpl; [lia|].
  destruct (SemVer_parse w); simpl; lia.
Qed.

Lemma SemVer_lt_precedence a b :
  SemVer_lt a b = true ↔ Precedence.precedence a b = Lt.
Proof.
  unfold SemVer_lt. rewrite compare_semver_precedence, Z.ltb_lt. apply sign_lt.
Qed.

Lemma SemVer_lt_false a b :
  SemVer_lt a b = false ↔ (0 ≤ compare_semver a b)%Z.
Proof. unfold SemVer_lt. rewrite Z.ltb_ge. reflexivity. Qed.

(** The semver-sorted pairs: in descending precedence. *)
Lemma sorted_pairs_descending (ps : list (SemVer * string)) :
  StronglySorted (λ t1 t2, SemVer_lt (fst t1) (fst t2) = false)
    (sort_by_key_reverse SemVer_lt fst ps).
Proof.
  unfold sort_by_key_reverse.
  apply (sort_sorted (λ x y : SemVer * string, SemVer_lt (fst y) (fst x))).
  - intros x y. rewrite SemVer_lt_precedence. intros H.
    destruct (SemVer_lt (fst x) (fst y)) eqn:E; [|reflexivity].
    apply SemVer_lt_precedence in E.
    rewrite (cmp_antisym (cmp:=Precedence.precedence)), E in H. discriminate.
  - intros x y z Hxy Hyz.
    destruct (SemVer_lt (fst x) (fst z)) eqn:E; [|reflexivity].
    apply SemVer_lt_precedence in E. exfalso.
    apply (cmp_ge_trans Precedence.precedence (fst x) (fst y) (fst z)).
    + intros H. apply SemVer_lt_precedence in H. congruence.
    + intros H. apply SemVer_lt_precedence in H. congruence.
    + exact E.
Qed.

Section Ranking.
Variable resp : Response.

Let versions := default [] (resp_versions resp).
Let norm := normalize versions.
Let pairs := sort_by_key_reverse SemVer_lt fst (parsed_pairs (map version norm)).
Let order := sort_versions_by_semver_desc (map version norm).
Let key := λ x : Entry, default DEFAULT_KEY (index_of order !! version x).

Lemma rank_prod_versions_eq :
rank_prod_versions resp = sort_by_key Z.ltb key norm.
Proof. reflexivity. Qed.

Lemma order_pairs : order = map snd pairs.
Proof. apply sort_versions_by_semver_desc_eq. Qed.

Lemma pairs_parse sv v : In (sv, v) pairs → SemVer_parse v = Some sv.
Proof.
intros H. apply (parsed_pairs_parse (map version norm)).
apply list_elem_of_In. apply list_elem_of_In in H.
revert H. unfold pairs, sort_by_key_reverse. rewrite sort_perm. auto.
Qed.

Lemma order_length : (List.length order ≤ List.length versions)%nat.
Proof.
rewrite order_pairs, length_map. unfold pairs, sort_by_key_reverse.
rewrite sort_perm.
etransitivity; [apply parsed_pairs_length|].
rewrite length_map. unfold norm. rewrite normalize_eq, length_map.
apply List.filter_length_le.
Qed.

Lemma key_parsable e sv :
In e norm → SemVer_parse (version e) = Some sv →
∃ k, index_of order !! version e = Some k
     ∧ (0 ≤ k < Z.of_nat (List.length order))%Z
     ∧ pairs !! Z.to_nat k = Some (sv, version e).
Proof.
intros He Hp.
destruct (index_of order !! version e) as [k|] eqn:E.
- exists k. split; [reflexivity|].
  apply index_of_Some in E as [Hk Hl].
  split.
  + apply lookup_lt_Some in Hl. lia.
  + rewrite order_pairs in Hl. rewrite list_lookup_fmap in Hl.
    destruct (pairs !! Z.to_nat k) as [[sv' v']|] eqn:Ek; [|discriminate].
    simpl in Hl. injection Hl as ->.
    assert (SemVer_parse (version e) = Some sv') as Hp'.
    { apply pairs_parse. apply list_elem_of_In.
      eapply list_elem_of_lookup_2. exact Ek. }
    congruence.
- exfalso. apply index_of_None in E. apply E.
  rewrite order_pairs. apply list_elem_of_In. apply in_map_iff.
  exists (sv, version e). split; [reflexivity|].
  apply list_elem_of_In. unfold pairs, sort_by_key_reverse.
  rewrite sort_perm. apply list_elem_of_In.
  apply parsed_pairs_complete; [|exact Hp].
  apply in_map. exact He.
Qed.

Lemma key_unparsable e :
SemVer_parse (version e) = None → key e = DEFAULT_KEY.
Proof.
intros Hp. unfold key.
destruct (index_of order !! version e) as [k|] eqn:E; [|reflexivity].
apply index_of_Some in E as [_ Hl].
rewrite order_pairs, list_lookup_fmap in Hl.
destruct (pairs !! Z.to_nat k) as [[sv' v']|] eqn:Ek; [|discriminate].
simpl in Hl. injection Hl as ->.
assert (SemVer_parse (version e) = Some sv') as Hp'.
{ apply pairs_parse. apply list_elem_of_In.
  eapply list_elem_of_lookup_2. exact Ek. }
congruence.
Qed.

Lemma ranked_perm : rank_prod_versions resp ≡ₚ norm.
Proof. rewrite rank_prod_versions_eq. apply sort_perm. Qed.

Lemma ranked_sorted :
StronglySorted (λ a b, (key b <? key a)%Z = false)
  (rank_prod_versions resp).
Proof.
rewrite rank_prod_versions_eq. unfold sort_by_key.
apply (sort_sorted (λ x y : Entry, (key x <? key y)%Z)).
- intros x y. rewrite Z.ltb_lt, Z.ltb_ge. lia.
- intros x y z. rewrite !Z.ltb_ge. lia.
Qed.

Lemma ranked_stable (p : Entry → bool) :
(∀ a b, p a = true → p b = true → key a = key b) →
List.filter p (rank_prod_versions resp) = List.filter p norm.
Proof.
intros Hp. rewrite rank_prod_versions_eq. unfold sort_by_key.
apply sort_stable. intros a b Ha Hb.
rewrite (Hp a b Ha Hb). apply Z.ltb_irrefl.
Qed.

(** Entries that parse stand in descending precedence. *)
Lemma ranked_descending i j e1 e2 a b :
(i < j)%nat →
rank_prod_versions resp !! i = Some e1 →
rank_prod_versions resp !! j = Some e2 →
SemVer_parse (version e1) = Some a →
SemVer_parse (version e2) = Some b →
(0 ≤ compare_semver a b)%Z.
Proof.
intros Hij H1 H2 Ha Hb.
pose proof (StronglySorted_lookup _ _ _ _ _ _ ranked_sorted Hij H1 H2) as Hk.
cbv beta in Hk. apply Z.ltb_ge in Hk.
assert (In e1 norm) as In1.
{ apply list_elem_of_In. rewrite <- ranked_perm.
  eapply list_elem_of_lookup_2. exact H1. }
assert (In e2 norm) as In2.
{ apply list_elem_of_In. rewrite <- ranked_perm.
  eapply list_elem_of_lookup_2. exact H2. }
destruct (key_parsable e1 a In1 Ha) as (k1 & E1 & B1 & P1).
destruct (key_parsable e2 b In2 Hb) as (k2 & E2 & B2 & P2).
unfold key in Hk. rewrite E1, E2 in Hk. simpl in Hk.
destruct (decide (k1 = k2)) as [->|Hne].
- rewrite P1 in P2. injection P2 as -> _.
  rewrite compare_semver_precedence,
    (cmp_refl (cmp:=Precedence.precedence)). reflexivity.
- apply SemVer_lt_false.
  apply (StronglySorted_lookup _ pairs (Z.to_nat k1) (Z.to_nat k2)
           (a, version e1) (b, version e2)
           (sorted_pairs_descending _)); [lia | exact P1 | exact P2].
Qed.
End Ranking.

Lemma ranked_unparsable_last resp :
  (Z.of_nat (List.length (default [] (resp_versions resp))) ≤ DEFAULT_KEY)%Z →
  rank_prod_versions resp
  = List.filter parsable (rank_prod_versions resp)
    ++ List.filter (λ e, negb (parsable e)) (rank_prod_versions resp).
Proof.
  intros Hlen.
  set (order := sort_versions_by_semver_desc
                  (map version (normalize (default [] (resp_versions resp))))).
  set (key := λ x : Entry, default DEFAULT_KEY (index_of order !! version x)).
  apply (sorted_partition (λ x y : Entry, (key x <? key y)%Z) parsable).
  2:{ apply ranked_sorted. }
  intros a b Ha Hb Pa Pb.
  assert (In a (normalize (default [] (resp_versions resp)))) as Ia.
  { apply list_elem_of_In. rewrite <- ranked_perm. apply list_elem_of_In, Ha. }
  unfold parsable in Pa, Pb.
  destruct (SemVer_parse (version a)) as [sa|] eqn:Ea; [|discriminate].
  destruct (SemVer_parse (version b)) as [sb|] eqn:Eb; [discriminate|].
  destruct (key_parsable resp a sa Ia Ea) as (k & Ek & Bk & _).
  pose proof (order_length resp) as Hol.
  pose proof (key_unparsable resp b Eb) as Kb.
  apply Z.ltb_lt. unfold key, order. rewrite Ek. simpl.
  cbv beta in Kb. rewrite Kb. lia.
Qed.

(** ** Ranking: what holds of [get_prod_versions] *)

Lemma get_prod_versions_eq app_key st :
  fails (remote st) (ListVersions app_key 1000) = false →
  get_prod_versions app_key st
  = (inr (rank_prod_versions (mkResponse (Some (map shown (held (remote st)))))),
     mkState (remote st) (calls st ++ [ListVersions app_key 1000]) (stdout st)).
Proof.
  intros Hf. unfold get_prod_versions, list_application_versions, _request.
  unfold mbind, M_bind. rewrite Hf. simpl. destruct (remote st); reflexivity.
Qed.

(** C2, as amended: [get_prod_versions] returns exactly the entries whose
    release status, compared case-insensitively, is TRUSTED_RELEASE or
    RELEASED, normalised, whether or not their version string parses; those
    among them whose version string parses stand in non-increasing semver
    precedence; and the entries of one version string keep their relative
    order. *)
Theorem get_prod_versions_ranks_eligible resp :
  let eligible :=
    map normalize_entry
      (List.filter raw_eligible (default [] (resp_versions resp))) in
  let ranked := rank_prod_versions resp in
  ranked ≡ₚ eligible
  ∧ (∀ i j e1 e2 a b,
        (i < j)%nat → ranked !! i = Some e1 → ranked !! j = Some e2 →
        SemVer_parse (version e1) = Some a →
        SemVer_parse (version e2) = Some b →
        (0 ≤ compare_semver a b)%Z)
  ∧ (∀ ver,
        List.filter (has_version ver) ranked
        = List.filter (has_version ver) eligible).
Proof.
  intros eligible ranked. unfold eligible, ranked.
  rewrite <- normalize_eq. split; [|split].
  - apply ranked_perm.
  - apply ranked_descending.
  - intros ver. apply ranked_stable.
    intros a b Ha Hb. unfold has_version in *.
    apply String.eqb_eq in Ha, Hb. rewrite Ha, Hb. reflexivity.
Qed.

Lemma get_prod_versions_ranks_eligible_witness :
  let resp := mkResponse (Some [ raw "1.0.0" "" "released";
                                 raw "2.0.0-rc.1" "" "DRAFT";
                                 raw "nightly" "" "RELEASED";
                                 raw "2.0.0" "latest" "Trusted_Release" ]) in
  rank_prod_versions resp
  ≡ₚ [ mkEntry "1.0.0" "" "RELEASED"; mkEntry "nightly" "" "RELEASED";
       mkEntry "2.0.0" "latest" "TRUSTED_RELEASE" ]
  ∧ (0 ≤ compare_semver (mkSemVer 2 0 0 [] "2.0.0") (mkSemVer 1 0 0 [] "1.0.0"))%Z.
Proof.
  intros resp.
  destruct (get_prod_versions_ranks_eligible resp) as (Hperm & Hdesc & _).
  split; [exact Hperm|].
  apply (Hdesc 0%nat 1%nat (mkEntry "2.0.0" "latest" "TRUSTED_RELEASE")
           (mkEntry "1.0.0" "" "RELEASED")); [lia | reflexivity..].
Defined.

(** C2 as stated fails: an eligible entry whose version string does not parse
    is returned, and of two version strings of equal precedence the one whose
    last occurrence comes first is ranked first, whatever the input order. *)
Lemma get_prod_versions_ranks_eligible_counterexample :
  let resp := mkResponse (Some [ raw "v1.0.0" "a" "RELEASED";
                                 raw "1.0.0" "b" "RELEASED";
                                 raw "v1.0.0" "c" "RELEASED";
                                 raw "nightly" "d" "RELEASED" ]) in
  rank_prod_versions resp
  = [ mkEntry "1.0.0" "b" "RELEASED"; mkEntry "v1.0.0" "a" "RELEASED";
      mkEntry "v1.0.0" "c" "RELEASED"; mkEntry "nightly" "d" "RELEASED" ]
  ∧ rankEligible resp
    = [ mkEntry "v1.0.0" "a" "RELEASED"; mkEntry "1.0.0" "b" "RELEASED";
        mkEntry "v1.0.0" "c" "RELEASED" ]
  ∧ SemVer_parse "nightly" = None
  ∧ compare_versions "v1.0.0" "1.0.0" = Some 0%Z
  ∧ rank_prod_versions resp ≠ rankEligible resp.
Proof.
  vm_compute. repeat split; discriminate.
Qed.

(** ** Successor selection *)

Lemma dup_loop_snoc ex l v :
  dup_loop ex (l ++ [v]) = dup_step ex (dup_loop ex l) v.
Proof. unfold dup_loop. rewrite foldl_app. reflexivity. Qed.

(** What [dup] holds under a version string: its surviving entries, in
    order, when there are any. *)
Lemma dup_loop_lookup ex l ver :
  dup_loop ex l !! ver
  = match List.filter (has_version ver) (survivors l ex) with
    | [] => None
    | c => Some c
    end.
Proof.
  induction l as [|v l IH] using rev_ind.
  - unfold dup_loop. simpl. apply lookup_empty.
  - rewrite dup_loop_snoc. unfold survivors in *.
    rewrite !List.filter_app. cbn [List.filter].
    unfold dup_step, survives at 2.
    destruct (version v =? ex)%string eqn:Eex; cbn [negb andb].
    { rewrite !app_nil_r. exact IH. }
    destruct (tag v =? QUARANTINE_TAG)%string eqn:Eq; cbn [negb andb].
    { rewrite !app_nil_r. exact IH. }
    cbn [List.filter]. rewrite lookup_insert.
    destruct (String.eqb_spec (version v) ver) as [E|E].
    + subst ver. rewrite decide_True by reflexivity.
      replace (has_version (version v) v) with true
        by (unfold has_version; rewrite String.eqb_refl; reflexivity).
      rewrite IH.
      destruct (List.filter (has_version (version v))
                  (List.filter (survives ex) l)) as [|c cs]; reflexivity.
    + rewrite decide_False by exact E.
      replace (has_version ver v) with false
        by (symmetry; apply String.eqb_neq; exact E).
      rewrite app_nil_r. exact IH.
Qed.

Lemma dup_loop_dom ex l ver :
  ver ∈ dom (dup_loop ex l)
  ↔ existsb (has_version ver) (survivors l ex) = true.
Proof.
  rewrite elem_of_dom, dup_loop_lookup.
  induction (survivors l ex) as [|s ss IH]; cbn [List.filter existsb].
  - split; [intros [? ?]; discriminate | discriminate].
  - destruct (has_version ver s); cbn [orb].
    + split; [reflexivity | eauto].
    + exact IH.
Qed.

Lemma dup_loop_empty ex l : dup_loop ex l = ∅ ↔ survivors l ex = [].
Proof.
  split.
  - intros H. destruct (survivors l ex) as [|s ss] eqn:E; [reflexivity|].
    exfalso.
    assert (version s ∈ dom (dup_loop ex l)) as Hd.
    { apply dup_loop_dom. rewrite E. cbn [existsb]. unfold has_version at 1.
      rewrite String.eqb_refl. reflexivity. }
    rewrite H, dom_empty_L in Hd. set_solver.
  - intros H. apply map_eq. intros ver.
    rewrite dup_loop_lookup, H, lookup_empty. reflexivity.
Qed.

(** The second loop only appends: what is first stays first. *)
Lemma ordered_loop_head ex dup l seen h t :
  head (snd (foldl (ordered_step ex dup) (seen, h :: t) l)) = Some h.
Proof.
  revert seen t. induction l as [|v l IH]; intros seen t; [reflexivity|].
  cbn [foldl]. unfold ordered_step at 2.
  destruct (version v =? ex)%string; [apply IH|].
  destruct (bool_decide _ && bool_decide _); apply IH.
Qed.

Lemma ordered_loop_first ex dup l :
  head (snd (ordered_loop ex dup l))
  = version <$> List.find (λ e, negb (version e =? ex)%string
                                && bool_decide (version e ∈ dom dup)) l.
Proof.
  unfold ordered_loop. induction l as [|v l IH]; [reflexivity|].
  cbn [foldl List.find]. unfold ordered_step at 2.
  destruct (version v =? ex)%string; cbn [negb andb]; [exact IH|].
  destruct (bool_decide (version v ∈ dom dup)) eqn:Ed; cbn [andb].
  - rewrite bool_decide_true by set_solver. simpl app.
    apply ordered_loop_head.
  - exact IH.
Qed.

Lemma find_ext {A} (p q : A → bool) l :
  (∀ x, p x = q x) → List.find p l = List.find q l.
Proof.
  intros H. induction l as [|x l IH]; [reflexivity|].
  simpl. rewrite H, IH. reflexivity.
Qed.

Lemma filter_trusted_find cands :
  match filter (λ c, release_status c = TRUSTED) cands with
  | t :: _ => Some t
  | [] => head cands
  end
  = match List.find is_trusted cands with
    | Some t => Some t
    | None => head cands
    end.
Proof.
  assert (∀ l, head (filter (λ c, release_status c = TRUSTED) l)
               = List.find is_trusted l) as H.
  { induction l as [|c l IH]; [reflexivity|].
    rewrite filter_cons. cbn [List.find]. unfold is_trusted at 1.
    destruct (decide (release_status c = TRUSTED)) as [E|E].
    - rewrite E, String.eqb_refl. reflexivity.
    - apply String.eqb_neq in E. rewrite E. exact IH. }
  specialize (H cands).
  destruct (filter _ cands); simpl in H; rewrite <- H; reflexivity.
Qed.

(** [pick_next_latest] computes [pick_of_leading_version]. *)
Lemma pick_next_latest_eq l ex :
  pick_next_latest l ex = pick_of_leading_version l ex.
Proof.
  unfold pick_next_latest, pick_of_leading_version, leading_version.
  assert (List.find (λ e, surviving_version l ex (version e)) l
          = List.find (λ e, negb (version e =? ex)%string
                            && bool_decide (version e ∈ dom (dup_loop ex l))) l)
    as Hfind.
  { apply find_ext. intros x. unfold surviving_version. f_equal.
    destruct (existsb _ _) eqn:E.
    - symmetry. apply bool_decide_eq_true. apply dup_loop_dom. exact E.
    - symmetry. apply bool_decide_eq_false. rewrite dup_loop_dom, E.
      discriminate. }
  rewrite Hfind. clear Hfind.
  pose proof (ordered_loop_first ex (dup_loop ex l) l) as Hhead.
  destruct (bool_decide (dup_loop ex l = ∅)) eqn:Ee.
  - apply bool_decide_eq_true in Ee.
    destruct (List.find _ l) as [e|] eqn:Ef; [|reflexivity].
    apply List.find_some in Ef as [_ Ef].
    rewrite andb_true_iff in Ef. destruct Ef as [_ Ef].
    apply bool_decide_eq_true in Ef. rewrite Ee, dom_empty_L in Ef.
    set_solver.
  - destruct (ordered_loop ex (dup_loop ex l) l) as [seen ordered].
    cbn [snd] in Hhead.
    destruct ordered as [|ver ordered]; cbn [head] in Hhead.
    + destruct (List.find _ l); [discriminate | reflexivity].
    + destruct (List.find _ l) as [e|]; [|discriminate].
      cbn [fmap option_fmap option_map] in *. injection Hhead as ->.
      rewrite dup_loop_lookup.
      rewrite filter_trusted_find.
      destruct (List.filter (has_version (version e)) (survivors l ex));
        reflexivity.
Qed.

Lemma survives_spec ex e :
  survives ex e = true ↔ version e ≠ ex ∧ tag e ≠ QUARANTINE_TAG.
Proof.
  unfold survives. rewrite andb_true_iff, !negb_true_iff, !String.eqb_neq.
  reflexivity.
Qed.

Lemma leading_version_None l ex :
  leading_version l ex = None ↔ survivors l ex = [].
Proof.
  unfold leading_version. split.
  - intros H. destruct (survivors l ex) as [|s ss] eqn:E; [reflexivity|].
    exfalso.
    assert (In s (survivors l ex)) as Hs by (rewrite E; left; reflexivity).
    unfold survivors in Hs. apply List.filter_In in Hs as [Hl Hs].
    destruct (List.find _ l) as [e|] eqn:Ef; [discriminate|].
    pose proof (List.find_none _ _ Ef s Hl) as Hn. cbv beta in Hn.
    unfold surviving_version in Hn. rewrite E in Hn.
    cbn [existsb] in Hn. unfold has_version at 1 in Hn.
    rewrite String.eqb_refl in Hn. cbn [orb] in Hn.
    apply survives_spec in Hs as [Hs _]. apply String.eqb_neq in Hs.
    rewrite Hs in Hn. discriminate.
  - intros H. destruct (List.find _ l) as [e|] eqn:Ef; [|reflexivity].
    apply List.find_some in Ef as [_ Ef].
    unfold surviving_version in Ef. rewrite H in Ef.
    rewrite andb_false_r in Ef. discriminate.
Qed.

Lemma leading_version_Some l ex ver :
  leading_version l ex = Some ver →
  List.filter (has_version ver) (survivors l ex) ≠ [].
Proof.
  unfold leading_version.
  destruct (List.find _ l) as [e|] eqn:Ef; [|discriminate].
  intros [= <-]. apply List.find_some in Ef as [_ Ef].
  unfold surviving_version in Ef. rewrite andb_true_iff in Ef.
  destruct Ef as [_ Ef]. apply existsb_exists in Ef as (s & Hs & Hv).
  intros Hnil.
  assert (In s (List.filter (has_version (version e)) (survivors l ex))) as Hin
    by (apply List.filter_In; auto).
  rewrite Hnil in Hin. destruct Hin.
Qed.

Lemma pick_of_leading_version_Some l ex e :
  pick_of_leading_version l ex = Some e →
  In e l ∧ version e ≠ ex ∧ tag e ≠ QUARANTINE_TAG.
Proof.
  unfold pick_of_leading_version.
  destruct (leading_version l ex) as [ver|]; [|discriminate].
  assert (∀ x, In x (List.filter (has_version ver) (survivors l ex)) →
               In x l ∧ version x ≠ ex ∧ tag x ≠ QUARANTINE_TAG) as Hc.
  { intros x Hx. apply List.filter_In in Hx as [Hx _].
    unfold survivors in Hx. apply List.filter_In in Hx as [Hl Hs].
    apply survives_spec in Hs. tauto. }
  destruct (List.find is_trusted _) as [t|] eqn:Ef.
  - intros [= <-]. apply List.find_some in Ef as [Ht _]. auto.
  - destruct (List.filter (has_version ver) (survivors l ex)) as [|c cs];
      [discriminate|].
    intros [= <-]. apply Hc. left. reflexivity.
Qed.

Lemma pick_of_leading_version_None l ex :
  pick_of_leading_version l ex = None ↔ survivors l ex = [].
Proof.
  rewrite <- leading_version_None. unfold pick_of_leading_version.
  destruct (leading_version l ex) as [ver|] eqn:Et; [|tauto].
  apply leading_version_Some in Et.
  split; [|discriminate].
  destruct (List.find is_trusted _); [discriminate|].
  destruct (List.filter (has_version ver) (survivors l ex));
    [contradiction | discriminate].
Qed.

Lemma find_ext_In {A} (p q : A → bool) l :
  (∀ x, In x l → p x = q x) → List.find p l = List.find q l.
Proof.
  induction l as [|x l IH]; intros H; [reflexivity|].
  cbn [List.find]. rewrite (H x (or_introl eq_refl)), IH; [reflexivity|].
  intros y Hy. apply H. right. exact Hy.
Qed.

Lemma survivors_In l ex e : In e (survivors l ex) ↔ In e l ∧ survives ex e = true.
Proof. apply List.filter_In. Qed.

Lemma surviving_version_spec l ex ver :
  surviving_version l ex ver = true
  ↔ ∃ s, In s l ∧ survives ex s = true ∧ version s = ver.
Proof.
  unfold surviving_version. rewrite andb_true_iff, existsb_exists. split.
  - intros (_ & s & Hs & Hv). apply survivors_In in Hs as [Hl Hs].
    apply String.eqb_eq in Hv. eauto.
  - intros (s & Hl & Hs & <-). split.
    + apply survives_spec in Hs as [Hs _]. apply negb_true_iff, String.eqb_neq, Hs.
    + exists s. split; [apply survivors_In; auto | apply String.eqb_refl].
Qed.

Lemma head_filter_find {A} (p : A → bool) l :
  head (List.filter p l) = List.find p l.
Proof.
  induction l as [|x l IH]; [reflexivity|].
  cbn [List.filter List.find]. destruct (p x); [reflexivity | exact IH].
Qed.

(** Where no version string other than the excluded one is carried both by a
    quarantined entry and by one that is not, the version string
    [pick_next_latest] settles on is that of the first surviving entry. *)
Lemma leading_version_first_survivor l ex :
  (∀ e e', In e l → In e' l → version e = version e' → version e ≠ ex →
           tag e = QUARANTINE_TAG → tag e' = QUARANTINE_TAG) →
  leading_version l ex = version <$> head (survivors l ex).
Proof.
  intros Hsame. unfold leading_version, survivors.
  rewrite head_filter_find. f_equal.
  apply find_ext_In. intros e He.
  apply eq_true_iff_eq. rewrite surviving_version_spec. split.
  - intros (s & Hl & Hs & Hv).
    apply survives_spec in Hs as [Hsx Hsq].
    apply survives_spec. split; [congruence|].
    intros Hq. apply Hsq.
    apply (Hsame e s He Hl); [congruence | congruence | exact Hq].
  - intros Hs. eauto.
Qed.

Lemma pick_of_leading_version_spec l ex :
  (∀ e e', In e l → In e' l → version e = version e' → version e ≠ ex →
           tag e = QUARANTINE_TAG → tag e' = QUARANTINE_TAG) →
  pick_of_leading_version l ex = pickSuccessor l ex.
Proof.
  intros Hsame. unfold pick_of_leading_version, pickSuccessor.
  rewrite (leading_version_first_survivor l ex Hsame).
  destruct (survivors l ex) as [|first rest]; reflexivity.
Qed.

(** C3, as amended: [pick_next_latest] never returns an entry of the excluded
    version or one tagged "quarantine"; it returns [None] exactly when no
    entry survives the two exclusions; otherwise it settles on the version
    string of the first entry of the list that is not of the excluded
    version and whose version string some surviving entry carries -- that
    first entry may itself be quarantined -- and returns the first surviving
    TRUSTED_RELEASE entry of that version string if there is one, else its
    first surviving entry.  Where no version string other than the excluded
    one is carried both by a quarantined entry and by one that is not, this
    is [pickSuccessor] as the specification words it: the version string is
    that of the first surviving entry. *)
Theorem pick_next_latest_selects_successor
    (sorted_prod_versions : list Entry) (exclude_version : string) :
  (∀ e, pick_next_latest sorted_prod_versions exclude_version = Some e →
        In e sorted_prod_versions
        ∧ version e ≠ exclude_version ∧ tag e ≠ QUARANTINE_TAG)
  ∧ (pick_next_latest sorted_prod_versions exclude_version = None
     ↔ survivors sorted_prod_versions exclude_version = [])
  ∧ pick_next_latest sorted_prod_versions exclude_version
    = match leading_version sorted_prod_versions exclude_version with
      | None => None
      | Some ver =>
          let cands :=
            List.filter (has_version ver)
              (survivors sorted_prod_versions exclude_version) in
          match List.find is_trusted cands with
          | Some t => Some t
          | None => head cands
          end
      end
  ∧ ((∀ e e', In e sorted_prod_versions → In e' sorted_prod_versions →
              version e = version e' → version e ≠ exclude_version →
              tag e = QUARANTINE_TAG → tag e' = QUARANTINE_TAG) →
     pick_next_latest sorted_prod_versions exclude_version
     = pickSuccessor sorted_prod_versions exclude_version).
Proof.
  rewrite pick_next_latest_eq. split; [|split; [|split]].
  - apply pick_of_leading_version_Some.
  - apply pick_of_leading_version_None.
  - reflexivity.
  - apply pick_of_leading_version_spec.
Qed.

Lemma pick_next_latest_selects_successor_witness :
  let l := [ mkEntry "2.0.0" "latest" "RELEASED";
             mkEntry "1.5.0" "quarantine" "TRUSTED_RELEASE";
             mkEntry "1.5.0" "" "RELEASED";
             mkEntry "1.5.0" "stable" "TRUSTED_RELEASE";
             mkEntry "1.0.0" "" "TRUSTED_RELEASE" ] in
  pick_next_latest l "2.0.0" = Some (mkEntry "1.5.0" "stable" "TRUSTED_RELEASE")
  ∧ In (mkEntry "1.5.0" "stable" "TRUSTED_RELEASE") l
  ∧ "1.5.0" ≠ "2.0.0" ∧ "stable" ≠ QUARANTINE_TAG.
Proof.
  intros l.
  assert (pick_next_latest l "2.0.0"
          = Some (mkEntry "1.5.0" "stable" "TRUSTED_RELEASE")) as H
    by (vm_compute; reflexivity).
  split; [exact H|].
  exact (proj1 (pick_next_latest_selects_successor l "2.0.0") _ H).
Defined.

(** C3 as stated fails on what [get_prod_versions] makes of [nightly_twice],
    with 2.0.0 excluded: the entries that survive the two exclusions are
    those of "edge" and of "nightly", in this order, so the highest-ranked
    surviving version string is "edge" and [pickSuccessor] is its entry;
    [pick_next_latest] returns the entry of "nightly", whose version string
    a quarantined entry brought to the front. *)
Lemma pick_next_latest_selects_successor_counterexample :
  let l := rank_prod_versions nightly_twice in
  l = [ mkEntry "2.0.0" "latest" "RELEASED";
        mkEntry "nightly" "quarantine" "RELEASED";
        mkEntry "edge" "" "RELEASED";
        mkEntry "nightly" "" "RELEASED" ]
  ∧ survivors l "2.0.0" = [ mkEntry "edge" "" "RELEASED";
                            mkEntry "nightly" "" "RELEASED" ]
  ∧ pickSuccessor l "2.0.0" = Some (mkEntry "edge" "" "RELEASED")
  ∧ pick_next_latest l "2.0.0" = Some (mkEntry "nightly" "" "RELEASED")
  ∧ pick_next_latest l "2.0.0" ≠ pickSuccessor l "2.0.0".
Proof.
  intros l.
  assert (pickSuccessor l "2.0.0" = Some (mkEntry "edge" "" "RELEASED")) as Hs
    by (vm_compute; reflexivity).
  assert (pick_next_latest l "2.0.0" = Some (mkEntry "nightly" "" "RELEASED"))
    as Hp by (vm_compute; reflexivity).
  split; [vm_compute; reflexivity|].
  split; [vm_compute; reflexivity|].
  split; [exact Hs|]. split; [exact Hp|].
  rewrite Hs, Hp. discriminate.
Qed.

(** ** The runs of [rollback_in_prod], case by case *)

Ltac exec :=
  cbv [run rollback_in_prod get_prod_versions list_application_versions
       patch_application_version rollback_application_version
       backup_tag_then_patch _request mbind M_bind mret M_ret raise
       try_except print];
  cbn [remote calls stdout fails held demote fst snd negb app].

Lemma remote_eta rm : mkRemote (held rm) (fails rm) (demote rm) = rm.
Proof. destruct rm; reflexivity. Qed.

Ltac step :=
  cbn [answer effect fails remote calls stdout app held demote fst snd].

Lemma run_real rm app_key target_version :
  run rm app_key target_version false = real_run rm app_key target_version.
Proof.
  unfold real_run, resolve, ranked, listing, quarantine_patch, latest_patch.
  exec.
  destruct (fails rm (ListVersions app_key 1000)); [reflexivity|]. step.
  destruct (dict_of _ !! target_version) as [target|]; [|reflexivity]. step.
  destruct (fails rm (RollbackVersion app_key target_version "PROD"));
    [reflexivity|]. step.
  destruct (fails rm (PatchVersion app_key target_version _ _ _));
    [reflexivity|]. step.
  destruct (tag target =? LATEST_TAG)%string; [|reflexivity].
  destruct (pick_next_latest _ target_version) as [cand|]; [|reflexivity].
  step.
  destruct (fails rm (PatchVersion app_key (version cand) _ _ _));
    reflexivity.
Qed.

Lemma run_dry rm app_key target_version :
  run rm app_key target_version true = dry_run rm app_key target_version.
Proof.
  unfold dry_run, resolve, ranked, listing.
  exec.
  destruct (fails rm (ListVersions app_key 1000)); [reflexivity|]. step.
  destruct (dict_of _ !! target_version) as [target|]; [|reflexivity]. step.
  destruct (tag target =? LATEST_TAG)%string; [|reflexivity].
  destruct (pick_next_latest _ target_version) as [cand|]; reflexivity.
Qed.

(** [by_version] keeps, of the entries of one version string, the last. *)
Lemma by_version_last (l : list Entry) ver :
  dict_of (map (λ v, (version v, v)) l) !! ver
  = last (List.filter (has_version ver) l).
Proof.
  induction l as [|e l IH] using rev_ind; [apply lookup_empty|].
  rewrite map_app, List.filter_app. cbn [map List.filter].
  rewrite dict_of_snoc, lookup_insert. cbn [fst snd].
  unfold has_version at 2.
  destruct (String.eqb_spec (version e) ver) as [E|E].
  - rewrite decide_True by exact E. rewrite last_snoc. reflexivity.
  - rewrite decide_False by exact E. rewrite app_nil_r. exact IH.
Qed.

Lemma resolve_last rm target_version :
  resolve rm target_version
  = last (List.filter (has_version target_version) (ranked rm)).
Proof. apply by_version_last. Qed.

Lemma last_In {A} (l : list A) x : last l = Some x → In x l.
Proof.
  intros H. apply list_elem_of_In. apply last_Some in H as [l' ->].
  apply elem_of_app. right. constructor.
Qed.

Lemma resolve_Some rm target_version t :
  resolve rm target_version = Some t →
  In t (ranked rm) ∧ version t = target_version.
Proof.
  rewrite resolve_last. intros H. apply last_In in H.
  apply List.filter_In in H as [Hin Hv]. split; [exact Hin|].
  apply String.eqb_eq. exact Hv.
Qed.

Lemma resolve_None rm target_version :
  resolve rm target_version = None
  ↔ ∀ e, In e (ranked rm) → version e ≠ target_version.
Proof.
  rewrite resolve_last, last_None. split.
  - intros H e He Hv.
    assert (In e (List.filter (has_version target_version) (ranked rm))) as Hin
      by (apply List.filter_In; split; [exact He | apply String.eqb_eq, Hv]).
    rewrite H in Hin. destruct Hin.
  - intros H.
    destruct (List.filter _ (ranked rm)) as [|e l] eqn:E; [reflexivity|].
    exfalso.
    assert (In e (List.filter (has_version target_version) (ranked rm))) as Hin
      by (rewrite E; left; reflexivity).
    apply List.filter_In in Hin as [He Hv].
    apply (H e He). apply String.eqb_eq. exact Hv.
Qed.

(** The ranked entries are the eligible versions the registry holds. *)
Lemma ranked_In rm e :
  In e (ranked rm)
  ↔ ∃ h, In h (held rm) ∧ held_eligible h = true
         ∧ e = normalize_entry (shown h).
Proof.
  unfold ranked. rewrite <- !list_elem_of_In.
  rewrite ranked_perm. unfold listing. cbn [resp_versions default].
  rewrite normalize_eq, list_elem_of_In, in_map_iff. split.
  - intros (r & <- & Hr). apply List.filter_In in Hr as [Hr He].
    apply in_map_iff in Hr as (h & <- & Hh). eauto.
  - intros (h & Hh & He & ->). exists (shown h). split; [reflexivity|].
    apply List.filter_In. split; [apply in_map; exact Hh | exact He].
Qed.

(** ** Dry run, ordering of the calls, the end-to-end scenario *)

Lemma ranked_fails_irrelevant hs f1 f2 d1 d2 :
  ranked (mkRemote hs f1 d1) = ranked (mkRemote hs f2 d2).
Proof. reflexivity. Qed.

(** C6: a dry run fetches the list and decides as a real run does (the target
    is validated against the eligible set, and the lines printed describe, in
    order, exactly the mutating calls a real run without failures would
    issue), but it issues no mutating call: the list call is its only call
    and the registry is as before. *)
Theorem dry_run_issues_no_mutating_call rm app_key target_version :
  let out := run rm app_key target_version true in
  calls (snd out) = [ListVersions app_key 1000]
  ∧ List.filter is_mutating (calls (snd out)) = []
  ∧ remote (snd out) = rm
  ∧ (fails rm (ListVersions app_key 1000) = false →
     (fst out = inl (TargetNotFound target_version)
      ↔ ∀ e, In e (ranked rm) → version e ≠ target_version)
     ∧ omap described (stdout (snd out))
       = List.filter is_mutating
           (calls (snd (run (mkRemote (held rm) never_fails (demote rm))
                          app_key target_version false)))).
Proof.
  intros out. unfold out. rewrite run_dry, run_real.
  unfold dry_run, real_run.
  rewrite <- resolve_None.
  change (resolve (mkRemote (held rm) never_fails (demote rm)) target_version)
    with (resolve rm target_version).
  change (ranked (mkRemote (held rm) never_fails (demote rm)))
    with (ranked rm).
  cbn [fails never_fails].
  destruct (fails rm (ListVersions app_key 1000)) eqn:EL.
  { cbn. repeat split; discriminate. }
  destruct (resolve rm target_version) as [t|] eqn:Er.
  2:{ cbn. repeat split; intros; reflexivity. }
  destruct (tag t =? LATEST_TAG)%string.
  - destruct (pick_next_latest (ranked rm) target_version) as [c|];
      cbn; (repeat split; try reflexivity; try discriminate).
  - cbn. repeat split; try reflexivity; discriminate.
Qed.

Lemma dry_run_issues_no_mutating_call_witness :
  let rm := mkRemote scenario never_fails id in
  let out := run rm "app" "2.0.0" true in
  calls (snd out) = [ListVersions "app" 1000]
  ∧ remote (snd out) = rm
  ∧ omap described (stdout (snd out))
    = [ RollbackVersion "app" "2.0.0" "PROD";
        PatchVersion "app" "2.0.0" (Some "quarantine")
          (Some {[ "original_tag_before_quarantine" := ["latest"] ]}) None;
        PatchVersion "app" "1.5.0" (Some "latest")
          (Some {[ "original_tag_before_latest" := [""] ]}) None ].
Proof.
  intros rm out.
  destruct (dry_run_issues_no_mutating_call rm "app" "2.0.0")
    as (Hc & _ & Hr & Hd).
  split; [exact Hc|]. split; [exact Hr|].
  destruct (Hd eq_refl) as [_ Hs].
  etransitivity; [exact Hs|]. vm_compute. reflexivity.
Defined.

(** C7: in a run that is not dry no tag-patch is issued unless the list call
    succeeded, the target is in the eligible set and the stage rollback, from
    PROD, succeeded, and these two calls come first; when the target is
    absent the run aborts after the list call, and when the stage rollback
    fails it aborts after that call, in both cases with the registry
    unchanged. *)
Theorem no_patch_before_validation_and_rollback rm app_key target_version :
  let out := run rm app_key target_version false in
  let L := ListVersions app_key 1000 in
  let R := RollbackVersion app_key target_version "PROD" in
  (∀ r, In r (calls (snd out)) → is_patch r = true →
        fails rm L = false
        ∧ (∃ e, In e (ranked rm) ∧ version e = target_version)
        ∧ fails rm R = false
        ∧ ∃ rest, calls (snd out) = L :: R :: rest
                  ∧ Forall (λ p, is_patch p = true) rest)
  ∧ (fails rm L = false →
     (∀ e, In e (ranked rm) → version e ≠ target_version) →
     fst out = inl (TargetNotFound target_version)
     ∧ calls (snd out) = [L] ∧ remote (snd out) = rm)
  ∧ (fails rm L = false →
     (∃ e, In e (ranked rm) ∧ version e = target_version) →
     fails rm R = true →
     fst out = inl (RollbackCallFailed (TransportError R))
     ∧ calls (snd out) = [L; R] ∧ remote (snd out) = rm)
  ∧ (∀ a v stage, In (RollbackVersion a v stage) (calls (snd out)) →
                  stage = "PROD").
Proof.
  intros out L R. unfold out, L, R. rewrite run_real. unfold real_run.
  assert (∀ t, resolve rm target_version = Some t →
               ∃ e, In e (ranked rm) ∧ version e = target_version) as Hres.
  { intros t Ht. exists t. apply resolve_Some. exact Ht. }
  assert ((∃ e, In e (ranked rm) ∧ version e = target_version) →
          resolve rm target_version ≠ None) as Hres'.
  { intros (e & He & Hv) Hn. rewrite resolve_None in Hn. exact (Hn e He Hv). }
  rewrite <- resolve_None.
  unfold quarantine_patch, latest_patch.
  destruct (fails rm (ListVersions app_key 1000)) eqn:EL.
  { cbn [fst snd calls remote]. split; [|split; [|split]].
    - intros r [<-|[]] Hp. discriminate Hp.
    - intros H. discriminate H.
    - intros H. discriminate H.
    - intros a v stage [H|[]]. discriminate H. }
  destruct (resolve rm target_version) as [t|] eqn:Er.
  2:{ cbn [fst snd calls remote]. split; [|split; [|split]].
      - intros r [<-|[]] Hp. discriminate Hp.
      - intros _ _. auto.
      - intros _ He. exfalso. apply (Hres' He). reflexivity.
      - intros a v stage [H|[]]. discriminate H. }
  specialize (Hres t eq_refl).
  destruct (fails rm (RollbackVersion app_key target_version "PROD")) eqn:ER.
  { cbn [fst snd calls remote]. split; [|split; [|split]].
    - intros r [<-|[<-|[]]] Hp; discriminate Hp.
    - intros _ H. discriminate H.
    - intros _ _ _. auto.
    - intros a v stage [H|[H|[]]]; [discriminate H | congruence]. }
  assert (∀ (res : exn + ()) (st : State) (rest : list request),
            calls st = ListVersions app_key 1000
                       :: RollbackVersion app_key target_version "PROD" :: rest →
            Forall (λ p, is_patch p = true) rest →
            let out := (res, st) in
            (∀ r, In r (calls (snd out)) → is_patch r = true →
                  false = false
                  ∧ (∃ e, In e (ranked rm) ∧ version e = target_version)
                  ∧ false = false
                  ∧ ∃ rest, calls (snd out)
                            = ListVersions app_key 1000
                              :: RollbackVersion app_key target_version "PROD"
                              :: rest
                            ∧ Forall (λ p, is_patch p = true) rest)
            ∧ (false = false → Some t = None →
               fst out = inl (TargetNotFound target_version)
               ∧ calls (snd out) = [ListVersions app_key 1000]
               ∧ remote (snd out) = rm)
            ∧ (false = false →
               (∃ e, In e (ranked rm) ∧ version e = target_version) →
               false = true →
               fst out = inl (RollbackCallFailed
                                (TransportError
                                   (RollbackVersion app_key target_version "PROD")))
               ∧ calls (snd out)
                 = [ListVersions app_key 1000;
                    RollbackVersion app_key target_version "PROD"]
               ∧ remote (snd out) = rm)
            ∧ (∀ a v stage, In (RollbackVersion a v stage) (calls (snd out)) →
                            stage = "PROD")) as Hgen.
  { intros res st rest Hc Hp. cbn [fst snd]. rewrite Hc.
    split; [|split; [|split]].
    - intros r _ _. eauto 10.
    - intros _ H. discriminate H.
    - intros _ _ H. discriminate H.
    - intros a v stage [H|[H|H]]; [discriminate H | congruence |].
      rewrite List.Forall_forall in Hp. apply Hp in H. discriminate H. }
  destruct (fails rm (PatchVersion app_key target_version _ _ _)).
  { eapply Hgen; [reflexivity | repeat constructor]. }
  destruct (tag t =? LATEST_TAG)%string.
  2:{ eapply Hgen; [reflexivity | repeat constructor]. }
  destruct (pick_next_latest (ranked rm) target_version) as [c|].
  2:{ eapply Hgen; [reflexivity | repeat constructor]. }
  destruct (fails rm (PatchVersion app_key (version c) _ _ _));
    (eapply Hgen; [reflexivity | repeat constructor]).
Qed.

Lemma no_patch_before_validation_and_rollback_witness :
  let out := run (mkRemote scenario fails_rollback id) "app" "2.0.0" false in
  fst out = inl (RollbackCallFailed
                   (TransportError (RollbackVersion "app" "2.0.0" "PROD")))
  ∧ calls (snd out)
    = [ListVersions "app" 1000; RollbackVersion "app" "2.0.0" "PROD"]
  ∧ remote (snd out) = mkRemote scenario fails_rollback id.
Proof.
  intros out.
  apply (proj1 (proj2 (proj2
           (no_patch_before_validation_and_rollback
              (mkRemote scenario fails_rollback id) "app" "2.0.0")))).
  - reflexivity.
  - exists (mkEntry "2.0.0" "latest" "RELEASED"). split.
    + vm_compute. left. reflexivity.
    + reflexivity.
  - reflexivity.
Defined.

(** C8: on the registry holding 2.0.0 (latest, RELEASED), 1.5.0 (no tag,
    TRUSTED_RELEASE) and 1.0.0 (quarantine, RELEASED), rolling back 2.0.0
    invokes the stage rollback of 2.0.0 from PROD, patches 2.0.0 to
    "quarantine" with its prior tag "latest" under the quarantine backup key,
    selects 1.5.0 (1.0.0 being quarantined) and patches it to "latest" with
    its prior tag "" under the latest backup key. *)
Theorem scenario_end_to_end app_key (dm : json_field → json_field) :
  let rm := mkRemote scenario never_fails dm in
  let out := run rm app_key "2.0.0" false in
  fst out = inr ()
  ∧ calls (snd out)
    = [ ListVersions app_key 1000;
        RollbackVersion app_key "2.0.0" "PROD";
        PatchVersion app_key "2.0.0" (Some QUARANTINE_TAG)
          (Some {[ BACKUP_BEFORE_QUARANTINE := [LATEST_TAG] ]}) None;
        PatchVersion app_key "1.5.0" (Some LATEST_TAG)
          (Some {[ BACKUP_BEFORE_LATEST := [""] ]}) None ]
  ∧ pick_next_latest (ranked rm) "2.0.0"
    = Some (mkEntry "1.5.0" "" TRUSTED)
  ∧ map (λ h, (held_version h, held_tag h, props_of h)) (held (remote (snd out)))
    = [ ("2.0.0", QUARANTINE_TAG, {[ BACKUP_BEFORE_QUARANTINE := [LATEST_TAG] ]});
        ("1.5.0", LATEST_TAG, {[ BACKUP_BEFORE_LATEST := [""] ]});
        ("1.0.0", QUARANTINE_TAG, ∅) ].
Proof.
  intros rm out. unfold out, rm. rewrite run_real.
  assert (ranked (mkRemote scenario never_fails dm)
          = [ mkEntry "2.0.0" "latest" "RELEASED";
              mkEntry "1.5.0" "" "TRUSTED_RELEASE";
              mkEntry "1.0.0" "quarantine" "RELEASED" ]) as Hr
    by (vm_compute; reflexivity).
  assert (resolve (mkRemote scenario never_fails dm) "2.0.0"
          = Some (mkEntry "2.0.0" "latest" "RELEASED")) as Ht
    by (unfold resolve; rewrite Hr; vm_compute; reflexivity).
  assert (pick_next_latest (ranked (mkRemote scenario never_fails dm)) "2.0.0"
          = Some (mkEntry "1.5.0" "" "TRUSTED_RELEASE")) as Hp
    by (rewrite Hr; vm_compute; reflexivity).
  unfold real_run. rewrite Ht, Hp. cbn [fails never_fails tag].
  split; [reflexivity|]. split; [reflexivity|]. split; [reflexivity|].
  vm_compute. reflexivity.
Qed.

(** C10: the target resolves to the last entry of its version string in
    ranked order, because [by_version] keeps the last duplicate; the tag the
    quarantine patch records as prior, and the test whether the target held
    "latest", are those of that last entry. *)
Theorem target_resolves_to_last_duplicate rm app_key target_version t :
  last (List.filter (has_version target_version) (ranked rm)) = Some t →
  (∀ r, fails rm r = false) →
  resolve rm target_version = Some t
  ∧ calls (snd (run rm app_key target_version false))
    = [ ListVersions app_key 1000;
        RollbackVersion app_key target_version "PROD";
        PatchVersion app_key target_version (Some QUARANTINE_TAG)
          (Some {[ BACKUP_BEFORE_QUARANTINE := [tag t] ]}) None ]
      ++ (if (tag t =? LATEST_TAG)%string
          then match pick_next_latest (ranked rm) target_version with
               | Some cand => [latest_patch app_key cand]
               | None => []
               end
          else []).
Proof.
  intros Hlast Hf.
  assert (resolve rm target_version = Some t) as Hr
    by (rewrite resolve_last; exact Hlast).
  split; [exact Hr|].
  rewrite run_real. unfold real_run. rewrite Hr, !Hf.
  destruct (tag t =? LATEST_TAG)%string; [|reflexivity].
  destruct (pick_next_latest (ranked rm) target_version) as [c|];
    [|reflexivity].
  rewrite Hf. reflexivity.
Qed.

Lemma target_resolves_to_last_duplicate_witness :
  let rm := mkRemote duplicated never_fails id in
  resolve rm "2.0.0" = Some (mkEntry "2.0.0" "stable" "RELEASED")
  ∧ calls (snd (run rm "app" "2.0.0" false))
    = [ ListVersions "app" 1000;
        RollbackVersion "app" "2.0.0" "PROD";
        PatchVersion "app" "2.0.0" (Some QUARANTINE_TAG)
          (Some {[ BACKUP_BEFORE_QUARANTINE := ["stable"] ]}) None ].
Proof.
  intros rm.
  apply (target_resolves_to_last_duplicate rm "app" "2.0.0"
           (mkEntry "2.0.0" "stable" "RELEASED")).
  - vm_compute. reflexivity.
  - reflexivity.
Defined.

(** ** Unparsable versions *)

(** C9: [get_prod_versions] keeps the eligible entries whose version string
    does not parse: in a response of at most [10**9] entries (the script asks
    for 1000) they come after every entry that parses, through the default
    sort key, in their relative order; so a target whose version string does
    not parse but whose status is eligible is found by [rollback_in_prod],
    which does not abort with "not found". *)
Theorem unparsable_versions_are_kept_last :
  (∀ resp,
      (Z.of_nat (List.length (default [] (resp_versions resp))) ≤ DEFAULT_KEY)%Z →
      let eligible :=
        map normalize_entry
          (List.filter raw_eligible (default [] (resp_versions resp))) in
      let ranked := rank_prod_versions resp in
      List.filter (λ e, negb (parsable e)) ranked
      = List.filter (λ e, negb (parsable e)) eligible
      ∧ ranked = List.filter parsable ranked
                 ++ List.filter (λ e, negb (parsable e)) ranked)
  ∧ (∀ rm app_key target_version dry h,
        fails rm (ListVersions app_key 1000) = false →
        In h (held rm) → held_version h = target_version →
        held_eligible h = true → SemVer_parse target_version = None →
        is_Some (resolve rm target_version)
        ∧ fst (run rm app_key target_version dry)
          ≠ inl (TargetNotFound target_version)).
Proof.
  split.
  - intros resp Hlen eligible rk. unfold eligible, rk. split.
    + rewrite <- normalize_eq. apply ranked_stable.
      intros a b Ha Hb. unfold parsable in Ha, Hb.
      destruct (SemVer_parse (version a)) eqn:Ea; [discriminate|].
      destruct (SemVer_parse (version b)) eqn:Eb; [discriminate|].
      pose proof (key_unparsable resp a Ea) as Ka.
      pose proof (key_unparsable resp b Eb) as Kb.
      cbv beta in Ka, Kb. rewrite Ka, Kb. reflexivity.
    + apply ranked_unparsable_last. exact Hlen.
  - intros rm app_key target_version dry h Hf Hh Hv He Hp.
    assert (is_Some (resolve rm target_version)) as Hs.
    { destruct (resolve rm target_version) as [t|] eqn:Er; [eauto|].
      exfalso. rewrite resolve_None in Er.
      apply (Er (normalize_entry (shown h))); [|exact Hv].
      apply ranked_In. eauto. }
    split; [exact Hs|].
    destruct Hs as [t Ht].
    destruct dry; [rewrite run_dry | rewrite run_real];
      unfold dry_run, real_run; rewrite Hf, Ht.
    + destruct (tag t =? LATEST_TAG)%string;
        [destruct (pick_next_latest _ _)|]; discriminate.
    + destruct (fails rm (RollbackVersion _ _ _)); [discriminate|].
      destruct (fails rm (quarantine_patch _ _ _)); [discriminate|].
      destruct (tag t =? LATEST_TAG)%string; [|discriminate].
      destruct (pick_next_latest _ _); [|discriminate].
      destruct (fails rm (latest_patch _ _)); discriminate.
Qed.

Lemma unparsable_versions_are_kept_last_witness :
  let rm := mkRemote with_nightly never_fails id in
  (rank_prod_versions (listing rm)
   = List.filter parsable (rank_prod_versions (listing rm))
     ++ [ mkEntry "nightly" "latest" "RELEASED";
          mkEntry "edge" "" "TRUSTED_RELEASE" ])
  ∧ is_Some (resolve rm "nightly")
  ∧ fst (run rm "app" "nightly" false) ≠ inl (TargetNotFound "nightly").
Proof.
  intros rm.
  destruct unparsable_versions_are_kept_last as [H1 H2].
  split.
  - destruct (H1 (listing rm)) as [Hk Hl]; [vm_compute; discriminate|].
    etransitivity; [exact Hl|]. f_equal.
  - apply (H2 rm "app" "nightly" false
             (mkHeld (mkRaw (Value "nightly") (Value "latest") (Value "released")) ∅));
      [reflexivity | left; reflexivity | reflexivity | reflexivity | reflexivity].
Defined.

(** ** The "latest" tag after a run *)

Section Counting.
Context {A : Type}.



End Counting.

Lemma NoDup_map_inj {A B} (f : A → B) l a b :
  NoDup (map f l) → In a l → In b l → f a = f b → a = b.
Proof.
  induction l as [|x l IH]; intros Hnd Ha Hb Hf; [destruct Ha|].
  cbn [map] in Hnd. apply NoDup_cons in Hnd as [Hx Hnd].
  destruct Ha as [<-|Ha], Hb as [<-|Hb]; auto.
  - exfalso. apply Hx. rewrite Hf. apply list_elem_of_In, in_map, Hb.
  - exfalso. apply Hx. rewrite <- Hf. apply list_elem_of_In, in_map, Ha.
Qed.








#[local] Arguments String.append !s1 s2 : simpl nomatch.

(** ** [SEMVER_RE_match] decides [SEMVER_RE] and finds its captures *)

Ltac by_char c :=
  destruct c as [[] [] [] [] [] [] [] []]; vm_compute; intuition congruence.

Lemma space_class c :
  is_space c = true →
  is_decimal c = false ∧ (code c =? 118)%N = false ∧ (code c =? 45)%N = false
  ∧ (code c =? 43)%N = false ∧ class_or_dot c = false.
Proof. by_char c. Qed.

Lemma decimal_class c :
  is_decimal c = true →
  is_space c = false ∧ (code c =? 118)%N = false ∧ is_ident_char c = true
  ∧ is_dot c = false.
Proof. by_char c. Qed.

Lemma dot_class c :
  is_dot c = true →
  c = "."%char ∧ is_decimal c = false ∧ is_ident_char c = false.
Proof. by_char c. Qed.

Lemma v_class c : (code c =? 118)%N = true → is_space c = false.
Proof. by_char c. Qed.

Lemma hyphen_class c : (code c =? 45)%N = true → is_decimal c = false.
Proof. by_char c. Qed.

Lemma plus_class c :
  (code c =? 43)%N = true →
  is_decimal c = false ∧ class_or_dot c = false ∧ (code c =? 45)%N = false.
Proof. by_char c. Qed.

Lemma zero_decimal c : (code c =? 48)%N = true → is_decimal c = true.
Proof. by_char c. Qed.

Lemma nonzero_decimal c : is_nonzero_decimal c = true → is_decimal c = true.
Proof. by_char c. Qed.

Lemma decimal_zero_or_nonzero c :
  is_decimal c = true → is_nonzero_decimal c = false → (code c =? 48)%N = true.
Proof. by_char c. Qed.

Lemma ident_not_dot c : is_ident_char c = true → is_dot c = false.
Proof. by_char c. Qed.

Lemma app_empty_r s : s +:+ "" = s.
Proof. induction s as [|c s IH]; simpl; [reflexivity | f_equal; exact IH]. Qed.

Lemma app_assoc_str a b c : (a +:+ b) +:+ c = a +:+ (b +:+ c).
Proof. induction a as [|x a IH]; simpl; [reflexivity | f_equal; exact IH]. Qed.

Lemma str_all_app p a b :
  str_all p (a +:+ b) = str_all p a && str_all p b.
Proof.
  induction a as [|c a IH]; simpl; [reflexivity|].
  rewrite IH, andb_assoc. reflexivity.
Qed.

Lemma span_app p a b :
  str_all p a = true → starts_outside p b = true → span p (a +:+ b) = (a, b).
Proof.
  induction a as [|c a IH]; simpl.
  - intros _ Hb. destruct b as [|c b]; [reflexivity|].
    simpl in *. apply negb_true_iff in Hb. rewrite Hb. reflexivity.
  - rewrite andb_true_iff. intros [Hc Ha] Hb. rewrite Hc, (IH Ha Hb).
    reflexivity.
Qed.

Lemma span_eq p s a b :
  span p s = (a, b) →
  s = a +:+ b ∧ str_all p a = true ∧ starts_outside p b = true.
Proof.
  revert a b. induction s as [|c s IH]; intros a b; simpl.
  - intros [= <- <-]. auto.
  - destruct (p c) eqn:Pc.
    + destruct (span p s) as [a' b'] eqn:E. intros [= <- <-].
      destruct (IH a' b' eq_refl) as (-> & Ha & Hb).
      simpl. rewrite Pc, Ha. auto.
    + intros [= <- <-]. simpl. rewrite Pc. auto.
Qed.

Lemma m_seq_eq r1 r2 s1 s2 c1 c2 s c :
  matches r1 s1 c1 → matches r2 s2 c2 → s = s1 +:+ s2 → c = c1 ++ c2 →
  matches (Seq r1 r2) s c.
Proof. intros H1 H2 -> ->. apply m_seq; assumption. Qed.

Lemma seq_inv r1 r2 s c :
  matches (Seq r1 r2) s c →
  ∃ s1 s2 c1 c2, s = s1 +:+ s2 ∧ c = c1 ++ c2
                 ∧ matches r1 s1 c1 ∧ matches r2 s2 c2.
Proof. inversion 1; subst. eauto 10. Qed.

Lemma alt_inv r1 r2 s c :
  matches (Alt r1 r2) s c → matches r1 s c ∨ matches r2 s c.
Proof. inversion 1; subst; auto. Qed.

Lemma chr_inv p s c :
  matches (Chr p) s c → ∃ x, s = String x "" ∧ c = [] ∧ p x = true.
Proof. inversion 1; subst. eauto. Qed.

Lemma eps_inv s c : matches Eps s c → s = "" ∧ c = [].
Proof. inversion 1; subst. auto. Qed.

Lemma grp_inv name r s c :
  matches (Grp name r) s c → ∃ c', c = (name, s) :: c' ∧ matches r s c'.
Proof. inversion 1; subst. eauto. Qed.

Lemma star_class p s c :
  matches (Star (Chr p)) s c → str_all p s = true ∧ c = [].
Proof.
  intros H. remember (Star (Chr p)) as r eqn:Er.
  induction H; try discriminate Er.
  - auto.
  - injection Er as ->. apply chr_inv in H as (x & -> & -> & Px).
    destruct (IHmatches2 eq_refl) as [Hs ->].
    simpl. rewrite Px, Hs. auto.
Qed.

Lemma class_star p s : str_all p s = true → matches (Star (Chr p)) s [].
Proof.
  induction s as [|c s IH]; simpl; [constructor|].
  rewrite andb_true_iff. intros [Hc Hs].
  apply (m_star_cons (Chr p) (String c "") s [] []); [constructor|]; auto.
Qed.

Lemma numeric_matches s c :
  matches NUMERIC s c ↔ numeric_shape s = true ∧ c = [].
Proof.
  unfold NUMERIC, lit. split.
  - intros H. apply alt_inv in H as [H|H].
    + apply chr_inv in H as (x & -> & -> & Hx). split; [|reflexivity].
      simpl. apply zero_decimal. exact Hx.
    + apply seq_inv in H as (s1 & s2 & c1 & c2 & -> & -> & H1 & H2).
      apply chr_inv in H1 as (x & -> & -> & Hx).
      apply star_class in H2 as [Hs ->]. split; [|reflexivity].
      simpl. destruct s2 as [|d s2]; [apply nonzero_decimal; exact Hx|].
      rewrite Hx. simpl in *. rewrite Hs, (nonzero_decimal x Hx).
      reflexivity.
  - intros [H ->]. destruct s as [|x [|d s]]; try discriminate H.
    + simpl in H. destruct (is_nonzero_decimal x) eqn:Nx.
      * apply m_alt_r.
        apply (m_seq (Chr is_nonzero_decimal) _ (String x "") "" [] []);
          constructor. exact Nx.
      * apply m_alt_l. constructor. apply decimal_zero_or_nonzero; assumption.
    + cbn [numeric_shape] in H. rewrite andb_true_iff in H.
      destruct H as [Nx Hs].
      change (str_all is_decimal (String x (String d s)))
        with (is_decimal x && str_all is_decimal (String d s)) in Hs.
      rewrite andb_true_iff in Hs. destruct Hs as [_ Hs].
      apply m_alt_r.
      apply (m_seq (Chr is_nonzero_decimal) _ (String x "") (String d s) [] []);
        [constructor; exact Nx | apply class_star; exact Hs].
Qed.

Lemma identifier_matches s c :
  matches IDENTIFIER s c ↔ identifier_shape s = true ∧ c = [].
Proof.
  unfold IDENTIFIER. split.
  - intros H. unfold identifier_shape. apply alt_inv in H as [H|H].
    + assert (matches NUMERIC s c) as Hn by (apply m_alt_l; exact H).
      apply numeric_matches in Hn as [-> ->]. auto.
    + apply alt_inv in H as [H|H].
      * assert (matches NUMERIC s c) as Hn by (apply m_alt_r; exact H).
        apply numeric_matches in Hn as [-> ->]. auto.
      * apply seq_inv in H as (s1 & s2 & c1 & c2 & -> & -> & H1 & H2).
        apply chr_inv in H1 as (x & -> & -> & Hx).
        apply star_class in H2 as [Hs ->]. split; [|reflexivity].
        simpl append. cbv iota. rewrite Hx, Hs. apply orb_true_r.
  - intros [H ->]. unfold identifier_shape in H.
    apply orb_true_iff in H as [H|H].
    + assert (matches NUMERIC s []) as Hn by (apply numeric_matches; auto).
      apply alt_inv in Hn as [Hn|Hn];
        [apply m_alt_l | apply m_alt_r, m_alt_l]; exact Hn.
    + destruct s as [|x s]; [discriminate H|].
      apply andb_true_iff in H as [Hx Hs].
      apply m_alt_r, m_alt_r.
      apply (m_seq (Chr is_letter_or_hyphen) _ (String x "") s [] []);
        [constructor; exact Hx | apply class_star; exact Hs].
Qed.

Lemma segment_matches s c :
  matches SEGMENT s c ↔ build_segment_shape s = true ∧ c = [].
Proof.
  unfold SEGMENT. split.
  - intros H. apply seq_inv in H as (s1 & s2 & c1 & c2 & -> & -> & H1 & H2).
    apply chr_inv in H1 as (x & -> & -> & Hx).
    apply star_class in H2 as [Hs ->]. split; [|reflexivity].
    simpl. rewrite Hx, Hs. reflexivity.
  - intros [H ->]. destruct s as [|x s]; [discriminate H|].
    simpl in H. apply andb_true_iff in H as [Hx Hs].
    apply (m_seq (Chr is_ident_char) _ (String x "") s [] []);
      [constructor; exact Hx | apply class_star; exact Hs].
Qed.

Lemma str_all_impl (p q : ascii → bool) s :
  (∀ c, p c = true → q c = true) → str_all p s = true → str_all q s = true.
Proof.
  intros H. induction s as [|c s IH]; simpl; [reflexivity|].
  rewrite !andb_true_iff. intros [Hc Hs]. auto.
Qed.

Lemma identifier_shape_class s :
  identifier_shape s = true → str_all is_ident_char s = true.
Proof.
  unfold identifier_shape. rewrite orb_true_iff. intros [H|H].
  - apply numeric_shape_decimal in H as [H _].
    revert H. apply str_all_impl. intros c Hc. apply decimal_class. exact Hc.
  - destruct s as [|x s]; [discriminate H|].
    apply andb_true_iff in H as [Hx Hs]. simpl.
    unfold is_ident_char at 1. rewrite Hx, orb_true_r. exact Hs.
Qed.

Lemma build_segment_shape_class s :
  build_segment_shape s = true → str_all is_ident_char s = true.
Proof. destruct s; [discriminate | auto]. Qed.

Lemma split_dotless s :
  str_all is_ident_char s = true → split is_dot s = [s].
Proof.
  induction s as [|c s IH]; simpl; [reflexivity|].
  rewrite andb_true_iff. intros [Hc Hs].
  rewrite (ident_not_dot c Hc), (IH Hs).
  reflexivity.
Qed.

Lemma split_app_dot a c r :
  str_all is_ident_char a = true → is_dot c = true →
  split is_dot (a +:+ String c r) = a :: split is_dot r.
Proof.
  intros Ha Hc. induction a as [|x a IH]; simpl.
  - rewrite Hc. reflexivity.
  - simpl in Ha. apply andb_true_iff in Ha as [Hx Ha].
    rewrite (ident_not_dot x Hx), (IH Ha).
    reflexivity.
Qed.

Lemma split_tail_dots raw :
  ∃ h t, split is_dot raw = h :: t ∧ raw = h +:+ tail_dots t.
Proof.
  induction raw as [|c r (h & t & Hs & Hr)]; simpl.
  - exists "", []. auto.
  - destruct (is_dot c) eqn:Hc.
    + apply dot_class in Hc as [-> _].
      exists "", (h :: t). rewrite Hs. simpl. rewrite <- Hr. auto.
    + rewrite Hs. exists (String c h), t. simpl. rewrite <- Hr. auto.
Qed.

Section Dotted.
Variable item : regex.
Variable shape : string → bool.
Hypothesis item_shape : ∀ s c, matches item s c ↔ shape s = true ∧ c = [].
Hypothesis shape_class : ∀ s, shape s = true → str_all is_ident_char s = true.

Lemma class_or_dot_ident s :
  str_all is_ident_char s = true → str_all class_or_dot s = true.
Proof.
  apply str_all_impl. intros c Hc. unfold class_or_dot. rewrite Hc.
  reflexivity.
Qed.

Lemma star_dots_inv rest c :
  matches (Star (Seq (Chr is_dot) item)) rest c →
  c = []
  ∧ ∀ x, shape x = true →
         forallb shape (split is_dot (x +:+ rest)) = true
         ∧ str_all class_or_dot (x +:+ rest) = true.
Proof.
  intros H. remember (Star (Seq (Chr is_dot) item)) as r eqn:Er.
  induction H; try discriminate Er.
  - split; [reflexivity|]. intros x Hx. rewrite app_empty_r.
    rewrite split_dotless by auto. simpl. rewrite Hx.
    auto using class_or_dot_ident.
  - injection Er as ->.
    destruct (IHmatches2 eq_refl) as [-> IH].
    apply seq_inv in H as (d & y & cd & cy & -> & -> & Hd & Hy).
    apply chr_inv in Hd as (dc & -> & -> & Hdc).
    apply item_shape in Hy as [Hy ->].
    split; [reflexivity|]. intros x Hx.
    simpl append. rewrite split_app_dot by auto.
    destruct (IH y Hy) as [Hf Hc].
    simpl. rewrite Hx, Hf. split; [reflexivity|].
    rewrite str_all_app. simpl. rewrite Hc.
    rewrite (class_or_dot_ident x) by auto.
    unfold class_or_dot at 1. rewrite Hdc, orb_true_r. reflexivity.
Qed.

Lemma dotted_inv s c :
  matches (dotted item) s c →
  c = [] ∧ forallb shape (split is_dot s) = true
  ∧ str_all class_or_dot s = true.
Proof.
  unfold dotted. intros H.
  apply seq_inv in H as (x & rest & cx & cr & -> & -> & Hx & Hr).
  apply item_shape in Hx as [Hx ->].
  apply star_dots_inv in Hr as [-> Hr]. split; [reflexivity|].
  apply Hr. exact Hx.
Qed.

Lemma star_tail_dots t :
  forallb shape t = true →
  matches (Star (Seq (Chr is_dot) item)) (tail_dots t) [].
Proof.
  induction t as [|x t IH]; simpl; [constructor|].
  rewrite andb_true_iff. intros [Hx Ht].
  apply (m_star_cons _ (String "." x) (tail_dots t) [] []); [|auto].
  apply (m_seq (Chr is_dot) item (String "." "") x [] []);
    [constructor; reflexivity | apply item_shape; auto].
Qed.

Lemma dotted_intro raw :
  forallb shape (split is_dot raw) = true → matches (dotted item) raw [].
Proof.
  destruct (split_tail_dots raw) as (h & t & -> & ->). simpl.
  rewrite andb_true_iff. intros [Hh Ht].
  apply (m_seq item _ h (tail_dots t) [] []);
    [apply item_shape; auto | apply star_tail_dots; exact Ht].
Qed.
End Dotted.

Lemma starts_outside_app p a b :
  starts_outside p (a +:+ b)
  = match a with
    | EmptyString => starts_outside p b
    | String c _ => negb (p c)
    end.
Proof. destruct a; reflexivity. Qed.

Lemma spaces_start_outside (p : ascii → bool) w :
  str_all is_space w = true →
  (∀ c, is_space c = true → p c = false) →
  starts_outside p w = true.
Proof.
  destruct w as [|c w]; [reflexivity|]. simpl.
  rewrite andb_true_iff. intros [Hc _] H. rewrite (H c Hc). reflexivity.
Qed.

Lemma numeric_shape_head s :
  numeric_shape s = true → ∃ c r, s = String c r ∧ is_decimal c = true.
Proof.
  intros H. apply numeric_shape_decimal in H as [H Hne].
  destruct s as [|c r]; [contradiction|].
  simpl in H. apply andb_true_iff in H as [Hc _]. eauto.
Qed.

Lemma scan_numeric_Some s ds r :
  scan_numeric s = Some (ds, r) → s = ds +:+ r ∧ numeric_shape ds = true.
Proof.
  unfold scan_numeric. destruct (span is_decimal s) as [a b] eqn:E.
  destruct (numeric_shape a) eqn:Ha; [|discriminate].
  intros [= <- <-]. apply span_eq in E as (-> & _ & _). auto.
Qed.

Lemma scan_numeric_app ds r :
  numeric_shape ds = true → starts_outside is_decimal r = true →
  scan_numeric (ds +:+ r) = Some (ds, r).
Proof.
  intros Hd Hr. unfold scan_numeric.
  rewrite span_app by (auto; apply numeric_shape_decimal; exact Hd).
  rewrite Hd. reflexivity.
Qed.

Lemma expect_Some p s r :
  expect p s = Some r → ∃ c, s = String c r ∧ p c = true.
Proof.
  destruct s as [|c s]; [discriminate|]. simpl.
  destruct (p c) eqn:Pc; [|discriminate]. intros [= <-]. eauto.
Qed.

Section Optional.
Variable intro : N.
Variable name : string.
Variable item : regex.
Variable shape : string → bool.
Hypothesis item_shape : ∀ s c, matches item s c ↔ shape s = true ∧ c = [].
Hypothesis shape_class : ∀ s, shape s = true → str_all is_ident_char s = true.

Let group : regex := opt (Seq (lit intro) (Grp name (dotted item))).

Lemma scan_optional_sound s o r :
  scan_optional intro shape s = Some (o, r) →
  ∃ P, s = P +:+ r ∧ matches group P (capture name o).
Proof.
  unfold scan_optional, scan_dotted.
  destruct s as [|c s].
  { intros [= <- <-]. exists "". split; [reflexivity|]. apply m_alt_r, m_eps. }
  destruct (code c =? intro)%N eqn:Ec.
  - destruct (span (λ c, is_ident_char c || is_dot c) s) as [raw r'] eqn:E.
    destruct (forallb shape (split is_dot raw)) eqn:Ef; [|discriminate].
    intros [= <- <-]. apply span_eq in E as (-> & _ & _).
    exists (String c raw). split; [reflexivity|].
    apply m_alt_l.
    apply (m_seq (lit intro) _ (String c "") raw [] [(name, raw)]);
      [constructor; exact Ec|].
    constructor. apply (dotted_intro item shape item_shape). exact Ef.
  - intros [= <- <-]. exists "". split; [reflexivity|].
    apply m_alt_r, m_eps.
Qed.

Lemma scan_optional_complete P caps r :
  matches group P caps →
  starts_outside class_or_dot r = true →
  starts_outside (λ c, (code c =? intro)%N) r = true →
  ∃ o, scan_optional intro shape (P +:+ r) = Some (o, r)
       ∧ caps = capture name o.
Proof.
  unfold group, opt, lit. intros H Hr Hi.
  apply alt_inv in H as [H|H].
  - apply seq_inv in H as (s1 & raw & c1 & c2 & -> & -> & H1 & H2).
    apply chr_inv in H1 as (c & -> & -> & Hc).
    apply grp_inv in H2 as (ci & -> & H2).
    apply (dotted_inv item shape item_shape shape_class) in H2
      as (-> & Hf & Hcl).
    exists (Some raw). split; [|reflexivity].
    simpl. rewrite Hc. unfold scan_dotted.
    rewrite (span_app (λ c, is_ident_char c || is_dot c) raw r Hcl Hr), Hf.
    reflexivity.
  - apply eps_inv in H as [-> ->]. exists None. split; [|reflexivity].
    simpl. unfold scan_optional. destruct r as [|c r]; [reflexivity|].
    simpl in Hi. apply negb_true_iff in Hi. rewrite Hi. reflexivity.
Qed.

(** The group is empty or starts with its introducing character. *)
Lemma optional_head P caps :
  matches group P caps →
  P = "" ∨ ∃ c r, P = String c r ∧ (code c =? intro)%N = true.
Proof.
  unfold group, opt, lit. intros H. apply alt_inv in H as [H|H].
  - apply seq_inv in H as (s1 & raw & c1 & c2 & -> & -> & H1 & H2).
    apply chr_inv in H1 as (c & -> & -> & Hc). right. eauto.
  - apply eps_inv in H as [-> _]. auto.
Qed.
End Optional.

(** If [SEMVER_RE_match] finds groups, the subject matches the pattern with
    these captures. *)
Theorem semver_re_sound version g :
  SEMVER_RE_match version = Some g → matches SEMVER_RE version (captures g).
Proof.
  unfold SEMVER_RE_match.
  destruct (span is_space version) as [w s0] eqn:Ew. cbn [snd].
  apply span_eq in Ew as (-> & Hw & _).
  assert (∃ v, s0 = v +:+ match s0 with
                          | String c r => if (code c =? 118)%N then r else s0
                          | EmptyString => s0
                          end
               ∧ matches (opt (lit 118)) v []) as (v & Hs0 & Hv).
  { destruct s0 as [|c r].
    - exists "". split; [reflexivity | apply m_alt_r, m_eps].
    - destruct (code c =? 118)%N eqn:Ec.
      + exists (String c ""). split; [reflexivity|].
        apply m_alt_l. constructor. exact Ec.
      + exists "". split; [reflexivity | apply m_alt_r, m_eps]. }
  set (s1 := match s0 with
             | String c r => if (code c =? 118)%N then r else s0
             | EmptyString => s0
             end) in *.
  clearbody s1. subst s0.
  destruct (scan_numeric s1) as [[ma s2]|] eqn:E1; simpl; [|discriminate].
  apply scan_numeric_Some in E1 as (-> & Hma).
  destruct (expect is_dot s2) as [s3|] eqn:E2; simpl; [|discriminate].
  apply expect_Some in E2 as (d1 & -> & Hd1).
  destruct (scan_numeric s3) as [[mi s4]|] eqn:E3; simpl; [|discriminate].
  apply scan_numeric_Some in E3 as (-> & Hmi).
  destruct (expect is_dot s4) as [s5|] eqn:E4; simpl; [|discriminate].
  apply expect_Some in E4 as (d2 & -> & Hd2).
  destruct (scan_numeric s5) as [[pa s6]|] eqn:E5; simpl; [|discriminate].
  apply scan_numeric_Some in E5 as (-> & Hpa).
  destruct (scan_optional 45 identifier_shape s6) as [[pre s7]|] eqn:E6;
    simpl; [|discriminate].
  apply (scan_optional_sound 45 "prerelease" IDENTIFIER identifier_shape
           identifier_matches) in E6 as (P & -> & HP).
  destruct (scan_optional 43 build_segment_shape s7) as [[build s8]|] eqn:E7;
    simpl; [|discriminate].
  apply (scan_optional_sound 43 "build" SEGMENT build_segment_shape
           segment_matches) in E7 as (B & -> & HB).
  destruct (str_all is_space s8) eqn:E8; [|discriminate].
  intros [= <-]. unfold SEMVER_RE, captures. cbn [g_major g_minor g_patch
    g_prerelease g_build].
  apply (m_seq _ _ w _ [] _); [apply class_star; exact Hw|].
  apply (m_seq _ _ v _ [] _); [exact Hv|].
  apply (m_seq _ _ ma _ [("major", ma)] _);
    [constructor; apply numeric_matches; auto|].
  apply (m_seq _ _ (String d1 "") _ [] _); [constructor; exact Hd1|].
  apply (m_seq _ _ mi _ [("minor", mi)] _);
    [constructor; apply numeric_matches; auto|].
  apply (m_seq _ _ (String d2 "") _ [] _); [constructor; exact Hd2|].
  apply (m_seq _ _ pa _ [("patch", pa)] _);
    [constructor; apply numeric_matches; auto|].
  apply (m_seq _ _ P _ (capture "prerelease" pre) _); [exact HP|].
  apply (m_seq_eq _ _ B s8 (capture "build" build) []);
    [exact HB | apply class_star; exact E8 | reflexivity |].
  rewrite app_nil_r. reflexivity.
Qed.

(** If the subject matches the pattern, with whatever captures,
    [SEMVER_RE_match] finds them: the match is unique. *)
Theorem semver_re_complete version caps :
  matches SEMVER_RE version caps →
  ∃ g, SEMVER_RE_match version = Some g ∧ caps = captures g.
Proof.
  unfold SEMVER_RE. intros H.
  apply seq_inv in H as (w & t0 & cw & c0 & -> & -> & Hw & H).
  apply star_class in Hw as [Hw ->].
  apply seq_inv in H as (v & t1 & cv & c1 & -> & -> & Hv & H).
  apply seq_inv in H as (ma & t2 & cma & c2 & -> & -> & Hma & H).
  apply grp_inv in Hma as (cma' & -> & Hma).
  apply numeric_matches in Hma as [Hma ->].
  apply seq_inv in H as (d1 & t3 & cd1 & c3 & -> & -> & Hd1 & H).
  apply chr_inv in Hd1 as (x1 & -> & -> & Hx1).
  apply seq_inv in H as (mi & t4 & cmi & c4 & -> & -> & Hmi & H).
  apply grp_inv in Hmi as (cmi' & -> & Hmi).
  apply numeric_matches in Hmi as [Hmi ->].
  apply seq_inv in H as (d2 & t5 & cd2 & c5 & -> & -> & Hd2 & H).
  apply chr_inv in Hd2 as (x2 & -> & -> & Hx2).
  apply seq_inv in H as (pa & t6 & cpa & c6 & -> & -> & Hpa & H).
  apply grp_inv in Hpa as (cpa' & -> & Hpa).
  apply numeric_matches in Hpa as [Hpa ->].
  apply seq_inv in H as (P & t7 & cP & c7 & -> & -> & HP & H).
  apply seq_inv in H as (B & w2 & cB & cw2 & -> & -> & HB & Hw2).
  apply star_class in Hw2 as [Hw2 ->].
  (* what the tail can start with *)
  assert (starts_outside class_or_dot w2 = true) as Ow2
    by (apply spaces_start_outside; [exact Hw2 | intros c Hc; apply space_class, Hc]).
  assert (starts_outside (λ c, (code c =? 43)%N) w2 = true) as Ow2'
    by (apply spaces_start_outside; [exact Hw2 | intros c Hc; apply space_class, Hc]).
  assert (starts_outside (λ c, (code c =? 45)%N) w2 = true) as Ow2''
    by (apply spaces_start_outside; [exact Hw2 | intros c Hc; apply space_class, Hc]).
  assert (starts_outside is_decimal w2 = true) as Ow2d
    by (apply spaces_start_outside; [exact Hw2 | intros c Hc; apply space_class, Hc]).
  pose proof (optional_head 43 "build" SEGMENT B cB HB) as HBh.
  pose proof (optional_head 45 "prerelease" IDENTIFIER P cP HP) as HPh.
  assert (starts_outside class_or_dot (B +:+ w2) = true) as OB.
  { rewrite starts_outside_app. destruct HBh as [->|(c & r & -> & Hc)]; [exact Ow2|].
    apply plus_class in Hc as (_ & -> & _). reflexivity. }
  assert (starts_outside (λ c, (code c =? 45)%N) (B +:+ w2) = true) as OB'.
  { rewrite starts_outside_app. destruct HBh as [->|(c & r & -> & Hc)]; [exact Ow2''|].
    apply plus_class in Hc as (_ & _ & ->). reflexivity. }
  assert (starts_outside is_decimal (B +:+ w2) = true) as OBd.
  { rewrite starts_outside_app. destruct HBh as [->|(c & r & -> & Hc)]; [exact Ow2d|].
    apply plus_class in Hc as (-> & _ & _). reflexivity. }
  assert (starts_outside is_decimal (P +:+ (B +:+ w2)) = true) as OPd.
  { rewrite starts_outside_app. destruct HPh as [->|(c & r & -> & Hc)]; [exact OBd|].
    apply hyphen_class in Hc as ->. reflexivity. }
  (* the matcher, step by step *)
  destruct (scan_optional_complete 43 "build" SEGMENT build_segment_shape
              segment_matches build_segment_shape_class B cB w2 HB Ow2 Ow2')
    as (build & Eb & ->).
  destruct (scan_optional_complete 45 "prerelease" IDENTIFIER identifier_shape
              identifier_matches identifier_shape_class P cP (B +:+ w2) HP OB OB')
    as (pre & Ep & ->).
  assert (cv = [] ∧ (v = "" ∨ ∃ c, v = String c "" ∧ (code c =? 118)%N = true))
    as [-> Hvh].
  { apply alt_inv in Hv as [Hv|Hv].
    - apply chr_inv in Hv as (c & -> & -> & Hc). eauto.
    - apply eps_inv in Hv as [-> ->]. auto. }
  exists (Groups ma mi pa pre build).
  split; [|unfold captures; cbn; rewrite app_nil_r; reflexivity].
  unfold SEMVER_RE_match.
  destruct (numeric_shape_head ma Hma) as (cm & rm & -> & Hcm).
  assert (starts_outside is_space
            (v +:+ (String cm rm +:+ (String x1 ""
               +:+ (mi +:+ (String x2 "" +:+ (pa +:+ (P +:+ (B +:+ w2))))))))
          = true) as Ov.
  { rewrite starts_outside_app. destruct Hvh as [->|(c & -> & Hc)].
    - simpl. apply decimal_class in Hcm as (-> & _). reflexivity.
    - apply v_class in Hc as ->. reflexivity. }
  rewrite (span_app is_space w _ Hw Ov). cbn [snd].
  assert (match v +:+ (String cm rm +:+ (String x1 ""
               +:+ (mi +:+ (String x2 "" +:+ (pa +:+ (P +:+ (B +:+ w2)))))))
          with
          | String c r =>
              if (code c =? 118)%N then r
              else v +:+ (String cm rm +:+ (String x1 ""
                     +:+ (mi +:+ (String x2 "" +:+ (pa +:+ (P +:+ (B +:+ w2)))))))
          | EmptyString =>
              v +:+ (String cm rm +:+ (String x1 ""
                +:+ (mi +:+ (String x2 "" +:+ (pa +:+ (P +:+ (B +:+ w2)))))))
          end
          = String cm rm +:+ (String x1 ""
              +:+ (mi +:+ (String x2 "" +:+ (pa +:+ (P +:+ (B +:+ w2))))))) as ->.
  { destruct Hvh as [->|(c & -> & Hc)].
    - simpl. apply decimal_class in Hcm as (_ & -> & _). reflexivity.
    - simpl. rewrite Hc. reflexivity. }
  rewrite scan_numeric_app;
    [| exact Hma
     | simpl; apply dot_class in Hx1 as (_ & -> & _); reflexivity ].
  simpl. rewrite Hx1. simpl.
  rewrite scan_numeric_app;
    [| exact Hmi
     | simpl; apply dot_class in Hx2 as (_ & -> & _); reflexivity ].
  simpl. rewrite Hx2. simpl.
  rewrite scan_numeric_app by assumption. simpl.
  rewrite Ep. simpl. rewrite Eb. simpl. rewrite Hw2. reflexivity.
Qed.

(** ** What [SemVer.parse] accepts *)

Lemma SEMVER_RE_match_core version :
  SEMVER_RE_match version = scan_core (strip_v (snd (span is_space version))).
Proof. reflexivity. Qed.

Lemma span_suffix p t w :
  str_all (λ c, negb (p c)) w = true →
  span p (t +:+ w) = (fst (span p t), snd (span p t) +:+ w).
Proof.
  intros Hw. induction t as [|c t IH]; simpl.
  - destruct w as [|c w]; [reflexivity|]. simpl in *.
    apply andb_true_iff in Hw as [Hc _]. apply negb_true_iff in Hc.
    rewrite Hc. reflexivity.
  - destruct (p c); [|reflexivity].
    rewrite IH. destruct (span p t). reflexivity.
Qed.

Lemma span_prefix p w t :
  str_all p w = true → snd (span p (w +:+ t)) = snd (span p t).
Proof.
  induction w as [|c w IH]; simpl; [reflexivity|].
  rewrite andb_true_iff. intros [Hc Hw]. rewrite Hc.
  specialize (IH Hw). destruct (span p (w +:+ t)). exact IH.
Qed.

Lemma spaces_outside (p : ascii → bool) w :
  (∀ c, is_space c = true → p c = false) →
  str_all is_space w = true → str_all (λ c, negb (p c)) w = true.
Proof.
  intros H. apply str_all_impl. intros c Hc. rewrite (H c Hc). reflexivity.
Qed.

Section Suffix.
Variable w : string.
Hypothesis spaces : str_all is_space w = true.

Lemma scan_numeric_suffix t :
scan_numeric (t +:+ w) = (λ '(d, r), (d, r +:+ w)) <$> scan_numeric t.
Proof.
unfold scan_numeric. rewrite span_suffix.
- destruct (span is_decimal t) as [d r]. simpl.
  destruct (numeric_shape d); reflexivity.
- apply spaces_outside; [|exact spaces]. intros c Hc.
  apply space_class. exact Hc.
Qed.

Lemma expect_dot_suffix t :
expect is_dot (t +:+ w) = (λ r, r +:+ w) <$> expect is_dot t.
Proof.
destruct t as [|c t]; simpl.
- destruct w as [|c w']; [reflexivity|]. simpl in *.
  apply andb_true_iff in spaces as [Hc _].
  destruct (is_dot c) eqn:Hd; [|reflexivity].
  apply dot_class in Hd as [-> _]. discriminate Hc.
- destruct (is_dot c); reflexivity.
Qed.

Lemma scan_optional_suffix intro shape t :
intro = 45%N ∨ intro = 43%N →
scan_optional intro shape (t +:+ w)
= (λ '(o, r), (o, r +:+ w)) <$> scan_optional intro shape t.
Proof.
intros Hi. destruct t as [|c t]; simpl.
- destruct w as [|c w']; [reflexivity|]. simpl in *.
  apply andb_true_iff in spaces as [Hc _].
  destruct (code c =? intro)%N eqn:E; [|reflexivity].
  exfalso. apply N.eqb_eq in E.
  destruct (space_class c Hc) as (_ & _ & H45 & H43 & _).
  destruct Hi as [-> | ->]; rewrite E in *; discriminate.
- destruct (code c =? intro)%N; [|reflexivity].
  unfold scan_dotted. rewrite span_suffix.
  + destruct (span _ t) as [raw r]. simpl.
    destruct (forallb shape (split is_dot raw)); reflexivity.
  + apply spaces_outside; [|exact spaces]. intros x Hx.
    apply space_class. exact Hx.
Qed.

Lemma str_all_space_suffix t :
str_all is_space (t +:+ w) = str_all is_space t.
Proof. rewrite str_all_app, spaces, andb_true_r. reflexivity. Qed.

Lemma scan_core_suffix t : scan_core (t +:+ w) = scan_core t.
Proof.
unfold scan_core.
rewrite scan_numeric_suffix.
destruct (scan_numeric t) as [[ma t1]|]; simpl; [|reflexivity].
rewrite expect_dot_suffix.
destruct (expect is_dot t1) as [t2|]; simpl; [|reflexivity].
rewrite scan_numeric_suffix.
destruct (scan_numeric t2) as [[mi t3]|]; simpl; [|reflexivity].
rewrite expect_dot_suffix.
destruct (expect is_dot t3) as [t4|]; simpl; [|reflexivity].
rewrite scan_numeric_suffix.
destruct (scan_numeric t4) as [[pa t5]|]; simpl; [|reflexivity].
rewrite scan_optional_suffix by auto.
destruct (scan_optional 45 identifier_shape t5) as [[pre t6]|]; simpl;
  [|reflexivity].
rewrite scan_optional_suffix by auto.
destruct (scan_optional 43 build_segment_shape t6) as [[build t7]|]; simpl;
  [|reflexivity].
rewrite str_all_space_suffix. reflexivity.
Qed.
End Suffix.

Lemma span_all p s : str_all p s = true → span p s = (s, "").
Proof.
  induction s as [|c s IH]; simpl; [reflexivity|].
  rewrite andb_true_iff. intros [Hc Hs]. rewrite Hc, (IH Hs). reflexivity.
Qed.

Lemma SEMVER_RE_match_trim w1 s w2 :
  str_all is_space w1 = true → str_all is_space w2 = true →
  SEMVER_RE_match (w1 +:+ s +:+ w2) = SEMVER_RE_match s.
Proof.
  intros H1 H2. rewrite !SEMVER_RE_match_core, span_prefix by exact H1.
  destruct (span is_space s) as [a r] eqn:E.
  apply span_eq in E as (-> & Ha & Hr). cbn [snd].
  destruct r as [|c r].
  - rewrite app_empty_r, span_all; [reflexivity|].
    rewrite str_all_app, Ha, H2. reflexivity.
  - rewrite app_assoc_str, span_app; [|exact Ha|exact Hr]. cbn [snd].
    replace (strip_v (String c r +:+ w2)) with (strip_v (String c r) +:+ w2)
      by (simpl; destruct (code c =? 118)%N; reflexivity).
    apply scan_core_suffix. exact H2.
Qed.

(** X1: white space around a version string changes nothing of what
    [SemVer.parse] reads but [original]. *)
Theorem SemVer_parse_ignores_surrounding_space w1 s w2 :
  str_all is_space w1 = true → str_all is_space w2 = true →
  SemVer_parse (w1 +:+ s +:+ w2)
  = with_original (w1 +:+ s +:+ w2) <$> SemVer_parse s.
Proof.
  intros H1 H2. unfold SemVer_parse.
  rewrite SEMVER_RE_match_trim by assumption.
  destruct (SEMVER_RE_match s); reflexivity.
Qed.

Lemma starts_outside_space_v_match s :
  starts_outside (λ c, is_space c || (code c =? 118)%N) s = true →
  SEMVER_RE_match (String "v" s) = SEMVER_RE_match s.
Proof.
  intros H. rewrite !SEMVER_RE_match_core.
  destruct s as [|c s]; [reflexivity|].
  simpl in H. apply negb_true_iff, orb_false_iff in H as [Hs Hv].
  cbn [span]. change (is_space "v") with false. rewrite Hs. cbn [snd strip_v].
  change (code "v" =? 118)%N with true. rewrite Hv. reflexivity.
Qed.

Lemma split_dotted_join x t :
  forallb (λ s, str_all is_ident_char s) (x :: t) = true →
  split is_dot (dotted_join (x :: t)) = x :: t.
Proof.
  revert x. induction t as [|y t IH]; intros x; cbn [forallb dotted_join tail_dots].
  - rewrite andb_true_r, app_empty_r. apply split_dotless.
  - rewrite andb_true_iff. intros [Hx Ht].
    change (String "." (y +:+ tail_dots t))
      with (String "." (dotted_join (y :: t))).
    rewrite split_app_dot by auto. rewrite (IH y Ht). reflexivity.
Qed.

Lemma forallb_impl {A} (p q : A → bool) l :
  (∀ x, p x = true → q x = true) → forallb p l = true → forallb q l = true.
Proof.
  intros H. induction l as [|x l IH]; simpl; [reflexivity|].
  rewrite !andb_true_iff. intros [Hx Hl]. auto.
Qed.

Lemma captures_inj g1 g2 : captures g1 = captures g2 → g1 = g2.
Proof.
  destruct g1 as [a1 b1 c1 [p1|] [d1|]], g2 as [a2 b2 c2 [p2|] [d2|]];
    unfold captures; cbn; intros H; inversion H; subst; reflexivity.
Qed.

Section Assembled.
Variables ma mi pa : string.
Variables pre build : list string.
Hypothesis Hma : numeric_shape ma = true.
Hypothesis Hmi : numeric_shape mi = true.
Hypothesis Hpa : numeric_shape pa = true.
Hypothesis Hpre : forallb identifier_shape pre = true.
Hypothesis Hbuild : forallb build_segment_shape build = true.

Lemma optional_part_matches intro n item shape name l :
(∀ s c, matches item s c ↔ shape s = true ∧ c = []) →
(∀ s, shape s = true → str_all is_ident_char s = true) →
intro = String (ascii_of_N n) "" → (n < 256)%N →
forallb shape l = true →
matches (opt (Seq (lit n) (Grp name (dotted item))))
  (optional_part intro l) (capture name (optional_group l)).
Proof.
intros Hitem Hclass -> Hn Hl. destruct l as [|x t].
- apply m_alt_r. constructor.
- apply m_alt_l. cbn [optional_part optional_group capture].
  apply (m_seq_eq _ _ (String (ascii_of_N n) "") (dotted_join (x :: t)) []
           [(name, dotted_join (x :: t))]); try reflexivity.
  + constructor. unfold code. rewrite N_ascii_embedding by exact Hn.
    apply N.eqb_refl.
  + constructor. apply (dotted_intro item shape Hitem).
    rewrite split_dotted_join; [exact Hl|].
    revert Hl. apply forallb_impl. exact Hclass.
Qed.

Lemma version_core_matches :
matches SEMVER_RE (version_core ma mi pa pre build)
  (captures (Groups ma mi pa (optional_group pre) (optional_group build))).
Proof.
unfold SEMVER_RE, version_core, captures. cbn [g_major g_minor g_patch g_prerelease g_build].
eapply (m_seq_eq _ _ "" _ []); [constructor| |reflexivity|reflexivity].
eapply (m_seq_eq _ _ "" _ []); [apply m_alt_r; constructor| |reflexivity|reflexivity].
eapply (m_seq_eq _ _ ma _ [("major", ma)]);
  [constructor; apply numeric_matches; auto| |reflexivity|reflexivity].
eapply (m_seq_eq _ _ "." _ []); [constructor; reflexivity| |reflexivity|reflexivity].
eapply (m_seq_eq _ _ mi _ [("minor", mi)]);
  [constructor; apply numeric_matches; auto| |reflexivity|reflexivity].
eapply (m_seq_eq _ _ "." _ []); [constructor; reflexivity| |reflexivity|reflexivity].
eapply (m_seq_eq _ _ pa _ [("patch", pa)]);
  [constructor; apply numeric_matches; auto| |reflexivity|reflexivity].
eapply (m_seq_eq _ _ (optional_part "-" pre) _
          (capture "prerelease" (optional_group pre)));
  [| |reflexivity|reflexivity].
{ apply (optional_part_matches "-" 45 IDENTIFIER identifier_shape);
    auto using identifier_matches, identifier_shape_class. lia. }
eapply (m_seq_eq _ _ (optional_part "+" build) "" 
          (capture "build" (optional_group build)) []);
  [| constructor | rewrite app_empty_r; reflexivity
   | rewrite app_nil_r; reflexivity].
apply (optional_part_matches "+" 43 SEGMENT build_segment_shape);
  auto using segment_matches, build_segment_shape_class. lia.
Qed.

Lemma version_core_groups :
SEMVER_RE_match (version_core ma mi pa pre build)
= Some (Groups ma mi pa (optional_group pre) (optional_group build)).
Proof.
destruct (semver_re_complete _ _ version_core_matches) as (g & Hg & Hc).
apply captures_inj in Hc. rewrite Hg, Hc. reflexivity.
Qed.
End Assembled.

Lemma identifier_shape_nonempty x : identifier_shape x = true → x ≠ "".
Proof. intros H ->. discriminate H. Qed.

Lemma parse_components w1 w2 (v : bool) ma mi pa pre build :
  str_all is_space w1 = true → str_all is_space w2 = true →
  numeric_shape ma = true → numeric_shape mi = true → numeric_shape pa = true →
  forallb identifier_shape pre = true →
  forallb build_segment_shape build = true →
  let s := w1 +:+ ((if v then "v" else "")
                   +:+ version_core ma mi pa pre build) +:+ w2 in
  SemVer_parse s = Some (mkSemVer (int ma) (int mi) (int pa) pre s).
Proof.
  intros H1 H2 Hma Hmi Hpa Hpre Hbuild s. unfold s, SemVer_parse.
  rewrite SEMVER_RE_match_trim by assumption.
  assert (SEMVER_RE_match ((if v then "v" else "")
                           +:+ version_core ma mi pa pre build)
          = SEMVER_RE_match (version_core ma mi pa pre build)) as ->.
  { destruct v; [|reflexivity]. apply starts_outside_space_v_match.
    destruct (numeric_shape_head ma Hma) as (c & r & -> & Hc).
    unfold version_core. simpl.
    destruct (decimal_class c Hc) as (-> & -> & _). reflexivity. }
  rewrite version_core_groups by assumption.
  cbn [g_major g_minor g_patch g_prerelease]. do 2 f_equal.
  destruct pre as [|x t]; [reflexivity|].
  change (default "" (optional_group (x :: t))) with (dotted_join (x :: t)).
  assert (dotted_join (x :: t) ≠ "") as Hne.
  { simpl in Hpre. apply andb_true_iff in Hpre as [Hx _].
    destruct x; [discriminate Hx | discriminate]. }
  apply String.eqb_neq in Hne. rewrite Hne.
  apply split_dotted_join. revert Hpre. apply forallb_impl.
  apply identifier_shape_class.
Qed.

(** X2: [SemVer.parse] reads back the pieces a version string is made of,
    whatever white space surrounds it, with or without the leading [v], and
    whatever the build metadata. *)
Theorem SemVer_parse_reads_components w1 w2 (v : bool) ma mi pa pre build :
  str_all is_space w1 = true → str_all is_space w2 = true →
  numeric_shape ma = true → numeric_shape mi = true → numeric_shape pa = true →
  forallb identifier_shape pre = true →
  forallb build_segment_shape build = true →
  let s := w1 +:+ ((if v then "v" else "")
                   +:+ version_core ma mi pa pre build) +:+ w2 in
  SemVer_parse s = Some (mkSemVer (int ma) (int mi) (int pa) pre s).
Proof. apply parse_components. Qed.

Lemma SemVer_parse_reads_components_witness :
  SemVer_parse " v1.20.0-rc.1+build.5 "
  = Some (mkSemVer 1 20 0 ["rc"; "1"] " v1.20.0-rc.1+build.5 ").
Proof.
  exact (SemVer_parse_reads_components " " " " true "1" "20" "0" ["rc"; "1"]
           ["build"; "5"] eq_refl eq_refl eq_refl eq_refl eq_refl eq_refl
           eq_refl).
Defined.

Lemma SemVer_parse_ignores_surrounding_space_witness :
  SemVer_parse "  1.2.3 " = with_original "  1.2.3 " <$> SemVer_parse "1.2.3".
Proof.
  exact (SemVer_parse_ignores_surrounding_space "  " "1.2.3" " " eq_refl eq_refl).
Defined.

Lemma scan_optional_pieces intro c0 shape s o r :
  (c0 = "-"%char ∧ intro = 45%N) ∨ (c0 = "+"%char ∧ intro = 43%N) →
  scan_optional intro shape s = Some (o, r) →
  ∃ l, forallb shape l = true ∧ o = optional_group l
       ∧ s = optional_part (String c0 "") l +:+ r.
Proof.
  intros Hi. unfold scan_optional, scan_dotted.
  destruct s as [|c s].
  { intros [= <- <-]. exists []. auto. }
  destruct (code c =? intro)%N eqn:Ec.
  - destruct (span (λ c, is_ident_char c || is_dot c) s) as [raw r'] eqn:E.
    destruct (forallb shape (split is_dot raw)) eqn:Ef; [|discriminate].
    intros [= <- <-]. apply span_eq in E as (-> & _ & _).
    destruct (split_tail_dots raw) as (h & t & Hs & Hr).
    exists (h :: t). rewrite <- Hs. split; [exact Ef|].
    rewrite Hs. cbn [optional_group optional_part dotted_join].
    rewrite <- Hr. split; [reflexivity|].
    apply N.eqb_eq in Ec.
    assert (c = c0) as ->.
    { apply code_inj. destruct Hi as [[-> ->]| [-> ->]]; exact Ec. }
    reflexivity.
  - intros [= <- <-]. exists []. auto.
Qed.

(** X3: what [SemVer.parse] accepts is made of such pieces and of nothing
    else. *)
Theorem SemVer_parse_accepts_only_versions s sv :
  SemVer_parse s = Some sv →
  ∃ w1 w2 (v : bool) ma mi pa pre build,
    str_all is_space w1 = true ∧ str_all is_space w2 = true
    ∧ numeric_shape ma = true ∧ numeric_shape mi = true
    ∧ numeric_shape pa = true
    ∧ forallb identifier_shape pre = true
    ∧ forallb build_segment_shape build = true
    ∧ s = w1 +:+ ((if v then "v" else "")
                  +:+ version_core ma mi pa pre build) +:+ w2
    ∧ sv = mkSemVer (int ma) (int mi) (int pa) pre s.
Proof.
  intros Hp.
  assert (∃ g, SEMVER_RE_match s = Some g) as [g Hg].
  { unfold SemVer_parse in Hp. destruct (SEMVER_RE_match s); [eauto|discriminate]. }
  rewrite SEMVER_RE_match_core in Hg.
  destruct (span is_space s) as [w1 r0] eqn:E0.
  apply span_eq in E0 as (Es & Hw1 & _). cbn [snd] in Hg.
  assert (∃ v : bool, r0 = (if v then "v" else "") +:+ strip_v r0) as [v Ev].
  { destruct r0 as [|c r]; [exists false; reflexivity|]. simpl.
    destruct (code c =? 118)%N eqn:Ec; [|exists false; reflexivity].
    exists true. apply N.eqb_eq in Ec.
    assert (c = "v"%char) as -> by (apply code_inj; exact Ec). reflexivity. }
  revert Hg. generalize dependent (strip_v r0). intros r1 Ev. unfold scan_core.
  destruct (scan_numeric r1) as [[ma r2]|] eqn:E1; simpl; [|discriminate].
  apply scan_numeric_Some in E1 as [-> Hma].
  destruct (expect is_dot r2) as [r3|] eqn:E2; simpl; [|discriminate].
  apply expect_Some in E2 as (d1 & -> & Hd1). apply dot_class in Hd1 as [-> _].
  destruct (scan_numeric r3) as [[mi r4]|] eqn:E3; simpl; [|discriminate].
  apply scan_numeric_Some in E3 as [-> Hmi].
  destruct (expect is_dot r4) as [r5|] eqn:E4; simpl; [|discriminate].
  apply expect_Some in E4 as (d2 & -> & Hd2). apply dot_class in Hd2 as [-> _].
  destruct (scan_numeric r5) as [[pa r6]|] eqn:E5; simpl; [|discriminate].
  apply scan_numeric_Some in E5 as [-> Hpa].
  destruct (scan_optional 45 identifier_shape r6) as [[o1 r7]|] eqn:E6;
    simpl; [|discriminate].
  apply (scan_optional_pieces 45 "-") in E6 as (pre & Hpre & -> & ->); [|auto].
  destruct (scan_optional 43 build_segment_shape r7) as [[o2 r8]|] eqn:E7;
    simpl; [|discriminate].
  apply (scan_optional_pieces 43 "+") in E7 as (build & Hbuild & -> & ->);
    [|auto].
  destruct (str_all is_space r8) eqn:Hw2; [|discriminate]. intros _.
  exists w1, r8, v, ma, mi, pa, pre, build.
  assert (s = w1 +:+ ((if v then "v" else "")
                      +:+ version_core ma mi pa pre build) +:+ r8) as Hs.
  { rewrite Es, Ev. unfold version_core. f_equal.
    rewrite !app_assoc_str. reflexivity. }
  repeat (split; [assumption|]).
  pose proof (parse_components w1 r8 v ma mi pa pre build Hw1 Hw2 Hma Hmi Hpa
                Hpre Hbuild) as Hq.
  cbv zeta in Hq. rewrite <- Hs in Hq. congruence.
Qed.

Lemma SemVer_parse_accepts_only_versions_witness :
  ∃ w1 w2 (v : bool) ma mi pa pre build,
    str_all is_space w1 = true ∧ str_all is_space w2 = true
    ∧ numeric_shape ma = true ∧ numeric_shape mi = true
    ∧ numeric_shape pa = true
    ∧ forallb identifier_shape pre = true
    ∧ forallb build_segment_shape build = true
    ∧ "v2.0.1-rc.1 "
      = w1 +:+ ((if v then "v" else "")
                +:+ version_core ma mi pa pre build) +:+ w2
    ∧ mkSemVer 2 0 1 ["rc"; "1"] "v2.0.1-rc.1 "
      = mkSemVer (int ma) (int mi) (int pa) pre "v2.0.1-rc.1 ".
Proof.
  exact (SemVer_parse_accepts_only_versions "v2.0.1-rc.1 "
           (mkSemVer 2 0 1 ["rc"; "1"] "v2.0.1-rc.1 ") eq_refl).
Defined.

(** X4: [SEMVER_RE_match] finds groups exactly when the whole subject matches
    [SEMVER_RE], and the groups it finds are the captures of that match, which
    is the only one; [SemVer.parse] returns [None] exactly on the subjects
    that do not match. *)
Theorem SEMVER_RE_match_decides_pattern version :
  (∀ g, SEMVER_RE_match version = Some g
        ↔ matches SEMVER_RE version (captures g))
  ∧ (∀ caps, matches SEMVER_RE version caps →
             ∃ g, SEMVER_RE_match version = Some g ∧ caps = captures g)
  ∧ (SemVer_parse version = None
     ↔ ∀ caps, ¬ matches SEMVER_RE version caps).
Proof.
  split; [|split].
  - intros g. split; [apply semver_re_sound|].
    intros H. apply semver_re_complete in H as (g' & Hg & Hc).
    apply captures_inj in Hc. congruence.
  - apply semver_re_complete.
  - unfold SemVer_parse. split.
    + destruct (SEMVER_RE_match version) eqn:E; [discriminate|].
      intros _ caps H. apply semver_re_complete in H as (g & Hg & _).
      congruence.
    + intros H. destruct (SEMVER_RE_match version) as [g|] eqn:E;
        [|reflexivity].
      exfalso. apply (H (captures g)), semver_re_sound, E.
Qed.

(** ** The comparator and the sort on all values *)







Lemma sort_sorted_id {A} (lt : A → A → bool) l :
  StronglySorted (λ a b, lt b a = false) l → sort lt l = l.
Proof.
  induction 1 as [|x l Hl IH Hx]; [reflexivity|].
  cbn [sort foldr]. fold (sort lt l). rewrite IH.
  destruct l as [|y l]; [reflexivity|].
  cbn [insert_sorted]. apply Forall_cons in Hx as [Hy _].
  rewrite Hy. reflexivity.
Qed.

Lemma filter_map_comm {A B} (f : A → B) (p : B → bool) l :
  List.filter p (map f l) = map f (List.filter (λ x, p (f x)) l).
Proof.
  induction l as [|x l IH]; [reflexivity|].
  cbn [map List.filter]. destruct (p (f x)); cbn [map]; rewrite IH; reflexivity.
Qed.

Lemma parsed_pairs_snd vs :
  map snd (parsed_pairs vs) = List.filter parsable_version vs.
Proof.
  induction vs as [|v vs IH]; [reflexivity|].
  cbn [parsed_pairs List.filter]. unfold parsable_version at 1.
  destruct (SemVer_parse v); cbn [map snd]; rewrite IH; reflexivity.
Qed.

Lemma parsed_pairs_consistent vs : consistent (parsed_pairs vs).
Proof. intros sv v H. apply (parsed_pairs_parse vs). exact H. Qed.

Lemma sorted_pairs_consistent vs :
  consistent (sort_by_key_reverse SemVer_lt fst (parsed_pairs vs)).
Proof.
  intros sv v H. apply (parsed_pairs_consistent vs).
  apply list_elem_of_In. apply list_elem_of_In in H. revert H.
  unfold sort_by_key_reverse. rewrite sort_perm. auto.
Qed.

Lemma parsed_pairs_of_consistent ps :
  consistent ps → parsed_pairs (map snd ps) = ps.
Proof.
  induction ps as [|[sv v] ps IH]; intros Hc; [reflexivity|].
  cbn [map snd parsed_pairs].
  rewrite (Hc sv v (or_introl eq_refl)), IH; [reflexivity|].
  intros sv' v' H. apply Hc. right. exact H.
Qed.

Lemma filter_ext_In {A} (p q : A → bool) l :
  (∀ x, In x l → p x = q x) → List.filter p l = List.filter q l.
Proof.
  induction l as [|x l IH]; intros H; [reflexivity|].
  cbn [List.filter]. rewrite (H x (or_introl eq_refl)), IH; [reflexivity|].
  intros y Hy. apply H. right. exact Hy.
Qed.

Lemma ties_with_pairs sv ps :
  consistent ps →
  List.filter (ties_with sv) (map snd ps)
  = map snd (List.filter (λ t, (compare_semver (fst t) sv =? 0)%Z) ps).
Proof.
  intros Hc. rewrite filter_map_comm. f_equal.
  apply filter_ext_In. intros [a v] H. unfold ties_with. cbn [fst snd].
  rewrite (Hc a v H). reflexivity.
Qed.

Lemma ties_with_parsable sv vs :
  List.filter (ties_with sv) (List.filter parsable_version vs)
  = List.filter (ties_with sv) vs.
Proof.
  induction vs as [|v vs IH]; [reflexivity|].
  cbn [List.filter]. unfold parsable_version at 1, ties_with at 2.
  destruct (SemVer_parse v) eqn:E; [|exact IH].
  cbn [List.filter]. unfold ties_with at 1. rewrite E, IH. reflexivity.
Qed.

Lemma sort_versions_perm vs :
  sort_versions_by_semver_desc vs ≡ₚ List.filter parsable_version vs.
Proof.
  rewrite sort_versions_by_semver_desc_eq, <- parsed_pairs_snd.
  unfold sort_by_key_reverse. rewrite sort_perm. reflexivity.
Qed.

Lemma sort_versions_descending vs i j v1 v2 a b :
  (i < j)%nat →
  sort_versions_by_semver_desc vs !! i = Some v1 →
  sort_versions_by_semver_desc vs !! j = Some v2 →
  SemVer_parse v1 = Some a → SemVer_parse v2 = Some b →
  (0 ≤ compare_semver a b)%Z.
Proof.
  rewrite sort_versions_by_semver_desc_eq, !list_lookup_fmap.
  intros Hij H1 H2 Ha Hb.
  destruct (_ !! i) as [[a' w1]|] eqn:E1; [|discriminate].
  destruct (_ !! j) as [[b' w2]|] eqn:E2; [|discriminate].
  simpl in H1, H2. injection H1 as ->. injection H2 as ->.
  assert (SemVer_parse v1 = Some a') as Ha'.
  { apply (sorted_pairs_consistent vs), list_elem_of_In.
    eapply list_elem_of_lookup_2. exact E1. }
  assert (SemVer_parse v2 = Some b') as Hb'.
  { apply (sorted_pairs_consistent vs), list_elem_of_In.
    eapply list_elem_of_lookup_2. exact E2. }
  assert (a' = a) as -> by congruence. assert (b' = b) as -> by congruence.
  apply SemVer_lt_false.
  exact (StronglySorted_lookup _ _ i j (a, v1) (b, v2)
           (sorted_pairs_descending _) Hij E1 E2).
Qed.

Lemma sort_versions_stable vs sv :
  List.filter (ties_with sv) (sort_versions_by_semver_desc vs)
  = List.filter (ties_with sv) vs.
Proof.
  rewrite sort_versions_by_semver_desc_eq.
  rewrite ties_with_pairs by apply sorted_pairs_consistent.
  unfold sort_by_key_reverse. rewrite sort_stable.
  - rewrite <- ties_with_pairs by apply parsed_pairs_consistent.
    rewrite parsed_pairs_snd. apply ties_with_parsable.
  - intros x y Hx Hy. apply Z.eqb_eq in Hx, Hy.
    rewrite compare_semver_precedence, sign_eq in Hx, Hy.
    destruct (SemVer_lt (fst y) (fst x)) eqn:E; [|reflexivity].
    apply SemVer_lt_precedence in E.
    rewrite (cmp_eq_cong (cmp:=Precedence.precedence) _ _ (fst x) Hy) in E.
    apply (cmp_eq_sym Precedence.precedence) in Hx. congruence.
Qed.

(** X7: [sort_versions_by_semver_desc] drops the strings that do not parse and
    rearranges the others: no string lost, none added; the result descends in
    precedence, and the strings of one precedence keep their input order. *)
Theorem sort_versions_by_semver_desc_sorts vs :
  sort_versions_by_semver_desc vs ≡ₚ List.filter parsable_version vs
  ∧ (∀ i j v1 v2 a b,
        (i < j)%nat →
        sort_versions_by_semver_desc vs !! i = Some v1 →
        sort_versions_by_semver_desc vs !! j = Some v2 →
        SemVer_parse v1 = Some a → SemVer_parse v2 = Some b →
        (0 ≤ compare_semver a b)%Z)
  ∧ (∀ sv, List.filter (ties_with sv) (sort_versions_by_semver_desc vs)
           = List.filter (ties_with sv) vs).
Proof.
  split; [apply sort_versions_perm|].
  split; [apply sort_versions_descending | apply sort_versions_stable].
Qed.

(** X8: sorting what [sort_versions_by_semver_desc] returned changes
    nothing. *)
Theorem sort_versions_by_semver_desc_idempotent vs :
  sort_versions_by_semver_desc (sort_versions_by_semver_desc vs)
  = sort_versions_by_semver_desc vs.
Proof.
  rewrite (sort_versions_by_semver_desc_eq vs).
  rewrite sort_versions_by_semver_desc_eq.
  rewrite parsed_pairs_of_consistent by apply sorted_pairs_consistent.
  f_equal. unfold sort_by_key_reverse at 1.
  apply sort_sorted_id. apply sorted_pairs_descending.
Qed.

(** ** When the ranking is the specified one *)

Lemma insert_sorted_ext_In {A} (lt1 lt2 : A → A → bool) x l :
  (∀ y, In y l → lt1 y x = lt2 y x) →
  insert_sorted lt1 x l = insert_sorted lt2 x l.
Proof.
  induction l as [|y l IH]; intros H; [reflexivity|].
  cbn [insert_sorted]. rewrite (H y (or_introl eq_refl)).
  destruct (lt2 y x); [|reflexivity].
  f_equal. apply IH. intros z Hz. apply H. right. exact Hz.
Qed.

Lemma sort_ext_In {A} (lt1 lt2 : A → A → bool) l :
  (∀ x y, In x l → In y l → lt1 x y = lt2 x y) →
  sort lt1 l = sort lt2 l.
Proof.
  induction l as [|x l IH]; intros H; [reflexivity|].
  cbn [sort foldr]. fold (sort lt1 l) (sort lt2 l).
  rewrite IH by (intros a b Ha Hb; apply H; right; assumption).
  apply insert_sorted_ext_In. intros y Hy.
  apply H; [right | left; reflexivity].
  apply list_elem_of_In. rewrite <- (sort_perm lt2 l).
  apply list_elem_of_In, Hy.
Qed.

Lemma insert_sorted_map {A B} (f : A → B) (ltB : B → B → bool) x l :
  map f (insert_sorted (λ a b, ltB (f a) (f b)) x l)
  = insert_sorted ltB (f x) (map f l).
Proof.
  induction l as [|y l IH]; [reflexivity|].
  cbn [insert_sorted map]. destruct (ltB (f y) (f x)); [|reflexivity].
  cbn [map]. rewrite IH. reflexivity.
Qed.

Lemma sort_map {A B} (f : A → B) (ltB : B → B → bool) l :
  map f (sort (λ a b, ltB (f a) (f b)) l) = sort ltB (map f l).
Proof.
  induction l as [|x l IH]; [reflexivity|].
  cbn [sort foldr map].
  fold (sort (λ a b, ltB (f a) (f b)) l) (sort ltB (map f l)).
  rewrite insert_sorted_map, IH. reflexivity.
Qed.

Lemma flat_map_parsed l :
  (∀ e, In e l → parsable e = true) →
  flat_map (λ e, match SemVer_parse (version e) with
                 | Some sv => [(sv, e)]
                 | None => []
                 end) l
  = map with_parsed l.
Proof.
  induction l as [|e l IH]; intros H; [reflexivity|].
  cbn [flat_map map]. rewrite IH by (intros x Hx; apply H; right; exact Hx).
  pose proof (H e (or_introl eq_refl)) as He. unfold parsable in He.
  destruct (SemVer_parse (version e)) as [s|] eqn:E; [|discriminate].
  change (with_parsed e)
    with (default (mkSemVer 0 0 0 [] "") (SemVer_parse (version e)), e).
  rewrite E. reflexivity.
Qed.

Lemma map_snd_with_parsed l : map snd (map with_parsed l) = l.
Proof. induction l as [|e l IH]; [reflexivity|]. simpl. rewrite IH. reflexivity. Qed.

Section Agreement.
Variable resp : Response.

Let norm := normalize (default [] (resp_versions resp)).
Let order := sort_versions_by_semver_desc (map version norm).
Let key := λ x : Entry, default DEFAULT_KEY (index_of order !! version x).

Hypothesis all_parse : ∀ e, In e norm → parsable e = true.
Hypothesis no_ties :
∀ e1 e2 a b, In e1 norm → In e2 norm →
  SemVer_parse (version e1) = Some a → SemVer_parse (version e2) = Some b →
  compare_semver a b = 0%Z → version e1 = version e2.

Lemma key_order_is_precedence x y :
In x norm → In y norm →
(key x <? key y)%Z
= match Precedence.precedence (fst (with_parsed y)) (fst (with_parsed x)) with
  | Lt => true
  | _ => false
  end.
Proof.
intros Hx Hy.
pose proof (all_parse x Hx) as Px. pose proof (all_parse y Hy) as Py.
unfold parsable in Px, Py. unfold with_parsed. cbn [fst].
destruct (SemVer_parse (version x)) as [sx|] eqn:Ex; [|discriminate].
destruct (SemVer_parse (version y)) as [sy|] eqn:Ey; [|discriminate].
cbn [default from_option id].
destruct (key_parsable resp x sx Hx Ex) as (kx & Kx & Bx & Lx).
destruct (key_parsable resp y sy Hy Ey) as (ky & Ky & By & Ly).
unfold key, order, norm. rewrite Kx, Ky. cbn [default from_option id].
pose proof (sorted_pairs_descending
              (parsed_pairs (map version norm))) as Hs.
destruct (Z.ltb_spec kx ky) as [Hlt|Hge].
- assert (SemVer_lt sx sy = false) as Hxy.
  { exact (StronglySorted_lookup _ _ (Z.to_nat kx) (Z.to_nat ky)
             (sx, version x) (sy, version y) Hs ltac:(lia) Lx Ly). }
  assert (version x ≠ version y) as Hne.
  { intros E. rewrite E in Kx. rewrite Kx in Ky. injection Ky. lia. }
  destruct (Precedence.precedence sx sy) eqn:E.
  + exfalso. apply Hne. apply (no_ties x y sx sy Hx Hy Ex Ey).
    rewrite compare_semver_precedence, E. reflexivity.
  + apply SemVer_lt_precedence in E. congruence.
  + rewrite (cmp_antisym (cmp:=Precedence.precedence) sx sy), E.
    reflexivity.
- destruct (decide (kx = ky)) as [->|Hne].
  + rewrite Lx in Ly. injection Ly as -> _.
    rewrite (cmp_refl (cmp:=Precedence.precedence)). reflexivity.
  + assert (SemVer_lt sy sx = false) as Hyx.
    { exact (StronglySorted_lookup _ _ (Z.to_nat ky) (Z.to_nat kx)
               (sy, version y) (sx, version x) Hs ltac:(lia) Ly Lx). }
    destruct (Precedence.precedence sy sx) eqn:E; try reflexivity.
    apply SemVer_lt_precedence in E. congruence.
Qed.

Lemma ranked_is_rankEligible : rank_prod_versions resp = rankEligible resp.
Proof.
unfold rankEligible. rewrite <- normalize_eq. fold norm. cbv zeta.
rewrite flat_map_parsed by exact all_parse.
rewrite <- (sort_map with_parsed), map_snd_with_parsed.
rewrite rank_prod_versions_eq. unfold sort_by_key.
apply sort_ext_In. exact key_order_is_precedence.
Qed.
End Agreement.

(** X9: where every eligible version string parses and no two different ones
    have the same precedence, [get_prod_versions] returns the eligible
    entries sorted by the comparator, descending and stably: what
    [rankEligible] is specified to return. *)
Theorem get_prod_versions_is_rankEligible resp :
  let norm :=
    map normalize_entry
      (List.filter raw_eligible (default [] (resp_versions resp))) in
  (∀ e, In e norm → parsable e = true) →
  (∀ e1 e2 a b, In e1 norm → In e2 norm →
     SemVer_parse (version e1) = Some a → SemVer_parse (version e2) = Some b →
     compare_semver a b = 0%Z → version e1 = version e2) →
  rank_prod_versions resp = rankEligible resp.
Proof.
  intros norm. unfold norm. rewrite <- normalize_eq.
  apply ranked_is_rankEligible.
Qed.

Lemma get_prod_versions_is_rankEligible_witness :
  let resp := mkResponse (Some [ raw "1.0.0" "" "released";
                                 raw "2.0.0" "latest" "RELEASED";
                                 raw "1.0.0" "old" "RELEASED";
                                 raw "3.0.0-rc.1" "" "DRAFT";
                                 raw "v1.5.0" "" "trusted_release" ]) in
  rank_prod_versions resp = rankEligible resp.
Proof.
  intros resp. apply get_prod_versions_is_rankEligible.
  - intros e He. vm_compute in He.
    destruct He as [<-|[<-|[<-|[<-|[]]]]]; reflexivity.
  - intros e1 e2 a b H1 H2 Ha Hb Hc. vm_compute in H1, H2.
    destruct H1 as [<-|[<-|[<-|[<-|[]]]]], H2 as [<-|[<-|[<-|[<-|[]]]]];
      try reflexivity; vm_compute in Ha, Hb;
      injection Ha as <-; injection Hb as <-; vm_compute in Hc;
      discriminate Hc.
Defined.

(** ** The ranked list and the successor *)

Section Keys.
Variable resp : Response.
Hypothesis bound :
(Z.of_nat (List.length (default [] (resp_versions resp))) ≤ DEFAULT_KEY)%Z.

Let order :=
sort_versions_by_semver_desc
  (map version (normalize (default [] (resp_versions resp)))).
Let key := λ x : Entry, default DEFAULT_KEY (index_of order !! version x).

Lemma ranked_In_norm e :
In e (rank_prod_versions resp) →
In e (normalize (default [] (resp_versions resp))).
Proof.
intros H. apply list_elem_of_In. rewrite <- ranked_perm.
apply list_elem_of_In, H.
Qed.

Lemma key_below_default e sv :
In e (rank_prod_versions resp) → SemVer_parse (version e) = Some sv →
∃ k, index_of order !! version e = Some k ∧ (0 ≤ k < DEFAULT_KEY)%Z.
Proof.
intros He Hp.
destruct (key_parsable resp e sv (ranked_In_norm e He) Hp) as (k & Ek & Bk & _).
exists k. split; [exact Ek|].
pose proof (order_length resp) as Hol. lia.
Qed.

(** Entries with the key of an entry that parses have its version string. *)
Lemma key_determines_version e1 e2 sv :
In e1 (rank_prod_versions resp) → SemVer_parse (version e1) = Some sv →
key e2 = key e1 → version e2 = version e1.
Proof.
intros H1 Hp Hk.
destruct (key_below_default e1 sv H1 Hp) as (k & Ek & Bk).
unfold key in Hk. rewrite Ek in Hk. simpl in Hk.
destruct (index_of order !! version e2) as [k2|] eqn:E2; simpl in Hk;
  [|lia].
subst k2. apply index_of_Some in Ek as [_ Ek].
apply index_of_Some in E2 as [_ E2]. congruence.
Qed.

Lemma ranked_keys i j e1 e2 :
(i < j)%nat →
rank_prod_versions resp !! i = Some e1 →
rank_prod_versions resp !! j = Some e2 →
(key e1 ≤ key e2)%Z.
Proof.
intros Hij H1 H2.
pose proof (StronglySorted_lookup _ _ _ _ _ _ (ranked_sorted resp) Hij H1 H2)
  as Hk.
cbv beta in Hk. apply Z.ltb_ge in Hk. exact Hk.
Qed.
End Keys.

(** X10: in what [get_prod_versions] returns, the entries of one version
    string that parses stand next to each other (for a response of at most
    [10**9] entries). *)
Theorem ranked_groups_version_strings resp i j k e1 e2 e3 sv :
  (Z.of_nat (List.length (default [] (resp_versions resp))) ≤ DEFAULT_KEY)%Z →
  (i < j < k)%nat →
  rank_prod_versions resp !! i = Some e1 →
  rank_prod_versions resp !! j = Some e2 →
  rank_prod_versions resp !! k = Some e3 →
  SemVer_parse (version e1) = Some sv →
  version e3 = version e1 →
  version e2 = version e1.
Proof.
  intros Hb [Hij Hjk] H1 H2 H3 Hp Hv.
  pose proof (ranked_keys resp i j e1 e2 Hij H1 H2) as K12.
  pose proof (ranked_keys resp j k e2 e3 Hjk H2 H3) as K23.
  cbv beta in K12, K23. rewrite Hv in K23.
  apply (key_determines_version resp Hb e1 e2 sv); [|exact Hp|cbv beta; lia].
  apply list_elem_of_In. eapply list_elem_of_lookup_2. exact H1.
Qed.

Lemma ranked_groups_version_strings_witness :
  let resp := mkResponse (Some [ raw "1.0.0" "a" "RELEASED";
                                 raw "2.0.0" "b" "RELEASED";
                                 raw "1.0.0" "c" "RELEASED";
                                 raw "2.0.0" "d" "RELEASED";
                                 raw "2.0.0" "e" "RELEASED" ]) in
  version (mkEntry "2.0.0" "d" "RELEASED")
  = version (mkEntry "2.0.0" "b" "RELEASED").
Proof.
  intros resp.
  apply (ranked_groups_version_strings resp 0 1 2
           (mkEntry "2.0.0" "b" "RELEASED") (mkEntry "2.0.0" "d" "RELEASED")
           (mkEntry "2.0.0" "e" "RELEASED") (mkSemVer 2 0 0 [] "2.0.0"));
    [vm_compute; discriminate | lia | reflexivity..].
Defined.

Lemma find_filter {A} (p q : A → bool) l :
  (∀ x, p x = true → q x = true) →
  List.find p (List.filter q l) = List.find p l.
Proof.
  intros H. induction l as [|x l IH]; [reflexivity|].
  cbn [List.filter List.find]. destruct (q x) eqn:Q.
  - cbn [List.find]. rewrite IH. reflexivity.
  - destruct (p x) eqn:P; [|exact IH]. rewrite (H x P) in Q. discriminate.
Qed.

Lemma filter_filter_impl {A} (p q : A → bool) l :
  (∀ x, p x = true → q x = true) →
  List.filter p (List.filter q l) = List.filter p l.
Proof.
  intros H. induction l as [|x l IH]; [reflexivity|].
  cbn [List.filter]. destruct (q x) eqn:Q.
  - cbn [List.filter]. rewrite IH. reflexivity.
  - destruct (p x) eqn:P; [|exact IH]. rewrite (H x P) in Q. discriminate.
Qed.

Lemma filter_filter_and {A} (p q : A → bool) l :
  List.filter p (List.filter q l) = List.filter (λ x, p x && q x) l.
Proof.
  induction l as [|x l IH]; [reflexivity|].
  cbn [List.filter]. destruct (q x); cbn [List.filter];
    destruct (p x); cbn [andb]; rewrite IH; reflexivity.
Qed.

Lemma filter_only {A} (p : A → bool) l e :
  In e l → p e = true → (∀ x, In x l → p x = true → x = e) → NoDup l →
  List.filter p l = [e].
Proof.
  induction l as [|x l IH]; intros He Pe Hu Hnd; [destruct He|].
  apply NoDup_cons in Hnd as [Hx Hnd]. cbn [List.filter].
  assert (∀ y, In y l → p y = true → y = e) as Hu'
    by (intros y Hy; apply Hu; right; exact Hy).
  destruct He as [->|He].
  - rewrite Pe. f_equal.
    assert (∀ y, In y l → p y = false) as Hall.
    { intros y Hy. destruct (p y) eqn:Py; [|reflexivity].
      exfalso. apply Hx. rewrite <- (Hu' y Hy Py). apply list_elem_of_In, Hy. }
    clear -Hall. induction l as [|y l IHl]; [reflexivity|].
    cbn [List.filter]. rewrite (Hall y (or_introl eq_refl)).
    apply IHl. intros z Hz. apply Hall. right. exact Hz.
  - destruct (p x) eqn:Px.
    + exfalso. apply Hx. rewrite (Hu x (or_introl eq_refl) Px).
      apply list_elem_of_In, He.
    + apply IH; assumption.
Qed.

Lemma NoDup_of_map {A B} (f : A → B) l : NoDup (map f l) → NoDup l.
Proof.
  induction l as [|x l IH]; [constructor|].
  cbn [map]. rewrite !NoDup_cons. intros [Hx Hnd]. split; [|auto].
  intros H. apply Hx. apply list_elem_of_In, in_map, list_elem_of_In, H.
Qed.

(** X11: where every version string occurs once, [pick_next_latest] returns the
    first entry of the list that is neither of the excluded version nor
    quarantined. *)
Theorem pick_next_latest_distinct_versions l exclude_version :
  NoDup (map version l) →
  pick_next_latest l exclude_version = List.find (survives exclude_version) l.
Proof.
  intros Hnd. rewrite pick_next_latest_eq. unfold pick_of_leading_version.
  assert (∀ e, In e l →
               surviving_version l exclude_version (version e)
               = survives exclude_version e) as Hsv.
  { intros e He. apply eq_true_iff_eq. rewrite surviving_version_spec. split.
    - intros (s & Hl & Hs & Hv).
      rewrite <- (NoDup_map_inj version l s e Hnd Hl He Hv). exact Hs.
    - intros Hs. eauto. }
  unfold leading_version.
  rewrite (find_ext_In _ (survives exclude_version) l Hsv).
  destruct (List.find (survives exclude_version) l) as [e|] eqn:Ef;
    [|reflexivity].
  apply List.find_some in Ef as [He Hs]. cbn [fmap option_fmap option_map].
  assert (List.filter (has_version (version e)) (survivors l exclude_version)
          = [e]) as ->.
  { unfold survivors. rewrite filter_filter_and.
    apply filter_only; [exact He | | | eapply NoDup_of_map; exact Hnd].
    - unfold has_version. rewrite String.eqb_refl, Hs. reflexivity.
    - intros x Hx Hp. apply andb_true_iff in Hp as [Hv _].
      apply String.eqb_eq in Hv.
      apply (NoDup_map_inj version l x e Hnd Hx He Hv). }
  cbn [List.find head]. destruct (is_trusted e); reflexivity.
Qed.

Lemma pick_next_latest_distinct_versions_witness :
  let l := [ mkEntry "2.0.0" "latest" "RELEASED";
             mkEntry "1.5.0" "quarantine" "TRUSTED_RELEASE";
             mkEntry "1.4.0" "" "RELEASED";
             mkEntry "1.0.0" "" "TRUSTED_RELEASE" ] in
  pick_next_latest l "2.0.0" = Some (mkEntry "1.4.0" "" "RELEASED").
Proof.
  intros l.
  rewrite (pick_next_latest_distinct_versions l "2.0.0"); [reflexivity|].
  apply (bool_decide_unpack (NoDup (map version l))). vm_compute. reflexivity.
Defined.

(** X12: the entries of the excluded version take no part in the choice:
    without them [pick_next_latest] returns the same. *)
Theorem pick_next_latest_ignores_excluded l exclude_version :
  pick_next_latest
    (List.filter (λ e, negb (has_version exclude_version e)) l) exclude_version
  = pick_next_latest l exclude_version.
Proof.
  rewrite !pick_next_latest_eq.
  set (q := λ e, negb (has_version exclude_version e)).
  assert (∀ e, survives exclude_version e = true → q e = true) as Hq.
  { intros e H. apply andb_true_iff in H as [H _]. exact H. }
  assert (survivors (List.filter q l) exclude_version
          = survivors l exclude_version) as Hs
    by (apply filter_filter_impl, Hq).
  unfold pick_of_leading_version, leading_version, surviving_version.
  rewrite Hs. rewrite find_filter; [reflexivity|].
  intros e H. apply andb_true_iff in H as [H _]. exact H.
Qed.

Lemma find_first {A} (p : A → bool) l f :
  List.find p l = Some f →
  ∃ i, l !! i = Some f
       ∧ ∀ j x, l !! j = Some x → p x = true → (i ≤ j)%nat.
Proof.
  induction l as [|y l IH]; [discriminate|].
  cbn [List.find]. destruct (p y) eqn:Py.
  - intros [= ->]. exists 0%nat. split; [reflexivity|]. intros; lia.
  - intros H. destruct (IH H) as (i & Hi & Hmin).
    exists (S i). split; [exact Hi|].
    intros [|j] x Hj Px; simpl in Hj.
    + injection Hj as ->. congruence.
    + specialize (Hmin j x Hj Px). lia.
Qed.

Lemma pick_of_leading_version_version l ex e :
  pick_of_leading_version l ex = Some e →
  leading_version l ex = Some (version e).
Proof.
  unfold pick_of_leading_version.
  destruct (leading_version l ex) as [ver|]; [|discriminate].
  intros H. f_equal. symmetry.
  assert (In e (List.filter (has_version ver) (survivors l ex))) as Hin.
  { destruct (List.find is_trusted _) as [t|] eqn:Ef.
    - injection H as <-. apply List.find_some in Ef as [Ht _]. exact Ht.
    - destruct (List.filter (has_version ver) (survivors l ex)) as [|c cs];
        [discriminate|].
      injection H as <-. left. reflexivity. }
  apply List.filter_In in Hin as [_ Hv]. apply String.eqb_eq, Hv.
Qed.

(** The entry whose version string the successor has, and that stands at or
    before every surviving entry. *)
Lemma successor_leader l ex e :
  pick_next_latest l ex = Some e →
  ∃ i f, l !! i = Some f ∧ version f = version e
         ∧ ∀ j e', l !! j = Some e' → survives ex e' = true → (i ≤ j)%nat.
Proof.
  rewrite pick_next_latest_eq. intros H.
  apply pick_of_leading_version_version in H. unfold leading_version in H.
  destruct (List.find _ l) as [f|] eqn:Ef; [|discriminate].
  injection H as Hv.
  apply find_first in Ef as (i & Hi & Hmin).
  exists i, f. split; [exact Hi|]. split; [exact Hv|].
  intros j e' Hj Hs. apply (Hmin j e' Hj).
  apply surviving_version_spec. exists e'. split; [|auto].
  apply list_elem_of_In. eapply list_elem_of_lookup_2. exact Hj.
Qed.

(** X13: chosen from what [get_prod_versions] returns, the successor has the
    highest precedence among the entries that are neither of the excluded
    version nor quarantined: none of them that parses is above it; and when
    one of them parses, so does the successor (for a response of at most
    [10**9] entries). *)
Theorem successor_has_highest_precedence resp exclude_version e e' b :
  pick_next_latest (rank_prod_versions resp) exclude_version = Some e →
  In e' (rank_prod_versions resp) →
  survives exclude_version e' = true →
  SemVer_parse (version e') = Some b →
  (∀ a, SemVer_parse (version e) = Some a → (0 ≤ compare_semver a b)%Z)
  ∧ ((Z.of_nat (List.length (default [] (resp_versions resp)))
      ≤ DEFAULT_KEY)%Z →
     is_Some (SemVer_parse (version e))).
Proof.
  intros Hpick He' Hs Hb.
  destruct (successor_leader _ _ _ Hpick) as (i & f & Hi & Hv & Hmin).
  apply list_elem_of_In, list_elem_of_lookup_1 in He' as [j Hj].
  specialize (Hmin j e' Hj Hs).
  split.
  - intros a Ha. rewrite <- Hv in Ha.
    destruct (decide (i = j)) as [->|Hne].
    + assert (f = e') as -> by congruence.
      assert (a = b) as -> by congruence.
      rewrite compare_semver_precedence,
        (cmp_refl (cmp:=Precedence.precedence)). reflexivity.
    + apply (ranked_descending resp i j f e' a b); [lia | assumption..].
  - intros Hbound. rewrite <- Hv.
    destruct (SemVer_parse (version f)) as [a|] eqn:Ea; [eauto|]. exfalso.
    destruct (decide (i = j)) as [->|Hne]; [congruence|].
    assert (i < j)%nat as Hij by lia.
    pose proof (ranked_keys resp i j f e' Hij Hi Hj) as Hk.
    pose proof (key_unparsable resp f Ea) as Kf.
    assert (In e' (rank_prod_versions resp)) as Hin.
    { apply list_elem_of_In. eapply list_elem_of_lookup_2. exact Hj. }
    destruct (key_below_default resp Hbound e' b Hin Hb) as (k & Ek & Bk).
    cbv beta in Hk, Kf. rewrite Kf, Ek in Hk. simpl in Hk. lia.
Qed.

Lemma successor_has_highest_precedence_witness :
  let resp := mkResponse (Some [ raw "1.0.0" "" "RELEASED";
                                 raw "2.0.0" "latest" "RELEASED";
                                 raw "1.5.0" "" "RELEASED";
                                 raw "1.7.0" "quarantine" "RELEASED" ]) in
  (∀ a, SemVer_parse "1.5.0" = Some a →
        (0 ≤ compare_semver a (mkSemVer 1 0 0 [] "1.0.0"))%Z)
  ∧ ((Z.of_nat 4 ≤ DEFAULT_KEY)%Z → is_Some (SemVer_parse "1.5.0")).
Proof.
  intros resp.
  apply (successor_has_highest_precedence resp "2.0.0"
           (mkEntry "1.5.0" "" "RELEASED") (mkEntry "1.0.0" "" "RELEASED"));
    [vm_compute; reflexivity | vm_compute; auto | reflexivity | reflexivity].
Defined.

(** ** The calls of a run *)

Ltac dry_cases rm app_key target_version :=
  rewrite run_dry; unfold dry_run;
  destruct (fails rm (ListVersions app_key 1000)) eqn:EL;
  [|destruct (resolve rm target_version) as [t|] eqn:Er;
    [destruct (tag t =? LATEST_TAG)%string eqn:Et;
     [destruct (pick_next_latest (ranked rm) target_version) as [c|] eqn:Ep|]
    |]];
  cbn [fst snd calls remote stdout].

Ltac real_cases rm app_key target_version :=
  rewrite run_real;
  unfold real_run, intended, quarantine_patch, latest_patch;
  destruct (fails rm (ListVersions app_key 1000)) eqn:EL;
  [|destruct (resolve rm target_version) as [t|] eqn:Er;
    [destruct (fails rm (RollbackVersion app_key target_version "PROD")) eqn:ER;
     [|destruct (fails rm (PatchVersion app_key target_version
                             (Some QUARANTINE_TAG)
                             (Some {[ BACKUP_BEFORE_QUARANTINE := [tag t] ]})
                             None)) eqn:EP1;
       [|destruct (tag t =? LATEST_TAG)%string eqn:Et;
         [destruct (pick_next_latest (ranked rm) target_version) as [c|] eqn:Ep;
          [destruct (fails rm (PatchVersion app_key (version c)
                                 (Some LATEST_TAG)
                                 (Some {[ BACKUP_BEFORE_LATEST := [tag c] ]})
                                 None)) eqn:EP2|]|]]]|]];
  cbn [fst snd calls remote stdout until_failure].

Lemma real_run_calls rm app_key target_version :
  calls (snd (run rm app_key target_version false))
  = until_failure (fails rm) (intended rm app_key target_version).
Proof.
  real_cases rm app_key target_version;
    rewrite ?EL, ?ER, ?EP1, ?EP2; reflexivity.
Qed.

(** X14: a run that is not dry issues the calls it is out to issue in their
    order -- the list call, the stage rollback of the target, the quarantine
    patch, and the patch of the successor when the target held "latest" and
    there is a successor -- and stops at the first that fails: no call is
    repeated and none follows a failure. *)
Theorem run_stops_at_first_failure rm app_key target_version :
  calls (snd (run rm app_key target_version false))
  = until_failure (fails rm) (intended rm app_key target_version).
Proof. apply real_run_calls. Qed.

Lemma pick_next_latest_Some l ex e :
  pick_next_latest l ex = Some e →
  In e l ∧ version e ≠ ex ∧ tag e ≠ QUARANTINE_TAG.
Proof. rewrite pick_next_latest_eq. apply pick_of_leading_version_Some. Qed.

Lemma In_all {A} (P : A → Prop) l : (∀ r, In r l → P r) ↔ Forall P l.
Proof. symmetry. apply List.Forall_forall. Qed.

Lemma run_returns_iff rm app_key target_version dry :
  let out := run rm app_key target_version dry in
  fst out = inr ()
  ↔ is_Some (resolve rm target_version)
    ∧ ∀ r, In r (calls (snd out)) → fails rm r = false.
Proof.
  intros out. unfold out. clear out.
  destruct dry;
    [dry_cases rm app_key target_version | real_cases rm app_key target_version];
    rewrite In_all, ?Forall_cons, ?Forall_nil;
    first
      [ split; [intros _; split; [eauto | tauto] | reflexivity]
      | split; [discriminate|]; intros [Hs Hc];
        first [destruct Hs as [? Hs]; discriminate Hs | intuition congruence] ].
Qed.

Lemma run_raises rm app_key target_version dry e :
  let out := run rm app_key target_version dry in
  fst out = inl e →
  (e = TargetNotFound target_version
   ∧ resolve rm target_version = None
   ∧ calls (snd out) = [ListVersions app_key 1000])
  ∨ (∃ r, last (calls (snd out)) = Some r ∧ fails rm r = true
          ∧ e = raised_for r).
Proof.
  intros out. unfold out. clear out.
  destruct dry;
    [dry_cases rm app_key target_version | real_cases rm app_key target_version];
    intros H; try discriminate H; injection H as <-;
    first
      [ left; repeat split; reflexivity
      | right; eexists; split; [reflexivity|]; split; [|reflexivity];
        assumption ].
Qed.

Lemma run_fails_last rm app_key target_version dry i r :
  let out := run rm app_key target_version dry in
  calls (snd out) !! i = Some r →
  (S i < List.length (calls (snd out)))%nat → fails rm r = false.
Proof.
  intros out. unfold out. clear out.
  destruct dry;
    [dry_cases rm app_key target_version | real_cases rm app_key target_version];
    destruct i as [|[|[|[|i]]]]; simpl; intros Hi Hlt;
    first [lia | discriminate Hi | injection Hi as <-; assumption].
Qed.

(** X15: a run, dry or not, returns normally exactly when the target is in the
    eligible set and none of the calls it issued failed (that there is no
    successor is no error); when it raises, either the target is missing and
    the list call was the only call, or the last call issued failed and its
    failure is what is raised, wrapped only for the stage rollback; and every
    call before the last succeeded. *)
Theorem run_outcome rm app_key target_version dry :
  let out := run rm app_key target_version dry in
  (fst out = inr ()
   ↔ is_Some (resolve rm target_version)
     ∧ ∀ r, In r (calls (snd out)) → fails rm r = false)
  ∧ (∀ e, fst out = inl e →
          (e = TargetNotFound target_version
           ∧ resolve rm target_version = None
           ∧ calls (snd out) = [ListVersions app_key 1000])
          ∨ (∃ r, last (calls (snd out)) = Some r ∧ fails rm r = true
                  ∧ e = raised_for r))
  ∧ (∀ i r, calls (snd out) !! i = Some r →
            (S i < List.length (calls (snd out)))%nat → fails rm r = false).
Proof.
  intros out. split; [|split].
  - apply run_returns_iff.
  - intros e. apply run_raises.
  - intros i r. apply run_fails_last.
Qed.

Lemma until_failure_In fails l r : In r (until_failure fails l) → In r l.
Proof.
  induction l as [|x l IH]; [tauto|]. cbn [until_failure].
  intros [->|H]; [left; reflexivity|]. right.
  destruct (fails x); [destruct H | auto].
Qed.

Lemma until_failure_length fails l :
  (List.length (until_failure fails l) ≤ List.length l)%nat.
Proof.
  induction l as [|x l IH]; [reflexivity|]. cbn [until_failure].
  destruct (fails x); simpl; lia.
Qed.

Lemma until_failure_NoDup fails l : NoDup l → NoDup (until_failure fails l).
Proof.
  induction l as [|x l IH]; [constructor|]. cbn [until_failure].
  rewrite !NoDup_cons. intros [Hx Hl]. destruct (fails x).
  - split; [|constructor]. intros H. inversion H.
  - split; [|auto]. intros H. apply Hx.
    apply list_elem_of_In, (until_failure_In fails), list_elem_of_In, H.
Qed.

Lemma dry_run_calls rm app_key target_version :
  calls (snd (run rm app_key target_version true))
  = [ListVersions app_key 1000].
Proof. dry_cases rm app_key target_version; reflexivity. Qed.

(** The calls of a run are among those a run that is not dry is out to
    issue. *)
Lemma run_calls_intended rm app_key target_version dry r :
  In r (calls (snd (run rm app_key target_version dry))) →
  In r (intended rm app_key target_version).
Proof.
  destruct dry.
  - rewrite dry_run_calls. intros [<-|[]]. left. reflexivity.
  - rewrite real_run_calls. apply until_failure_In.
Qed.

Lemma intended_NoDup rm app_key target_version :
  NoDup (intended rm app_key target_version)
  ∧ (List.length (intended rm app_key target_version) ≤ 4)%nat.
Proof.
  unfold intended, quarantine_patch, latest_patch.
  destruct (resolve rm target_version) as [t|].
  2:{ split; [repeat constructor; inversion 1 | simpl; lia]. }
  destruct (tag t =? LATEST_TAG)%string;
    [destruct (pick_next_latest _ _) as [c|]|];
    (split; [|simpl; lia]);
    repeat (apply NoDup_cons; split;
            [rewrite ?elem_of_cons, elem_of_nil; intuition discriminate|]);
    constructor.
Qed.

(** X16: whatever the registry holds, the calls of a run are few and of one
    shape.  At most four calls are issued and none twice.  Each addresses the
    application the run was started for; the list call asks for 1000
    versions; the stage rollback addresses the target, from PROD.  A patch
    never deletes a property: it sets one tag and records, under one backup
    key, the tag the list call showed for an eligible entry of the version it
    addresses -- "quarantine" on the target, or "latest" on another version,
    from an entry that is not quarantined. *)
Theorem run_calls_are_well_formed rm app_key target_version dry :
  let cs := calls (snd (run rm app_key target_version dry)) in
  NoDup cs ∧ (List.length cs ≤ 4)%nat
  ∧ ∀ r, In r cs →
      request_app_key r = app_key
      ∧ match r with
        | ListVersions _ limit => limit = 1000%Z
        | RollbackVersion _ ver from_stage =>
            ver = target_version ∧ from_stage = "PROD"
        | PatchVersion _ ver new_tag props delete_properties =>
            delete_properties = None
            ∧ ∃ e, In e (ranked rm) ∧ version e = ver
                   ∧ ((ver = target_version
                       ∧ new_tag = Some QUARANTINE_TAG
                       ∧ props = Some {[ BACKUP_BEFORE_QUARANTINE := [tag e] ]})
                      ∨ (ver ≠ target_version ∧ tag e ≠ QUARANTINE_TAG
                         ∧ new_tag = Some LATEST_TAG
                         ∧ props = Some {[ BACKUP_BEFORE_LATEST := [tag e] ]}))
        end.
Proof.
  intros cs. unfold cs. clear cs.
  destruct (intended_NoDup rm app_key target_version) as [Hnd Hlen].
  split; [|split].
  - destruct dry; [rewrite dry_run_calls; repeat constructor; inversion 1|].
    rewrite real_run_calls. apply until_failure_NoDup, Hnd.
  - destruct dry; [rewrite dry_run_calls; simpl; lia|].
    rewrite real_run_calls.
    etransitivity; [apply until_failure_length | exact Hlen].
  - intros r Hr. apply run_calls_intended in Hr. clear Hnd Hlen.
    unfold intended in Hr. destruct Hr as [<-|Hr]; [auto|].
    destruct (resolve rm target_version) as [t|] eqn:Er; [|destruct Hr].
    apply resolve_Some in Er as [Ht Hv].
    destruct Hr as [<-|[<-|Hr]]; [auto| |].
    { split; [reflexivity|]. split; [reflexivity|].
      exists t. split; [exact Ht|]. split; [exact Hv|]. left. auto. }
    destruct (tag t =? LATEST_TAG)%string; [|destruct Hr].
    destruct (pick_next_latest (ranked rm) target_version) as [c|] eqn:Ep;
      [|destruct Hr].
    destruct Hr as [<-|[]].
    apply pick_next_latest_Some in Ep as (Hc & Hne & Hq).
    split; [reflexivity|]. split; [reflexivity|].
    exists c. split; [exact Hc|]. split; [reflexivity|]. right. auto.
Qed.

(** X17: a run mutates no version but the target and, when the tag the list
    showed for the target is "latest", the successor: every mutating call
    addresses one of the two, and when that tag is not "latest" every
    mutating call addresses the target. *)
Theorem run_mutates_target_and_successor rm app_key target_version dry t r :
  resolve rm target_version = Some t →
  In r (calls (snd (run rm app_key target_version dry))) →
  is_mutating r = true →
  request_version r = Some target_version
  ∨ (tag t = LATEST_TAG
     ∧ request_version r
       = version <$> pick_next_latest (ranked rm) target_version).
Proof.
  intros Er Hr Hm. apply run_calls_intended in Hr.
  unfold intended in Hr. rewrite Er in Hr.
  destruct Hr as [<-|[<-|[<-|Hr]]]; [discriminate Hm | auto | auto |].
  destruct (String.eqb_spec (tag t) LATEST_TAG) as [E|E]; [|destruct Hr].
  destruct (pick_next_latest (ranked rm) target_version) as [c|];
    [|destruct Hr].
  destruct Hr as [<-|[]]. right. auto.
Qed.

Lemma run_mutates_target_and_successor_witness :
  let rm := mkRemote scenario never_fails id in
  request_version (latest_patch "app" (mkEntry "1.5.0" "" TRUSTED))
  = Some "2.0.0"
  ∨ (tag (mkEntry "2.0.0" "latest" RELEASED) = LATEST_TAG
     ∧ request_version (latest_patch "app" (mkEntry "1.5.0" "" TRUSTED))
       = version <$> pick_next_latest (ranked rm) "2.0.0").
Proof.
  intros rm.
  apply (run_mutates_target_and_successor rm "app" "2.0.0" false);
    [vm_compute; reflexivity | vm_compute; auto 10 | reflexivity].
Defined.

(** X26: the target is found exactly when the registry lists an entry of an
    eligible status whose version, as [str] renders it, is the target: the
    version string need not parse, a missing version counts as the empty
    string and a [null] one as "None"; and it is then that a run gets past
    the validation. *)
Theorem target_found_iff_listed_eligible rm app_key target_version dry :
  (is_Some (resolve rm target_version)
   ↔ ∃ h, In h (held rm) ∧ held_eligible h = true
          ∧ str_get (raw_version (shown h)) = target_version)
  ∧ (fails rm (ListVersions app_key 1000) = false →
     (fst (run rm app_key target_version dry)
      = inl (TargetNotFound target_version)
      ↔ ¬ ∃ h, In h (held rm) ∧ held_eligible h = true
               ∧ str_get (raw_version (shown h)) = target_version)).
Proof.
  assert (is_Some (resolve rm target_version)
          ↔ ∃ h, In h (held rm) ∧ held_eligible h = true
                 ∧ str_get (raw_version (shown h)) = target_version) as Hres.
  { split.
    - intros [t Ht]. apply resolve_Some in Ht as [Hin Hv].
      apply ranked_In in Hin as (h & Hh & He & ->). eauto.
    - intros (h & Hh & He & Hv).
      destruct (resolve rm target_version) as [t|] eqn:Er; [eauto|].
      exfalso. rewrite resolve_None in Er.
      apply (Er (normalize_entry (shown h))); [|exact Hv].
      apply ranked_In. eauto. }
  split; [exact Hres|].
  intros HL. rewrite <- Hres.
  destruct dry; [rewrite run_dry; unfold dry_run
                | rewrite run_real; unfold real_run]; rewrite HL;
    destruct (resolve rm target_version) as [t|] eqn:Er.
  - split; [|intros H; exfalso; apply H; eauto].
    destruct (tag t =? LATEST_TAG)%string;
      [destruct (pick_next_latest _ _)|]; discriminate.
  - split; [intros _ [? H]; discriminate H | reflexivity].
  - split; [|intros H; exfalso; apply H; eauto].
    destruct (fails rm (RollbackVersion _ _ _)); [discriminate|].
    destruct (fails rm (quarantine_patch _ _ _)); [discriminate|].
    destruct (tag t =? LATEST_TAG)%string; [|discriminate].
    destruct (pick_next_latest _ _); [|discriminate].
    destruct (fails rm (latest_patch _ _)); discriminate.
  - split; [intros _ [? H]; discriminate H | reflexivity].
Qed.

(** ** The client, the environment and the entry points *)

Lemma rstrip_all p t : str_all p t = true → rstrip p t = "".
Proof.
  induction t as [|c t IH]; simpl; [reflexivity|].
  rewrite andb_true_iff. intros [Hc Ht]. rewrite (IH Ht), Hc. reflexivity.
Qed.

Lemma rstrip_app_class p s t :
  str_all p t = true → rstrip p (s +:+ t) = rstrip p s.
Proof.
  intros Ht. induction s as [|c s IH]; simpl.
  - apply rstrip_all, Ht.
  - rewrite IH. reflexivity.
Qed.

Lemma rstrip_decomp p s :
  ∃ t, s = rstrip p s +:+ t ∧ str_all p t = true.
Proof.
  induction s as [|c s (t & Hs & Ht)]; simpl.
  - exists "". auto.
  - destruct (rstrip p s) as [|d r] eqn:E.
    + simpl in Hs. subst t. destruct (p c) eqn:Pc.
      * exists (String c s). simpl. rewrite Pc, Ht. auto.
      * exists s. auto.
    + exists t. split; [|exact Ht].
      change (String c s = String c (String d r +:+ t)). f_equal. exact Hs.
Qed.

Lemma rstrip_ends_outside p s : ends_outside p (rstrip p s) = true.
Proof.
  unfold ends_outside. induction s as [|c s IH]; simpl; [reflexivity|].
  destruct (rstrip p s) as [|d r] eqn:E.
  - destruct (p c) eqn:Pc; simpl; [reflexivity | rewrite Pc; reflexivity].
  - exact IH.
Qed.

Lemma rstrip_fixed p s : ends_outside p s = true → rstrip p s = s.
Proof.
  unfold ends_outside. induction s as [|c s IH]; simpl; [reflexivity|].
  destruct s as [|d s].
  - simpl. intros H. apply negb_true_iff in H. rewrite H. reflexivity.
  - intros H. rewrite (IH H). simpl in *.
    destruct (rstrip p s); [destruct (p d)|]; reflexivity.
Qed.

(** X18: the base URL an [AppTrustClient] keeps is the one it was given
    without the slashes at its end and with nothing else taken off: it does
    not end in a slash, the given URL is it followed by slashes only, base
    URLs that differ in their trailing slashes give the same client, and a
    client made from what another one keeps keeps the same. *)
Theorem client_base_url_without_trailing_slashes b tok :
  let u := base_url (AppTrustClient_init b tok) in
  ends_outside is_slash u = true
  ∧ (∃ t, b = u +:+ t ∧ str_all is_slash t = true)
  ∧ (∀ t, str_all is_slash t = true →
          base_url (AppTrustClient_init (b +:+ t) tok) = u)
  ∧ base_url (AppTrustClient_init u tok) = u.
Proof.
  cbn [AppTrustClient_init base_url].
  split; [apply rstrip_ends_outside|].
  split; [apply rstrip_decomp|].
  split; [intros t; apply rstrip_app_class|].
  apply rstrip_fixed, rstrip_ends_outside.
Qed.

Lemma unquote_quote_char c r : unquote_char (quote_char c +:+ r) = Some (c, r).
Proof.
  destruct c as [[] [] [] [] [] [] [] []]; vm_compute; reflexivity.
Qed.

Lemma quote_inj s1 s2 : quote s1 = quote s2 → s1 = s2.
Proof.
  revert s2. induction s1 as [|c1 s1 IH]; intros [|c2 s2]; simpl; intros H.
  - reflexivity.
  - exfalso. pose proof (unquote_quote_char c2 (quote s2)) as U.
    rewrite <- H in U. discriminate U.
  - exfalso. pose proof (unquote_quote_char c1 (quote s1)) as U.
    rewrite H in U. discriminate U.
  - pose proof (unquote_quote_char c1 (quote s1)) as U1.
    pose proof (unquote_quote_char c2 (quote s2)) as U2.
    rewrite H, U2 in U1. injection U1 as -> Hq. f_equal. apply IH. auto.
Qed.

Lemma quote_app a b : quote (a +:+ b) = quote a +:+ quote b.
Proof.
  induction a as [|c a IH]; simpl; [reflexivity|].
  rewrite IH, app_assoc_str. reflexivity.
Qed.

Lemma quote_char_class c : str_all is_quoted_char (quote_char c) = true.
Proof.
  destruct c as [[] [] [] [] [] [] [] []]; vm_compute; reflexivity.
Qed.

Lemma quote_class s : str_all is_quoted_char (quote s) = true.
Proof.
  induction s as [|c s IH]; simpl; [reflexivity|].
  rewrite str_all_app, quote_char_class, IH. reflexivity.
Qed.

Lemma quote_safe s : str_all is_safe s = true → quote s = s.
Proof.
  induction s as [|c s IH]; simpl; [reflexivity|].
  rewrite andb_true_iff. intros [Hc Hs]. unfold quote_char.
  rewrite Hc, (IH Hs). reflexivity.
Qed.

Lemma quoted_char_class c :
  is_quoted_char c = true →
  is_space c = false ∧ code c ≠ 63%N ∧ code c ≠ 35%N ∧ code c ≠ 38%N
  ∧ (32 < code c < 127)%N.
Proof.
  destruct c as [[] [] [] [] [] [] [] []]; vm_compute;
    try discriminate; intros _; repeat split; discriminate.
Qed.

(** X19: the path of a request is made of letters, digits, [_.-~/] and [%]
    only, whatever the application key and the version string are: no white
    space, no control or non-ASCII character, and no [?], [#] or [&] that
    would end the path. *)
Theorem path_of_is_quoted r :
  str_all is_quoted_char (path_of r) = true
  ∧ ∀ c, is_quoted_char c = true →
         is_space c = false ∧ code c ≠ 63%N ∧ code c ≠ 35%N ∧ code c ≠ 38%N
         ∧ (32 < code c < 127)%N.
Proof.
  split; [|apply quoted_char_class].
  destruct r; cbn [path_of]; rewrite !str_all_app, !quote_class; reflexivity.
Qed.

Lemma quote_char_slash_free c :
  is_slash c = false → slash_free (quote_char c) = true.
Proof.
  destruct c as [[] [] [] [] [] [] [] []]; vm_compute; try reflexivity;
    discriminate.
Qed.

Lemma quote_slash_free s : slash_free s = true → slash_free (quote s) = true.
Proof.
  unfold slash_free. induction s as [|c s IH]; simpl; [reflexivity|].
  rewrite andb_true_iff, negb_true_iff. intros [Hc Hs].
  rewrite str_all_app, IH by exact Hs.
  pose proof (quote_char_slash_free c Hc) as Hq. unfold slash_free in Hq.
  rewrite Hq. reflexivity.
Qed.

(** Two strings without a slash, each followed by a slash and more. *)
Lemma slash_free_split x x' y y' :
  slash_free x = true → slash_free x' = true →
  x +:+ String "/" y = x' +:+ String "/" y' → x = x' ∧ y = y'.
Proof.
  unfold slash_free. revert x'.
  induction x as [|c x IH]; intros [|c' x']; simpl.
  - intros _ _ [= ->]. auto.
  - rewrite andb_true_iff. intros _ [Hc _] [= <- _]. discriminate Hc.
  - rewrite andb_true_iff. intros [Hc _] _ [= -> _]. discriminate Hc.
  - rewrite !andb_true_iff. intros [_ Hx] [_ Hx'] [= -> H].
    destruct (IH x' Hx Hx' H) as [-> ->]. auto.
Qed.

Lemma str_length_app a b :
  String.length (a +:+ b) = (String.length a + String.length b)%nat.
Proof. induction a as [|c a IH]; simpl; [reflexivity | rewrite IH; reflexivity]. Qed.

Lemma append_cancel_r a b t : a +:+ t = b +:+ t → a = b.
Proof.
  intros H.
  assert (String.length a = String.length b) as Hlen.
  { apply (f_equal String.length) in H. rewrite !str_length_app in H. lia. }
  revert b H Hlen. induction a as [|c a IH]; intros [|d b]; simpl;
    try discriminate; [reflexivity|].
  intros [= -> H] [= Hlen]. f_equal. apply IH; assumption.
Qed.

(** X20: for application keys without a slash, the method and the path of a
    request determine the application and the version it addresses. *)
Theorem path_of_determines_target r1 r2 :
  slash_free (request_app_key r1) = true →
  slash_free (request_app_key r2) = true →
  method_of r1 = method_of r2 → path_of r1 = path_of r2 →
  request_app_key r1 = request_app_key r2
  ∧ request_version r1 = request_version r2.
Proof.
  intros H1 H2 Hm Hp.
  apply quote_slash_free in H1, H2.
  destruct r1 as [a1 l1|a1 v1 t1 p1 d1|a1 v1 s1],
           r2 as [a2 l2|a2 v2 t2 p2 d2|a2 v2 s2];
    try discriminate Hm; cbn [request_app_key request_version path_of] in *;
    injection Hp as Hp;
    apply (slash_free_split _ _ _ _ H1 H2) in Hp as [Ha Hv];
    apply quote_inj in Ha; subst a2; (split; [reflexivity|]).
  - reflexivity.
  - injection Hv as Hv. apply quote_inj in Hv. congruence.
  - injection Hv as Hv. apply append_cancel_r, quote_inj in Hv. congruence.
Qed.

Lemma path_of_determines_target_witness :
  request_app_key (RollbackVersion "web" "1.2.3" "PROD")
  = request_app_key (RollbackVersion "web" "1.2.3" "DEV")
  ∧ request_version (RollbackVersion "web" "1.2.3" "PROD")
    = request_version (RollbackVersion "web" "1.2.3" "DEV").
Proof.
  apply path_of_determines_target; reflexivity.
Defined.

Lemma rstrip_first p s c r :
  rstrip p s = String c r → ∃ r', s = String c r'.
Proof.
  destruct s as [|d s]; simpl; [discriminate|].
  destruct (rstrip p s); [destruct (p d); [discriminate|]|];
    intros [= -> _]; eauto.
Qed.

Lemma strip_decomp v :
  ∃ w1 w2, v = w1 +:+ strip v +:+ w2
           ∧ str_all is_space w1 = true ∧ str_all is_space w2 = true.
Proof.
  unfold strip, lstrip. destruct (span is_space v) as [a b] eqn:E.
  apply span_eq in E as (-> & Ha & _). cbn [snd].
  destruct (rstrip_decomp is_space b) as (t & Hb & Ht).
  exists a, t. rewrite <- Hb. auto.
Qed.

Lemma strip_starts_outside v : starts_outside is_space (strip v) = true.
Proof.
  unfold strip, lstrip. destruct (span is_space v) as [a b] eqn:E.
  apply span_eq in E as (_ & _ & Hb). cbn [snd].
  destruct (rstrip is_space b) as [|c r] eqn:Er; [reflexivity|].
  apply rstrip_first in Er as [r' ->]. exact Hb.
Qed.

Lemma strip_empty v : strip v = "" ↔ str_all is_space v = true.
Proof.
  split.
  - intros H. destruct (strip_decomp v) as (w1 & w2 & Hv & H1 & H2).
    rewrite H in Hv. rewrite Hv, str_all_app, H1. exact H2.
  - intros H. unfold strip, lstrip. rewrite span_all by exact H. reflexivity.
Qed.

(** X21: a value [_env] takes from the environment is never empty and never
    starts or ends with white space: it is the variable's value without the
    white space around it; and [_env] falls back to the default exactly when
    the variable is unset or holds white space only. *)
Theorem env_strips_or_defaults env name :
  match _env env name None with
  | Some s =>
      s ≠ "" ∧ starts_outside is_space s = true
      ∧ ends_outside is_space s = true
      ∧ ∃ v w1 w2, env !! name = Some v ∧ v = w1 +:+ s +:+ w2
                   ∧ str_all is_space w1 = true ∧ str_all is_space w2 = true
  | None =>
      env !! name = None
      ∨ ∃ v, env !! name = Some v ∧ str_all is_space v = true
  end.
Proof.
  unfold _env. destruct (env !! name) as [v|]; [|auto].
  destruct (String.eqb_spec (strip v) "") as [E|E].
  - right. exists v. split; [reflexivity|]. apply strip_empty, E.
  - split; [exact E|]. split; [apply strip_starts_outside|].
    split; [apply rstrip_ends_outside|].
    destruct (strip_decomp v) as (w1 & w2 & Hv & H1 & H2). eauto 10.
Qed.

Lemma truthy_Some x : truthy x = true → ∃ s, x = Some s ∧ s ≠ "".
Proof.
  destruct x as [s|]; [|discriminate]. simpl. rewrite negb_true_iff.
  intros H. apply String.eqb_neq in H. eauto.
Qed.

Lemma run_client_outcome reach client args :
  let rm := reach client in
  let ran := run rm (args_app args) (args_version args) (args_dry_run args) in
  let out := run_client reach client args in
  final out = Some (snd ran)
  ∧ (exit_code out = 0%Z ∨ exit_code out = 1%Z)
  ∧ (exit_code out = 0%Z ↔ fst ran = inr ())
  ∧ (printed_done out = true ↔ exit_code out = 0%Z)
  ∧ (∀ e, fst ran = inl e → stderr out = [ErrorLine e]).
Proof.
  intros rm ran out. unfold out, run_client. fold rm.
  change (rollback_in_prod (args_app args) (args_version args)
            (args_dry_run args) (mkState rm [] [])) with ran.
  destruct ran as [[e|[]] st]; cbn.
  - repeat split; auto; try discriminate. intros e' [= <-]. reflexivity.
  - repeat split; auto; discriminate.
Qed.

(** X22: [main] of [scripts/apptrust_rollback.py] exits with 2, having made no
    client and issued no call, exactly when no base URL or no token is
    configured: an option given on the command line counts even when it is
    empty, the environment variable only when the option is not given.
    Otherwise the rollback runs on the registry that the client reaches, and
    [main] exits with 0 and prints [Done] exactly when the target is in the
    eligible set and no call issued failed; else it exits with 1 and reports
    the exception. *)
Theorem main_exit_code env reach args :
  let out := main env reach args in
  let base_url :=
    with_default (args_base_url args) (_env env "APPTRUST_BASE_URL" None) in
  let token :=
    with_default (args_token args) (_env env "APPTRUST_ACCESS_TOKEN" None) in
  (exit_code out = 2%Z ↔ truthy base_url = false ∨ truthy token = false)
  ∧ (exit_code out = 2%Z → final out = None ∧ printed_done out = false)
  ∧ (∀ b t, base_url = Some b → token = Some t → b ≠ "" → t ≠ "" →
       let rm := reach (AppTrustClient_init b t) in
       let ran :=
         run rm (args_app args) (args_version args) (args_dry_run args) in
       final out = Some (snd ran)
       ∧ (exit_code out = 0%Z
          ↔ is_Some (resolve rm (args_version args))
            ∧ ∀ r, In r (calls (snd ran)) → fails rm r = false)
       ∧ (exit_code out = 1%Z ↔ ∃ e, fst ran = inl e)
       ∧ (printed_done out = true ↔ exit_code out = 0%Z)
       ∧ (∀ e, fst ran = inl e → stderr out = [ErrorLine e])).
Proof.
  intros out base_url token. unfold out, main. fold base_url token.
  destruct (truthy base_url) eqn:Eb; cbn [negb].
  2:{ cbn. split; [tauto|]. split; [intros _; split; reflexivity|].
      intros b t Hb _ Hne. rewrite Hb in Eb. simpl in Eb.
      apply negb_false_iff, String.eqb_eq in Eb. contradiction. }
  destruct (truthy token) eqn:Et; cbn [negb].
  2:{ cbn. split; [tauto|]. split; [intros _; split; reflexivity|].
      intros b t _ Ht _ Hne. rewrite Ht in Et. simpl in Et.
      apply negb_false_iff, String.eqb_eq in Et. contradiction. }
  pose proof (run_client_outcome reach
                (AppTrustClient_init (default "" base_url) (default "" token))
                args) as H.
  cbv zeta in H. destruct H as (Hf & Hc & H0 & Hd & He).
  split; [|split].
  - split; [intros H2; destruct Hc as [Hc|Hc]; rewrite Hc in H2; discriminate|].
    intros [H|H]; discriminate H.
  - intros H2. destruct Hc as [Hc|Hc]; rewrite Hc in H2; discriminate.
  - intros b t Hb Ht _ _.
    rewrite Hb, Ht in *. cbn [default] in *. simpl in Hf, H0, Hd, He, Hc |- *.
    split; [exact Hf|]. split; [|split; [|split; [exact Hd | exact He]]].
    + rewrite H0. apply run_returns_iff.
    + destruct Hc as [Hc|Hc]; rewrite Hc in *.
      * split; [discriminate|]. intros [e He']. 
        destruct H0 as [H0 _]. rewrite (H0 eq_refl) in He'. discriminate.
      * split; [|reflexivity]. intros _.
        destruct (fst (run _ _ _ _)) as [e|[]] eqn:E; [eauto|].
        destruct H0 as [_ H0]. specialize (H0 eq_refl). discriminate.
Qed.

Lemma _env_truthy env name :
  _env env name None = None ∨ truthy (_env env name None) = true.
Proof.
  unfold _env. destruct (env !! name) as [v|]; [|auto].
  destruct (String.eqb_spec (strip v) "") as [E|E]; [auto|].
  right. simpl. apply negb_true_iff, String.eqb_neq, E.
Qed.

Lemma _env_or_None env name :
  (if truthy (_env env name None) then _env env name None else None)
  = _env env name None.
Proof. destruct (_env_truthy env name) as [-> | ->]; reflexivity. Qed.

Lemma _env_other env name other v default :
  other ≠ name → _env (<[other := v]> env) name default = _env env name default.
Proof. intros H. unfold _env. rewrite lookup_insert_ne by exact H. reflexivity. Qed.

(** X23: [get_auth_token] and [get_base_url] never return an empty string.
    The answer of [oidc_auth] wins when the module is there and its answer
    is not empty; otherwise the token is [JF_OIDC_TOKEN] and the base URL
    [APPTRUST_BASE_URL], as [_env] reads them; and [APPTRUST_ACCESS_TOKEN],
    which the other copy of the script reads, is not looked at. *)
Theorem get_auth_token_sources env oidc :
  (get_auth_token env oidc = None ∨ truthy (get_auth_token env oidc) = true)
  ∧ (get_base_url env oidc = None ∨ truthy (get_base_url env oidc) = true)
  ∧ (∀ o, oidc = Some o →
          get_auth_token env oidc
          = (if truthy (get_jfrog_token o) then get_jfrog_token o
             else _env env "JF_OIDC_TOKEN" None)
          ∧ get_base_url env oidc
            = (if truthy (get_apptrust_base_url o) then get_apptrust_base_url o
               else _env env "APPTRUST_BASE_URL" None))
  ∧ (oidc = None →
     get_auth_token env oidc = _env env "JF_OIDC_TOKEN" None
     ∧ get_base_url env oidc = _env env "APPTRUST_BASE_URL" None)
  ∧ (∀ v, get_auth_token (<["APPTRUST_ACCESS_TOKEN" := v]> env) oidc
          = get_auth_token env oidc).
Proof.
  unfold get_auth_token, get_base_url. cbv zeta. rewrite _env_or_None.
  split; [|split; [|split; [|split]]].
  - destruct oidc as [o|]; [|apply _env_truthy].
    destruct (truthy (get_jfrog_token o)) eqn:E; [auto | apply _env_truthy].
  - destruct oidc as [o|]; [|apply _env_truthy].
    destruct (truthy (get_apptrust_base_url o)) eqn:E;
      [auto | apply _env_truthy].
  - intros o ->. auto.
  - intros ->. auto.
  - intros v. rewrite _env_or_None, _env_other by discriminate. reflexivity.
Qed.

(** X24: with a base URL and a token given on the command line, neither
    empty, both copies of [main] do the same, whatever the environment and
    [oidc_auth] hold: they run the rollback with the client made of the two
    options. *)
Theorem mains_agree_on_explicit_options env env' oidc reach args b t :
  args_base_url args = Some b → args_token args = Some t →
  b ≠ "" → t ≠ "" →
  main env reach args = run_client reach (AppTrustClient_init b t) args
  ∧ main_ci env' oidc reach args
    = run_client reach (AppTrustClient_init b t) args.
Proof.
  intros Hb Ht Nb Nt. apply String.eqb_neq in Nb, Nt.
  unfold main, main_ci, or_, with_default. rewrite Hb, Ht.
  repeat (cbn [truthy negb]; rewrite ?Nb, ?Nt).
  split; reflexivity.
Qed.

Lemma mains_agree_on_explicit_options_witness :
  let args := mkArgs "web" "2.0.0" (Some "https://host/api/") (Some "secret")
                true in
  let reach := λ _, mkRemote scenario never_fails id in
  main ∅ reach args
  = run_client reach (AppTrustClient_init "https://host/api/" "secret") args
  ∧ main_ci {[ "JF_OIDC_TOKEN" := "other" ]} None reach args
    = run_client reach (AppTrustClient_init "https://host/api/" "secret") args.
Proof.
  intros args reach.
  apply mains_agree_on_explicit_options; [reflexivity | reflexivity | |];
    discriminate.
Defined.

(** X25: the two copies of [main] part on an option given empty: the copy
    under [.github] takes it for an option not given and falls back to
    [oidc_auth] and the environment, the copy under [scripts] exits with 2
    without looking at the environment. *)
Theorem mains_part_on_empty_options env oidc reach args :
  main_ci env oidc reach args
  = main_ci env oidc reach
      (mkArgs (args_app args) (args_version args)
         (given (args_base_url args)) (given (args_token args))
         (args_dry_run args))
  ∧ (args_base_url args = Some "" ∨ 
     (truthy (with_default (args_base_url args)
                (_env env "APPTRUST_BASE_URL" None)) = true
      ∧ args_token args = Some "") →
     exit_code (main env reach args) = 2%Z).
Proof.
  split.
  - unfold main_ci, or_, given, run_client. cbn [args_base_url args_token
      args_app args_version args_dry_run].
    destruct (truthy (args_base_url args)) eqn:Eb;
      destruct (truthy (args_token args)) eqn:Et;
      cbn [truthy]; rewrite ?Eb, ?Et; reflexivity.
  - unfold main. intros [Hb|[Hb Ht]].
    + rewrite Hb. reflexivity.
    + rewrite Hb, Ht. reflexivity.
Qed.
